(** * TorchMPS: the chain orchestrator and the adaptive merge/unmerge engine

    A shallow embedding of [torchmps.py].  Tensors are represented by their
    shapes: every property established below is about shapes, the kinds of
    the cores of a chain, its bookkeeping lists and the control flow of the
    forward calls.  Python exceptions are values of [exn]; a method that
    mutates [self] is a function from the object to the new object and the
    outcome of the call, so that what was mutated before an exception was
    raised stays mutated. *)

From Stdlib Require Import String Ascii.
From Stdlib Require Import List ZArith Bool Arith Lia.
From Stdlib Require Import Reals Lra.
Import ListNotations.

Set Implicit Arguments.

(** ** Exceptions and results *)

Inductive exn : Type :=
| AssertionError
| ValueError
| RuntimeError
| IndexError
| TypeError
| AttributeError
| ZeroDivisionError
| OutOfFuel.

Inductive result (A : Type) : Type :=
| Ok (a : A)
| Raise (e : exn).

Arguments Ok {A} a.
Arguments Raise {A} e.

Definition bind {A B : Type} (m : result A) (k : A -> result B) : result B :=
  match m with
  | Ok a => k a
  | Raise e => Raise e
  end.

Notation "x <- m ;; k" := (bind m (fun x => k))
  (at level 61, m at next level, right associativity).
Notation "' pat <- m ;; k" := (bind m (fun x => match x with pat => k end))
  (at level 61, pat pattern, m at next level, right associativity).
Notation "'assert' b ;; k" := (if b then k else Raise AssertionError)
  (at level 61, b at next level, right associativity).

Definition is_ok {A : Type} (m : result A) : bool :=
  match m with Ok _ => true | Raise _ => false end.

Fixpoint mapM {A B : Type} (f : A -> result B) (l : list A) : result (list B) :=
  match l with
  | [] => Ok []
  | x :: l' => y <- f x ;; ys <- mapM f l' ;; Ok (y :: ys)
  end.

Fixpoint sum_list (l : list nat) : nat :=
  match l with
  | [] => 0
  | x :: l' => x + sum_list l'
  end.

(** ** Tensors, by shape *)

Record Tensor : Type := mkTensor { shape : list nat }.

Definition ndim (t : Tensor) : nat := length (shape t).

(** [tensor.size(d)] *)
Definition size (t : Tensor) (d : nat) : result nat :=
  match nth_error (shape t) d with
  | Some n => Ok n
  | None => Raise IndexError
  end.

Definition list_eqb (l1 l2 : list nat) : bool :=
  if list_eq_dec Nat.eq_dec l1 l2 then true else false.

(** Python's normalisation of an index or of a slice bound against a length *)
Definition norm_index (n : nat) (i : Z) : option nat :=
  let j := if (i <? 0)%Z then (i + Z.of_nat n)%Z else i in
  if ((0 <=? j) && (j <? Z.of_nat n))%Z then Some (Z.to_nat j) else None.

Definition clamp_bound (n : nat) (i : Z) : nat :=
  let j := if (i <? 0)%Z then (i + Z.of_nat n)%Z else i in
  Z.to_nat (Z.min (Z.max 0 j) (Z.of_nat n)).

(** number of indices selected by [start:stop:step] in a sequence of length
    [n], for a positive [step] *)
Definition slice_len (n : nat) (start stop : option Z) (step : nat) : nat :=
  let a := match start with Some i => clamp_bound n i | None => 0 end in
  let b := match stop with Some i => clamp_bound n i | None => n end in
  (b - a + (step - 1)) / step.

Fixpoint select_dims (dims : list nat) (axis : nat) (i : Z) : result (list nat) :=
  match dims, axis with
  | [], _ => Raise IndexError
  | n :: rest, 0 =>
      match norm_index n i with
      | Some _ => Ok rest
      | None => Raise IndexError
      end
  | n :: rest, S a => r <- select_dims rest a i ;; Ok (n :: r)
  end.

Fixpoint slice_dims (dims : list nat) (axis : nat) (start stop : option Z)
  (step : nat) : result (list nat) :=
  match dims, axis with
  | [], _ => Raise IndexError
  | n :: rest, 0 => Ok (slice_len n start stop step :: rest)
  | n :: rest, S a => r <- slice_dims rest a start stop step ;; Ok (n :: r)
  end.

(** [tensor[i]] for [axis = 0], [tensor[:, i]] for [axis = 1] *)
Definition select (axis : nat) (t : Tensor) (i : Z) : result Tensor :=
  sh <- select_dims (shape t) axis i ;; Ok (mkTensor sh).

(** [tensor[start:stop:step]] for [axis = 0], [tensor[:, start:stop:step]]
    for [axis = 1] *)
Definition slice (axis : nat) (t : Tensor) (start stop : option Z) (step : nat)
  : result Tensor :=
  sh <- slice_dims (shape t) axis start stop step ;; Ok (mkTensor sh).

(** iterating over a tensor yields its sub-tensors along the first axis *)
Definition iter0 (t : Tensor) : result (list Tensor) :=
  match shape t with
  | [] => Raise TypeError
  | n :: rest => Ok (repeat (mkTensor rest) n)
  end.

(** [tensor.unsqueeze(0)] *)
Definition unsqueeze0 (t : Tensor) : Tensor := mkTensor (1 :: shape t).

(** [torch.cat([a, b])] along the first axis *)
Definition cat0 (a b : Tensor) : result Tensor :=
  match shape a, shape b with
  | n :: ra, m :: rb =>
      if list_eqb ra rb then Ok (mkTensor (n + m :: ra)) else Raise RuntimeError
  | _, _ => Raise RuntimeError
  end.

(** [torch.stack(ts)]: a non-empty list of tensors of one shape *)
Definition stack (ts : list Tensor) : result Tensor :=
  match ts with
  | [] => Raise RuntimeError
  | t :: rest =>
      if forallb (fun u => list_eqb (shape u) (shape t)) rest
      then Ok (mkTensor (length ts :: shape t))
      else Raise RuntimeError
  end.

(** ** [torch.einsum] on shapes

    The equation is parsed as the source writes it, [in1,in2->out].  Inside
    one operand a repeated subscript needs equal sizes (it takes the
    diagonal); across operands the sizes of a subscript broadcast, that is
    they are equal or one of them is 1.  Every subscript left out of the
    output is summed over. *)

Definition chars (s : string) : list ascii := list_ascii_of_string s.

Definition env : Type := list (ascii * nat).

Fixpoint lookup (c : ascii) (e : env) : option nat :=
  match e with
  | [] => None
  | (c', d) :: e' => if Ascii.eqb c c' then Some d else lookup c e'
  end.

Fixpoint split_on (sep : ascii) (s : list ascii) : list (list ascii) :=
  match s with
  | [] => [[]]
  | c :: s' =>
      if Ascii.eqb c sep then [] :: split_on sep s'
      else match split_on sep s' with
           | [] => [[c]]
           | w :: ws => (c :: w) :: ws
           end
  end.

Fixpoint split_arrow (s : list ascii) : option (list ascii * list ascii) :=
  match s with
  | [] => None
  | c :: s' =>
      match s' with
      | c2 :: s'' =>
          if (Ascii.eqb c "-" && Ascii.eqb c2 ">")%bool then Some ([], s'')
          else match split_arrow s' with
               | Some (l, r) => Some (c :: l, r)
               | None => None
               end
      | [] => None
      end
  end.

Fixpoint operand_env (subs : list ascii) (dims : list nat) (e : env) : result env :=
  match subs, dims with
  | [], [] => Ok e
  | c :: subs', d :: dims' =>
      match lookup c e with
      | None => operand_env subs' dims' ((c, d) :: e)
      | Some d' => if d =? d' then operand_env subs' dims' e else Raise RuntimeError
      end
  | _, _ => Raise RuntimeError
  end.

Definition broadcast (a b : nat) : result nat :=
  if a =? b then Ok a
  else if a =? 1 then Ok b
  else if b =? 1 then Ok a
  else Raise RuntimeError.

Fixpoint merge_env (loc glob : env) : result env :=
  match loc with
  | [] => Ok glob
  | (c, d) :: loc' =>
      match lookup c glob with
      | None => merge_env loc' ((c, d) :: glob)
      | Some d' => d'' <- broadcast d d' ;; merge_env loc' ((c, d'') :: glob)
      end
  end.

Fixpoint operands_env (subs : list (list ascii)) (ops : list Tensor) (e : env)
  : result env :=
  match subs, ops with
  | [], [] => Ok e
  | s :: subs', t :: ops' =>
      loc <- operand_env s (shape t) [] ;;
      e' <- merge_env loc e ;;
      operands_env subs' ops' e'
  | _, _ => Raise RuntimeError
  end.

Fixpoint output_shape (out : list ascii) (e : env) : result (list nat) :=
  match out with
  | [] => Ok []
  | c :: out' =>
      if existsb (Ascii.eqb c) out' then Raise RuntimeError
      else match lookup c e with
           | None => Raise RuntimeError
           | Some d => ds <- output_shape out' e ;; Ok (d :: ds)
           end
  end.

Definition einsum (eq : string) (ops : list Tensor) : result Tensor :=
  match split_arrow (chars eq) with
  | None => Raise RuntimeError
  | Some (ins, out) =>
      e <- operands_env (split_on "," ins) ops [] ;;
      sh <- output_shape out e ;;
      Ok (mkTensor sh)
  end.

(** ** The five kinds of cores *)

Inductive Core : Type :=
| InputRegion (tensor : Tensor)
| MergedInput (tensor : Tensor)
| InputSite (tensor : Tensor)
| OutputSite (tensor : Tensor)
| MergedOutput (tensor : Tensor) (left_output : bool).

Definition tensor_of (c : Core) : Tensor :=
  match c with
  | InputRegion t | MergedInput t | InputSite t | OutputSite t
  | MergedOutput t _ => t
  end.

(** [MergedInput.__init__]: the tensor has the axes [slrij], with equal bond
    sizes and equal feature sizes *)
Definition new_MergedInput (tensor : Tensor) : result Core :=
  let shape := shape tensor in
  assert (length shape =? 5) ;;
  assert (nth 1 shape 0 =? nth 2 shape 0) ;;
  assert (nth 3 shape 0 =? nth 4 shape 0) ;;
  Ok (MergedInput tensor).

(** [MergedOutput.__init__]: the tensor has the axes [olri] *)
Definition new_MergedOutput (tensor : Tensor) (left_output : bool) : result Core :=
  assert (length (shape tensor) =? 4) ;;
  Ok (MergedOutput tensor left_output).

(** [len(core)], the number of input sites of the core *)
Definition len (c : Core) : result nat :=
  match c with
  | InputRegion t => size t 0
  | MergedInput t => n <- size t 0 ;; Ok (2 * n)
  | InputSite _ => Ok 1
  | OutputSite _ => Ok 0
  | MergedOutput _ _ => Ok 1
  end.

(** [core.core_len()], the number of cores *)
Definition core_len (c : Core) : result nat :=
  match c with
  | InputRegion _ => len c
  | MergedInput _ => len c
  | InputSite _ => Ok 1
  | OutputSite _ => Ok 1
  | MergedOutput _ _ => Ok 2
  end.

(** An entry of a module list.  [InputRegion.merge] returns [[None]] for a
    region without sites, and [nn.ModuleList] stores a [None] entry as it is:
    every method called on it raises. *)
Definition Module : Type := option Core.

Definition mod_len (m : Module) : result nat :=
  match m with
  | Some c => len c
  | None => Raise TypeError
  end.

Definition mod_core_len (m : Module) : result nat :=
  match m with
  | Some c => core_len c
  | None => Raise AttributeError
  end.

(** [LinearRegion.core_len] and [LinearRegion.__len__] (and the overriding
    methods of [MergedLinearRegion], which have the same body) *)
Definition chain_core_len (module_list : list Module) : result nat :=
  ls <- mapM mod_core_len module_list ;; Ok (sum_list ls).

Definition chain_len (module_list : list Module) : result nat :=
  ls <- mapM mod_len module_list ;; Ok (sum_list ls).

(** ** [InputRegion]: slicing and the internal merge *)

(** [region[i]] *)
Definition InputRegion_getitem (tensor : Tensor) (key : Z) : result Core :=
  t <- select 0 tensor key ;; Ok (InputSite t).

(** [region[start:stop]] *)
Definition InputRegion_getslice (tensor : Tensor) (start stop : option Z)
  : result Tensor :=
  slice 0 tensor start stop 1.

Definition head_item (l : list Module) : result Module :=
  match l with
  | x :: _ => Ok x
  | [] => Raise IndexError
  end.

Definition not_None (l : list Module) : list Module :=
  filter (fun x => match x with Some _ => true | None => false end) l.

(** [InputRegion.merge].  The recursive calls are made on a slice with an
    even number of sites and offset 0, which answers without recursing. *)
Fixpoint InputRegion_merge_rec (fuel : nat) (tensor : Tensor) (offset : nat)
  : result (list Module) :=
  match fuel with
  | 0 => Raise OutOfFuel
  | S fuel' =>
      assert ((offset =? 0) || (offset =? 1)) ;;
      num_sites <- size tensor 0 ;;
      let parity := num_sites mod 2 in
      if num_sites =? 0 then Ok [None]
      else
        out_list <-
          (if (offset =? 1) && (parity =? 1) then
             first <- InputRegion_getitem tensor 0 ;;
             rest <- InputRegion_getslice tensor (Some 1%Z) None ;;
             inner <- InputRegion_merge_rec fuel' rest 0 ;;
             middle <- head_item inner ;;
             Ok [Some first; middle]
           else if (offset =? 1) && (parity =? 0) then
             first <- InputRegion_getitem tensor 0 ;;
             rest <- InputRegion_getslice tensor (Some 1%Z) (Some (-1)%Z) ;;
             inner <- InputRegion_merge_rec fuel' rest 0 ;;
             middle <- head_item inner ;;
             last <- InputRegion_getitem tensor (-1) ;;
             Ok [Some first; middle; Some last]
           else if (offset =? 0) && (parity =? 1) then
             rest <- InputRegion_getslice tensor None (Some (-1)%Z) ;;
             inner <- InputRegion_merge_rec fuel' rest 0 ;;
             middle <- head_item inner ;;
             last <- InputRegion_getitem tensor (-1) ;;
             Ok [middle; Some last]
           else
             even_cores <- slice 0 tensor (Some 0%Z) None 2 ;;
             odd_cores <- slice 0 tensor (Some 1%Z) None 2 ;;
             n_even <- size even_cores 0 ;;
             n_odd <- size odd_cores 0 ;;
             assert (n_even =? n_odd) ;;
             merged_cores <- einsum "slui,surj->slrij" [even_cores; odd_cores] ;;
             merged <- new_MergedInput merged_cores ;;
             Ok [Some merged]) ;;
        Ok (not_None out_list)
  end.

Definition InputRegion_merge (tensor : Tensor) (offset : nat)
  : result (list Module) :=
  InputRegion_merge_rec 2 tensor offset.

(** ** [MergedLinearRegion.combine] *)

Definition is_InputSite (m : Module) : bool :=
  match m with Some (InputSite _) => true | _ => false end.

Definition is_OutputSite (m : Module) : bool :=
  match m with Some (OutputSite _) => true | _ => false end.

Definition is_InputRegion (m : Module) : bool :=
  match m with Some (InputRegion _) => true | _ => false end.

Definition is_MergedInput (m : Module) : bool :=
  match m with Some (MergedInput _) => true | _ => false end.

Definition is_MergedOutput (m : Module) : bool :=
  match m with Some (MergedOutput _ _) => true | _ => false end.

(** the [tensor] attribute of an entry that is known to be a core *)
Definition mod_tensor (m : Module) : result Tensor :=
  match m with
  | Some c => Ok (tensor_of c)
  | None => Raise AttributeError
  end.

Definition combine (left_core right_core : Module) (merging : bool)
  : result (option Core) :=
  if merging && ((is_OutputSite left_core && is_InputSite right_core)
                 || (is_InputSite left_core && is_OutputSite right_core))
  then
    let left_site := is_InputSite left_core in
    lt <- mod_tensor left_core ;;
    rt <- mod_tensor right_core ;;
    new_tensor <-
      (if left_site then einsum "lui,our->olri" [lt; rt]
       else einsum "olu,uri->olri" [lt; rt]) ;;
    c <- new_MergedOutput new_tensor (negb left_site) ;;
    Ok (Some c)
  else if negb merging
          && ((is_InputRegion left_core && is_InputSite right_core)
              || (is_InputSite left_core && is_InputRegion right_core))
  then
    let left_site := is_InputSite left_core in
    lt <- mod_tensor left_core ;;
    rt <- mod_tensor right_core ;;
    let left_tensor := if left_site then unsqueeze0 lt else lt in
    let right_tensor := if left_site then rt else unsqueeze0 rt in
    assert (list_eqb (tl (shape left_tensor)) (tl (shape right_tensor))) ;;
    new_tensor <- cat0 left_tensor right_tensor ;;
    Ok (Some (InputRegion new_tensor))
  else Ok None.

(** ** Contractables and the bookkeeping entries *)

(** What the chain reads of a contractable: its tensor and the string that
    labels the axes of the tensor. *)
Record Contractable : Type := mkContractable {
  c_tensor : Tensor;
  c_bond_str : string
}.

(** An entry of a singular-value list: the [-1] sentinel or a vector. *)
Inductive SvEntry : Type :=
| SvUnset
| SvVec (sv_vec : Tensor).

(** What a forward call of the adaptive chain returns: the output alone, or
    the output with the bond dimensions and the singular values. *)
Inductive FwdOut : Type :=
| OutOnly (output : Tensor)
| OutTriple (output : Tensor) (bond_list : list Z) (sv_list : list SvEntry).

(** [self.module_list] of the adaptive chain is either the very list object
    stored as [module_list_0] or [module_list_1], or a list of its own. *)
Inductive ModListRef : Type :=
| Alias (k : nat)
| Own (l : list Module).

(** [str.index(c)] *)
Fixpoint str_index (c : ascii) (s : list ascii) : result nat :=
  match s with
  | [] => Raise ValueError
  | c' :: s' => if Ascii.eqb c c' then Ok 0 else i <- str_index c s' ;; Ok (S i)
  end.

Definition in_lin_bonds (c : ascii) : bool :=
  Ascii.eqb c "l" || Ascii.eqb c "r".

(** the subscripts of the trace over the bond axes: every bond letter is
    written [l] on the input side and dropped from the output side *)
Fixpoint trace_in_str (bond_str : list ascii) : list ascii :=
  match bond_str with
  | [] => []
  | c :: s => (if in_lin_bonds c then "l"%char else c) :: trace_in_str s
  end.

Fixpoint trace_out_str (bond_str : list ascii) : list ascii :=
  match bond_str with
  | [] => []
  | c :: s => if in_lin_bonds c then trace_out_str s else c :: trace_out_str s
  end.

Definition trace_ein_str (bond_str : string) : string :=
  string_of_list_ascii
    (trace_in_str (chars bond_str) ++ chars "->" ++ trace_out_str (chars bond_str)).

Section Engine.

(** The modules [utils] and [contractables] of the repository are taken
    as they are used: [svd_flex] with the type of its cutoff, the four
    contractable constructors and [ContractableList(l).reduce(p)]. *)
Variable Float : Type.
Variable svd_flex :
  Tensor -> string -> nat -> Float -> result (Tensor * Tensor * Z).
Variables SingleMat MatRegion OutputCore : Tensor -> result Contractable.
Variable EdgeVec : Tensor -> bool -> result Contractable.
Variable reduce : list Contractable -> bool -> result Contractable.

(** *** The forward method of each core *)

Definition Core_forward (c : Core) (input_data : Tensor) : result Contractable :=
  match c with
  | InputRegion tensor =>
      assert (ndim input_data =? 3) ;;
      n1 <- size input_data 1 ;;
      l <- len c ;;
      assert (n1 =? l) ;;
      n2 <- size input_data 2 ;;
      f <- size tensor 3 ;;
      assert (n2 =? f) ;;
      mats <- einsum "slri,bsi->bslr" [tensor; input_data] ;;
      MatRegion mats
  | MergedInput tensor =>
      assert (ndim input_data =? 3) ;;
      n1 <- size input_data 1 ;;
      l <- len c ;;
      assert (n1 =? l) ;;
      n2 <- size input_data 2 ;;
      f <- size tensor 3 ;;
      assert (n2 =? f) ;;
      assert (n1 mod 2 =? 0) ;;
      inputs_0 <- slice 1 input_data (Some 0%Z) None 2 ;;
      inputs_1 <- slice 1 input_data (Some 1%Z) None 2 ;;
      tensor' <- einsum "slrij,bsj->bslri" [tensor; inputs_1] ;;
      mats <- einsum "bslri,bsi->bslr" [tensor'; inputs_0] ;;
      MatRegion mats
  | InputSite tensor =>
      assert (ndim input_data =? 2) ;;
      n1 <- size input_data 1 ;;
      f <- size tensor 2 ;;
      assert (n1 =? f) ;;
      mat <- einsum "lri,bi->blr" [tensor; input_data] ;;
      SingleMat mat
  | OutputSite tensor => OutputCore tensor
  | MergedOutput tensor _ =>
      assert (ndim input_data =? 2) ;;
      n1 <- size input_data 1 ;;
      f <- size tensor 3 ;;
      assert (n1 =? f) ;;
      tensor' <- einsum "olri,bi->bolr" [tensor; input_data] ;;
      OutputCore tensor'
  end.

Definition mod_forward (m : Module) (input_data : Tensor) : result Contractable :=
  match m with
  | Some c => Core_forward c input_data
  | None => Raise TypeError
  end.

(** *** [LinearRegion.forward] *)

(** the loop that cuts the input along the site axis and calls the cores *)
Fixpoint feed (module_list : list Module) (input_data : Tensor) (ind : nat)
  : result (list Contractable) :=
  match module_list with
  | [] => Ok []
  | module :: rest =>
      mod_len <- mod_len module ;;
      mod_input <-
        (if mod_len =? 1 then select 1 input_data (Z.of_nat ind)
         else slice 1 input_data (Some (Z.of_nat ind))
                                 (Some (Z.of_nat (ind + mod_len))) 1) ;;
      c <- mod_forward module mod_input ;;
      cs <- feed rest input_data (ind + mod_len) ;;
      Ok (c :: cs)
  end.

(** the trace over the two bond axes of a reduced contractable *)
Definition trace_bonds (contractable : Contractable) : result Tensor :=
  let bond_str := chars (c_bond_str contractable) in
  assert (existsb (Ascii.eqb "l") bond_str && existsb (Ascii.eqb "r") bond_str) ;;
  einsum (trace_ein_str (c_bond_str contractable)) [c_tensor contractable].

Definition forward_periodic (contractable_list : list Contractable)
  : result Tensor :=
  contractable <- reduce contractable_list true ;;
  trace_bonds contractable.

Definition forward_open (contractable_list : list Contractable)
  (parallel_eval : bool) : result Tensor :=
  first <- match contractable_list with
           | x :: _ => Ok x
           | [] => Raise IndexError
           end ;;
  let last := List.last contractable_list first in
  ind_l <- str_index "l" (chars (c_bond_str first)) ;;
  ind_r <- str_index "r" (chars (c_bond_str last)) ;;
  dim_l <- size (c_tensor first) ind_l ;;
  dim_r <- size (c_tensor last) ind_r ;;
  if (dim_l =? 0) || (dim_r =? 0) then Raise IndexError
  else
    left_vec <- EdgeVec (mkTensor [dim_l]) true ;;
    right_vec <- EdgeVec (mkTensor [dim_r]) false ;;
    output <- reduce (left_vec :: contractable_list ++ [right_vec]) parallel_eval ;;
    Ok (c_tensor output).

Definition LinearRegion_forward (module_list : list Module)
  (periodic_bc parallel_eval : bool) (input_data : Tensor) : result Tensor :=
  assert (ndim input_data =? 3) ;;
  n1 <- size input_data 1 ;;
  n <- chain_len module_list ;;
  assert (n1 =? n) ;;
  contractable_list <- feed module_list input_data 0 ;;
  if periodic_bc then forward_periodic contractable_list
  else forward_open contractable_list parallel_eval.

(** *** Splitting the merged cores *)

(** the loop of [MergedInput.unmerge] over the merged cores *)
Fixpoint split_cores (merged_cores : list Tensor) (max_D : nat) (cutoff : Float)
  : result (list Tensor * list Z * list SvEntry) :=
  match merged_cores with
  | [] => Ok ([], [], [])
  | merged_core :: rest =>
      let sv_vec := mkTensor [max_D] in
      '(left_core, right_core, bond_dim) <-
         svd_flex merged_core "lrij->lui,urj" max_D cutoff ;;
      '(core_list, bond_list, sv_list) <- split_cores rest max_D cutoff ;;
      Ok (left_core :: right_core :: core_list,
          bond_dim :: (-1)%Z :: bond_list,
          SvVec sv_vec :: SvUnset :: sv_list)
  end.

Definition MergedInput_unmerge (tensor : Tensor) (cutoff : Float)
  : result (list Module * list Z * list SvEntry) :=
  max_D <- size tensor 1 ;;
  merged_cores <- iter0 tensor ;;
  '(core_list, bond_list, sv_list) <- split_cores merged_cores max_D cutoff ;;
  tensor' <- stack core_list ;;
  Ok ([Some (InputRegion tensor')], (-1)%Z :: bond_list, SvUnset :: sv_list).

Definition MergedOutput_unmerge (tensor : Tensor) (left_output : bool)
  (cutoff : Float) : result (list Module * list Z * list SvEntry) :=
  if left_output then
    max_D <- size tensor 2 ;;
    let sv_vec := mkTensor [max_D] in
    '(output_core, input_core, bond_dim) <-
       svd_flex tensor "olri->olu,uri" max_D cutoff ;;
    Ok ([Some (OutputSite output_core); Some (InputSite input_core)],
        [(-1)%Z; bond_dim; (-1)%Z], [SvUnset; SvVec sv_vec; SvUnset])
  else
    max_D <- size tensor 1 ;;
    let sv_vec := mkTensor [max_D] in
    '(output_core, input_core, bond_dim) <-
       svd_flex tensor "olri->our,lui" max_D cutoff ;;
    Ok ([Some (InputSite input_core); Some (OutputSite output_core)],
        [(-1)%Z; bond_dim; (-1)%Z], [SvUnset; SvVec sv_vec; SvUnset]).

(** the first loop of [MergedLinearRegion.unmerge]: the lists start as
    [[]], [[-1]], [[-1]], which is added by the caller *)
Fixpoint unmerge_cores (merged_list : list Module) (cutoff : Float)
  : result (list Module * list Z * list SvEntry) :=
  match merged_list with
  | [] => Ok ([], [], [])
  | core :: rest =>
      '(new_cores, new_bonds, new_svs) <-
         match core with
         | Some (MergedInput tensor) =>
             '(cs, bs, ss) <- MergedInput_unmerge tensor cutoff ;;
             Ok (cs, tl bs, tl ss)
         | Some (MergedOutput tensor left_output) =>
             '(cs, bs, ss) <- MergedOutput_unmerge tensor left_output cutoff ;;
             Ok (cs, tl bs, tl ss)
         | _ =>
             assert (negb (is_InputRegion core)) ;;
             Ok ([core], [(-1)%Z], [SvUnset])
         end ;;
      '(unmerged_list, bond_list, sv_list) <- unmerge_cores rest cutoff ;;
      Ok (new_cores ++ unmerged_list, new_bonds ++ bond_list, new_svs ++ sv_list)
  end.

(** *** The sliding window of the combining passes *)

(** One pass of the loop of [unmerge].  The argument is what is left of
    the list from the window on; a list shorter than two is not entered. *)
Fixpoint unmerge_scan (rest : list Module) : result (list Module) :=
  match rest with
  | left_core :: ((right_core :: after) as rest') =>
      new_core <- combine left_core right_core false ;;
      match new_core with
      | None =>
          tail <- match rest' with
                  | [last] => Ok [last]
                  | _ => unmerge_scan rest'
                  end ;;
          Ok (left_core :: tail)
      | Some c =>
          tail <- match after with
                  | [last] => Ok [last]
                  | _ => unmerge_scan after
                  end ;;
          Ok (Some c :: tail)
      end
  | _ => Ok []
  end.

(** One pass of the loop of [merge]: a pair is fused only where the
    parity of [site_num] is the offset. *)
Fixpoint merge_scan (offset : nat) (rest : list Module) (site_num : nat)
  : result (list Module) :=
  match rest with
  | left_core :: ((right_core :: after) as rest') =>
      new_core <- combine left_core right_core true ;;
      match new_core with
      | Some c =>
          if offset =? site_num mod 2 then
            n <- core_len c ;;
            nl <- mod_core_len left_core ;;
            nr <- mod_core_len right_core ;;
            assert (n =? nl + nr) ;;
            tail <- match after with
                    | [last] => Ok [last]
                    | _ => merge_scan offset after (site_num + n)
                    end ;;
            Ok (Some c :: tail)
          else
            nl <- mod_core_len left_core ;;
            tail <- match rest' with
                    | [last] => Ok [last]
                    | _ => merge_scan offset rest' (site_num + nl)
                    end ;;
            Ok (left_core :: tail)
      | None =>
          nl <- mod_core_len left_core ;;
          tail <- match rest' with
                  | [last] => Ok [last]
                  | _ => merge_scan offset rest' (site_num + nl)
                  end ;;
          Ok (left_core :: tail)
      end
  | _ => Ok []
  end.

(** The [while True] loops: passes are repeated until one of them leaves
    the length unchanged. *)
Fixpoint unmerge_passes (fuel : nat) (unmerged_list : list Module)
  : result (list Module) :=
  match fuel with
  | 0 => Raise OutOfFuel
  | S fuel' =>
      combined_list <- unmerge_scan unmerged_list ;;
      if length combined_list =? length unmerged_list then Ok unmerged_list
      else unmerge_passes fuel' combined_list
  end.

Fixpoint merge_passes (fuel : nat) (offset : nat) (merged_list : list Module)
  : result (list Module) :=
  match fuel with
  | 0 => Raise OutOfFuel
  | S fuel' =>
      combined_list <- merge_scan offset merged_list 0 ;;
      if length combined_list =? length merged_list then Ok merged_list
      else merge_passes fuel' offset combined_list
  end.

(** *** Rescaling, on shapes: a norm is a tensor without axes *)

Definition get_norm (c : Core) : result (list Tensor) :=
  match c with
  | InputRegion tensor | MergedInput tensor =>
      cores <- iter0 tensor ;; Ok (map (fun _ => mkTensor []) cores)
  | InputSite _ | OutputSite _ | MergedOutput _ _ => Ok [mkTensor []]
  end.

Definition mod_get_norm (m : Module) : result (list Tensor) :=
  match m with
  | Some c => get_norm c
  | None => Raise AttributeError
  end.

Definition rescale_norm (c : Core) (scale_list : list Tensor) : result unit :=
  match c with
  | InputRegion tensor | MergedInput tensor =>
      match shape tensor with
      | [] => Raise TypeError
      | n :: _ => assert (length scale_list =? n) ;; Ok tt
      end
  | InputSite _ | OutputSite _ | MergedOutput _ _ =>
      assert (length scale_list =? 1) ;; Ok tt
  end.

Fixpoint rescale_all (cores : list (Module * list Tensor)) : result unit :=
  match cores with
  | [] => Ok tt
  | (Some c, these_scales) :: rest =>
      _ <- rescale_norm c these_scales ;; rescale_all rest
  | (None, _) :: _ => Raise AttributeError
  end.

Definition rescale (unmerged_list : list Module) : result unit :=
  log_norms <- mapM mod_get_norm unmerged_list ;;
  if sum_list (map (@length Tensor) log_norms) =? 0 then Raise ZeroDivisionError
  else rescale_all (List.combine unmerged_list log_norms).

(** *** The adaptive chain *)

Record MergedLinearRegion : Type := mkMLR {
  module_list : ModListRef;
  module_list_0 : option (list Module);
  module_list_1 : option (list Module);
  periodic_bc : bool;
  parallel_eval : bool;
  offset : nat;
  input_counter : Z;
  merge_threshold : Z;
  cutoff : Float
}.

Definition set_module_list (self : MergedLinearRegion) (r : ModListRef) :=
  mkMLR r (module_list_0 self) (module_list_1 self) (periodic_bc self)
        (parallel_eval self) (offset self) (input_counter self)
        (merge_threshold self) (cutoff self).

Definition set_offset (self : MergedLinearRegion) (o : nat) :=
  mkMLR (module_list self) (module_list_0 self) (module_list_1 self)
        (periodic_bc self) (parallel_eval self) o (input_counter self)
        (merge_threshold self) (cutoff self).

Definition set_input_counter (self : MergedLinearRegion) (n : Z) :=
  mkMLR (module_list self) (module_list_0 self) (module_list_1 self)
        (periodic_bc self) (parallel_eval self) (offset self) n
        (merge_threshold self) (cutoff self).

(** [getattr(self, f"module_list_{k}")], when the attribute is set *)
Definition merged_attr (self : MergedLinearRegion) (k : nat)
  : option (list Module) :=
  match k with
  | 0 => module_list_0 self
  | 1 => module_list_1 self
  | _ => None
  end.

(** [setattr(self, f"module_list_{k}", nn.ModuleList(l))] *)
Definition set_merged_attr (self : MergedLinearRegion) (k : nat)
  (l : list Module) :=
  match k with
  | 0 => mkMLR (module_list self) (Some l) (module_list_1 self)
               (periodic_bc self) (parallel_eval self) (offset self)
               (input_counter self) (merge_threshold self) (cutoff self)
  | _ => mkMLR (module_list self) (module_list_0 self) (Some l)
               (periodic_bc self) (parallel_eval self) (offset self)
               (input_counter self) (merge_threshold self) (cutoff self)
  end.

(** the list that [self.module_list] denotes *)
Definition get_module_list (self : MergedLinearRegion) : result (list Module) :=
  match module_list self with
  | Own l => Ok l
  | Alias k =>
      match merged_attr self k with
      | Some l => Ok l
      | None => Raise AttributeError
      end
  end.

(** the first loop of [merge]: every region is merged internally *)
Fixpoint merge_cores (unmerged_list : list Module) (site_num : nat)
  : result (list Module) :=
  match unmerged_list with
  | [] => Ok []
  | core :: rest =>
      assert (negb (is_MergedInput core)) ;;
      assert (negb (is_MergedOutput core)) ;;
      new_cores <- match core with
                   | Some (InputRegion tensor) =>
                       InputRegion_merge tensor (site_num mod 2)
                   | _ => Ok [core]
                   end ;;
      n <- mod_core_len core ;;
      merged_list <- merge_cores rest (site_num + n) ;;
      Ok (new_cores ++ merged_list)
  end.

(** the in-place update of a merged list: the cores keep their kinds and
    take the new tensors, which must have the shapes of the old ones *)
Fixpoint same_shapes (module_list merged_list : list Module) : result unit :=
  match module_list, merged_list with
  | old :: olds, new :: news =>
      t_old <- mod_tensor old ;;
      t_new <- mod_tensor new ;;
      assert (list_eqb (shape t_old) (shape t_new)) ;;
      same_shapes olds news
  | _, _ => Ok tt
  end.

Definition merge (self : MergedLinearRegion) (offset : nat)
  : result MergedLinearRegion :=
  assert ((offset =? 0) || (offset =? 1)) ;;
  unmerged_list <- get_module_list self ;;
  merged_list <- merge_cores unmerged_list offset ;;
  merged_list <- merge_passes (S (length merged_list)) offset merged_list ;;
  match merged_attr self offset with
  | None => Ok (set_merged_attr self offset merged_list)
  | Some module_list =>
      assert (length module_list =? length merged_list) ;;
      _ <- same_shapes module_list merged_list ;;
      Ok self
  end.

Definition unmerge (self : MergedLinearRegion) (cutoff : Float)
  : result (MergedLinearRegion * list Z * list SvEntry) :=
  merged_list <- match merged_attr self (offset self) with
                 | Some l => Ok l
                 | None => Raise AttributeError
                 end ;;
  '(unmerged_list, bond_list, sv_list) <- unmerge_cores merged_list cutoff ;;
  unmerged_list <- unmerge_passes (S (length unmerged_list)) unmerged_list ;;
  _ <- rescale unmerged_list ;;
  Ok (set_module_list self (Own unmerged_list),
      (-1)%Z :: bond_list, SvUnset :: sv_list).

(** the truth value of [bond_list] in [if bond_list:] *)
Definition truthy (bond_list : option (list Z)) : bool :=
  match bond_list with
  | Some (_ :: _) => true
  | _ => false
  end.

(** the test at the top of [MergedLinearRegion.forward] *)
Definition threshold_hit (self : MergedLinearRegion) : bool :=
  (merge_threshold self <=? input_counter self)%Z.

(** the end of [forward], from the increment of the counter on *)
Definition count_and_contract (self : MergedLinearRegion)
  (bond_list : option (list Z)) (sv_list : list SvEntry) (input_data : Tensor)
  : MergedLinearRegion * result FwdOut :=
  match size input_data 0 with
  | Raise e => (self, Raise e)
  | Ok batch =>
      let self := set_input_counter self (input_counter self + Z.of_nat batch) in
      (self,
       module_list <- get_module_list self ;;
       output <- LinearRegion_forward module_list (periodic_bc self)
                   (parallel_eval self) input_data ;;
       if truthy bond_list
       then Ok (OutTriple output (match bond_list with Some l => l | None => [] end)
                          sv_list)
       else Ok (OutOnly output))
  end.

(** [MergedLinearRegion.forward]: the object after the call, and what the
    call returned or raised *)
Definition forward (self : MergedLinearRegion) (input_data : Tensor)
  : MergedLinearRegion * result FwdOut :=
  if threshold_hit self then
    match unmerge self (cutoff self) with
    | Raise e => (self, Raise e)
    | Ok (self, bond_list, sv_list) =>
        let self := set_offset self ((offset self + 1) mod 2) in
        match merge self (offset self) with
        | Raise e => (self, Raise e)
        | Ok self =>
            let self :=
              set_input_counter self (input_counter self - merge_threshold self) in
            let self := set_module_list self (Alias (offset self)) in
            count_and_contract self (Some bond_list) sv_list input_data
        end
    end
  else count_and_contract self None [] input_data.

(** the structural cycle of [forward], the body of
    [if self.input_counter >= self.merge_threshold:]: the object after it,
    and the two lists that [unmerge] returned, or what [unmerge] or [merge]
    raised *)
Definition cycle (self : MergedLinearRegion)
  : MergedLinearRegion * result (list Z * list SvEntry) :=
  match unmerge self (cutoff self) with
  | Raise e => (self, Raise e)
  | Ok (self, bond_list, sv_list) =>
      let self := set_offset self ((offset self + 1) mod 2) in
      match merge self (offset self) with
      | Raise e => (self, Raise e)
      | Ok self =>
          let self :=
            set_input_counter self (input_counter self - merge_threshold self) in
          let self := set_module_list self (Alias (offset self)) in
          (self, Ok (bond_list, sv_list))
      end
  end.

(** [LinearRegion.__init__]: every entry of the list has to be a module *)
Definition check_modules (module_list : list Module) : result unit :=
  if forallb (fun m => match m with Some _ => true | None => false end) module_list
  then Ok tt else Raise ValueError.

(** [MergedLinearRegion.__init__] *)
Definition new_MergedLinearRegion (module_list : list Module)
  (periodic_bc parallel_eval : bool) (cutoff : Float) (merge_threshold : Z)
  : result MergedLinearRegion :=
  _ <- check_modules module_list ;;
  let self := mkMLR (Own module_list) None None periodic_bc parallel_eval
                    0 0%Z merge_threshold cutoff in
  self <- merge self (offset self) ;;
  self <- merge self ((offset self + 1) mod 2) ;;
  Ok (set_module_list self (Alias (offset self))).

(** *** The model [MPS] *)

(** [LinearRegion], the chain that never rearranges its cores *)
Record LinearRegion : Type := mkLR {
  lr_module_list : list Module;
  lr_periodic_bc : bool;
  lr_parallel_eval : bool
}.

Definition new_LinearRegion (module_list : list Module)
  (periodic_bc parallel_eval : bool) : result LinearRegion :=
  _ <- check_modules module_list ;;
  Ok (mkLR module_list periodic_bc parallel_eval).

Inductive Region : Type :=
| Plain (r : LinearRegion)
| Adaptive (r : MergedLinearRegion).

Definition region_len (r : Region) : result nat :=
  match r with
  | Plain r => chain_len (lr_module_list r)
  | Adaptive r => l <- get_module_list r ;; chain_len l
  end.

Definition region_core_len (r : Region) : result nat :=
  match r with
  | Plain r => chain_core_len (lr_module_list r)
  | Adaptive r => l <- get_module_list r ;; chain_core_len l
  end.

Record MPS : Type := mkMPS {
  linear_region : Region;
  input_dim : nat;
  output_dim : nat;
  bond_dim : nat;
  feature_dim : nat;
  path : option (list Z);
  feature_map : option (Tensor -> result Tensor);
  bond_list : list Z;
  sv_list : list SvEntry
}.

(** Modelled from the spec: [utils.init_tensor], which is not part of the
    sources at hand, creates the tensor of a core with the shape it is
    given ("core tensors are created at construction"). *)
Definition init_tensor (shape : list nat) : Tensor := mkTensor shape.

(** the cores that [MPS.__init__] lines up: an input region, the output
    site, an input region *)
Definition mps_module_list (input_dim output_dim bond_dim feature_dim : nat)
  (label_site : nat) : list Module :=
  (if 0 <? label_site
   then [Some (InputRegion
                 (init_tensor [label_site; bond_dim; bond_dim; feature_dim]))]
   else [])
  ++ [Some (OutputSite (init_tensor [output_dim; bond_dim; bond_dim]))]
  ++ (if label_site <? input_dim
      then [Some (InputRegion
                    (init_tensor [input_dim - label_site; bond_dim; bond_dim;
                                  feature_dim]))]
      else []).

(** [MPS.__init__] *)
Definition new_MPS (input_dim output_dim bond_dim feature_dim : nat)
  (adaptive_mode periodic_bc parallel_eval : bool) (label_site : option Z)
  (path : option (list Z)) (cutoff : Float) (merge_threshold : Z) : result MPS :=
  let label_site := match label_site with
                    | Some l => l
                    | None => Z.of_nat (input_dim / 2)
                    end in
  assert ((0 <=? label_site)%Z && (label_site <=? Z.of_nat input_dim)%Z) ;;
  let module_list := mps_module_list input_dim output_dim bond_dim feature_dim
                       (Z.to_nat label_site) in
  region <- (if adaptive_mode
             then r <- new_MergedLinearRegion module_list periodic_bc
                         parallel_eval cutoff merge_threshold ;;
                  Ok (Adaptive r)
             else r <- new_LinearRegion module_list periodic_bc parallel_eval ;;
                  Ok (Plain r)) ;;
  n <- region_len region ;;
  assert (n =? input_dim) ;;
  assert (match path with
          | Some ((_ :: _) as p) => length p =? input_dim
          | _ => true
          end) ;;
  let bond_list :=
    if periodic_bc then repeat (Z.of_nat bond_dim) (input_dim + 2)
    else 1%Z :: repeat (Z.of_nat bond_dim) input_dim ++ [1%Z] in
  Ok (mkMPS region input_dim output_dim bond_dim feature_dim path None
            bond_list (repeat SvUnset (input_dim + 2))).

(** [MPS.embed_input] *)
Definition embed_input (self : MPS) (input_data : Tensor) : result Tensor :=
  assert ((ndim input_data =? 2) || (ndim input_data =? 3)) ;;
  n1 <- size input_data 1 ;;
  assert (n1 =? input_dim self) ;;
  if ndim input_data =? 3 then
    n2 <- size input_data 2 ;;
    if negb (n2 =? feature_dim self) then Raise ValueError
    else Ok input_data
  else
    match feature_map self with
    | Some f_map =>
        batches <- iter0 input_data ;;
        embedded <- mapM (fun batch =>
                            xs <- iter0 batch ;;
                            fs <- mapM f_map xs ;;
                            stack fs) batches ;;
        embedded_data <- stack embedded ;;
        n0 <- size input_data 0 ;;
        assert (list_eqb (shape embedded_data)
                         [n0; input_dim self; feature_dim self]) ;;
        Ok embedded_data
    | None =>
        if negb (feature_dim self =? 2) then Raise RuntimeError
        else Ok (mkTensor (shape input_data ++ [feature_dim self]))
    end.

(** [l[i] = v] for an index inside the list *)
Fixpoint list_set {A : Type} (i : nat) (v : A) (l : list A) : list A :=
  match l, i with
  | [], _ => []
  | _ :: l', 0 => v :: l'
  | x :: l', S i' => x :: list_set i' v l'
  end.

(** a vector can be written into a row of [sv_list], which has [bond_dim]
    entries, when its shape broadcasts to that of the row *)
Definition fits_row (v : Tensor) (bond_dim : nat) : bool :=
  match shape v with
  | [] => true
  | [m] => (m =? bond_dim) || (m =? 1)
  | _ => false
  end.

(** the loop of [MPS.forward] over the returned bond dimensions, from
    index [i] on; what has been written before an exception stays written.
    An entry of [sv_list] records the vector that was assigned to the row:
    the assignment [self.sv_list[i] = new_svs[i]] broadcasts the vector into
    the row, which keeps its [bond_dim] entries, and is refused when the
    vector does not fit the row ([fits_row]). *)
Fixpoint update_lists (i : nat) (new_bonds : list Z) (new_svs : list SvEntry)
  (bond_dim : nat) (bond_list : list Z) (sv_list : list SvEntry)
  : list Z * list SvEntry * result unit :=
  match new_bonds with
  | [] => (bond_list, sv_list, Ok tt)
  | b :: new_bonds' =>
      if negb (b =? -1)%Z then
        match nth_error new_svs i with
        | None => (bond_list, sv_list, Raise IndexError)
        | Some SvUnset => (bond_list, sv_list, Raise AssertionError)
        | Some (SvVec v) =>
            if negb (i <? length bond_list)
            then (bond_list, sv_list, Raise IndexError)
            else
              let bond_list := list_set i b bond_list in
              if negb (i <? length sv_list)
              then (bond_list, sv_list, Raise IndexError)
              else if negb (fits_row v bond_dim)
              then (bond_list, sv_list, Raise RuntimeError)
              else update_lists (S i) new_bonds' new_svs bond_dim bond_list
                                (list_set i (SvVec v) sv_list)
        end
      else update_lists (S i) new_bonds' new_svs bond_dim bond_list sv_list
  end.

Definition set_region (self : MPS) (r : Region) : MPS :=
  mkMPS r (input_dim self) (output_dim self) (bond_dim self) (feature_dim self)
        (path self) (feature_map self) (bond_list self) (sv_list self).

Definition set_lists (self : MPS) (bl : list Z) (sl : list SvEntry) : MPS :=
  mkMPS (linear_region self) (input_dim self) (output_dim self) (bond_dim self)
        (feature_dim self) (path self) (feature_map self) bl sl.

(** [torch.stack(ts, dim=1)] *)
Definition stack1 (ts : list Tensor) : result Tensor :=
  match ts with
  | [] => Raise RuntimeError
  | t :: rest =>
      if forallb (fun u => list_eqb (shape u) (shape t)) rest
      then match shape t with
           | [] => Raise IndexError
           | b :: sh => Ok (mkTensor (b :: length ts :: sh))
           end
      else Raise RuntimeError
  end.

(** the head of [MPS.forward]: the inputs are put in the order of the
    path, if there is one, and embedded *)
Definition prepare_input (self : MPS) (input_data : Tensor) : result Tensor :=
  input_data <- match path self with
                | Some ((_ :: _) as p) =>
                    path_inputs <- mapM (select 1 input_data) p ;;
                    stack1 path_inputs
                | _ => Ok input_data
                end ;;
  embed_input self input_data.

(** [MPS.forward]: the model after the call, and what the call returned or
    raised *)
Definition MPS_forward (self : MPS) (input_data : Tensor) : MPS * result Tensor :=
  match prepare_input self input_data with
  | Raise e => (self, Raise e)
  | Ok input_data =>
      match linear_region self with
      | Plain r =>
          (self, LinearRegion_forward (lr_module_list r) (lr_periodic_bc r)
                   (lr_parallel_eval r) input_data)
      | Adaptive r =>
          let '(r, output) := forward r input_data in
          let self := set_region self (Adaptive r) in
          match output with
          | Raise e => (self, Raise e)
          | Ok (OutOnly output) => (self, Ok output)
          | Ok (OutTriple output new_bonds new_svs) =>
              if negb (length new_bonds =? length (bond_list self))
              then (self, Raise AssertionError)
              else if negb (length new_bonds =? length new_svs)
              then (self, Raise AssertionError)
              else
                let '(bl, sl, r) :=
                  update_lists 0 new_bonds new_svs (bond_dim self)
                               (bond_list self) (sv_list self) in
                (set_lists self bl sl, _ <- r ;; Ok output)
          end
      end
  end.

(** successive forward calls: for each call, whether it found the threshold
    hit, and the input counter it left *)
Fixpoint run (self : MergedLinearRegion) (inputs : list Tensor)
  : list (bool * Z) :=
  match inputs with
  | [] => []
  | input_data :: rest =>
      let self' := fst (forward self input_data) in
      (threshold_hit self, input_counter self') :: run self' rest
  end.

(** the states of the adaptive chain of a model over [N] sites: the chain that
    [MPS.__init__] builds, and the chain after each forward call, whether
    the call returned or raised *)
Inductive adaptive_chain (N : nat) : MergedLinearRegion -> Prop :=
| chain_built (output_dim bond_dim feature_dim label_site : nat)
    (periodic_bc parallel_eval : bool) (cutoff : Float) (merge_threshold : Z)
    (self : MergedLinearRegion) :
    label_site <= N ->
    new_MergedLinearRegion
      (mps_module_list N output_dim bond_dim feature_dim label_site)
      periodic_bc parallel_eval cutoff merge_threshold = Ok self ->
    adaptive_chain N self
| chain_used (self : MergedLinearRegion) (input_data : Tensor) :
    adaptive_chain N self ->
    adaptive_chain N (fst (forward self input_data)).

End Engine.

(** ** A shape-level instance of [utils] and [contractables]

    The concrete chains below are run with this instance. *)

Module ShapeModel.

(** the SVD cutoff is not read by a computation on shapes *)
Definition Float : Type := Z * Z.

(** [1e-10], as mantissa and decimal exponent *)
Definition default_cutoff : Float := (1%Z, (-10)%Z).

Definition split_factors (s : list ascii) : result (list ascii * list ascii) :=
  match split_on "," s with
  | [l; r] => Ok (l, r)
  | _ => Raise RuntimeError
  end.

(** Modelled from the spec: [utils.svd_flex], which is not part of the
    sources at hand, splits a tensor in two factors that share one new
    axis [u], "padding to a fixed retained rank so all split cores stack
    into one regular tensor"; on shapes the new axis has the size [max_D]
    and the retained rank that is returned is at most [max_D]; here it is
    [max_D], no singular value being discarded. *)
Definition svd_flex (tensor : Tensor) (svd_string : string) (max_D : nat)
  (cutoff : Float) : result (Tensor * Tensor * Z) :=
  match split_arrow (chars svd_string) with
  | None => Raise RuntimeError
  | Some (ins, outs) =>
      e <- operand_env ins (shape tensor) [] ;;
      '(l, r) <- split_factors outs ;;
      let e := ("u"%char, max_D) :: e in
      left_shape <- output_shape l e ;;
      right_shape <- output_shape r e ;;
      Ok (mkTensor left_shape, mkTensor right_shape, Z.of_nat max_D)
  end.

(** Modelled from the spec: the contractable kinds of section 4.1, which
    are not part of the sources at hand.  A single matrix has the axes
    [blr], a matrix region [bslr], an output tensor [olr] or [bolr], a
    boundary vector its one bond axis. *)
Definition SingleMat (mat : Tensor) : result Contractable :=
  if ndim mat =? 3 then Ok (mkContractable mat "blr") else Raise ValueError.

Definition MatRegion (mats : Tensor) : result Contractable :=
  if ndim mats =? 4 then Ok (mkContractable mats "bslr") else Raise ValueError.

Definition OutputCore (tensor : Tensor) : result Contractable :=
  if ndim tensor =? 3 then Ok (mkContractable tensor "olr")
  else if ndim tensor =? 4 then Ok (mkContractable tensor "bolr")
  else Raise ValueError.

Definition EdgeVec (vec : Tensor) (is_left_vec : bool) : result Contractable :=
  if ndim vec =? 1
  then Ok (mkContractable vec (if is_left_vec then "r" else "l"))
  else Raise ValueError.

Definition has (c : ascii) (s : list ascii) : bool := existsb (Ascii.eqb c) s.

Definition rename (from to : ascii) (s : list ascii) : list ascii :=
  map (fun c => if Ascii.eqb c from then to else c) s.

(** a matrix region is multiplied out to one matrix: its matrices are
    square unless there is one matrix only *)
Definition atomic (c : Contractable) : result Contractable :=
  if String.eqb (c_bond_str c) "bslr" then
    match shape (c_tensor c) with
    | [b; s; l; r] =>
        if (l =? r) || (s =? 1) then Ok (mkContractable (mkTensor [b; l; r]) "blr")
        else Raise RuntimeError
    | _ => Raise RuntimeError
    end
  else Ok c.

(** Modelled from the spec: [multiply(A, B)] "contracts the matching bond
    label between adjacent contractables", the right bond of [A] with the
    left bond of [B], and fails on a shape mismatch. *)
Definition multiply (A B : Contractable) : result Contractable :=
  A <- atomic A ;;
  B <- atomic B ;;
  let sa := chars (c_bond_str A) in
  let sb := chars (c_bond_str B) in
  if has "r" sa && has "l" sb then
    let out :=
      filter (fun c => has c sa || has c sb)
             (chars "bo")
      ++ (if has "l" sa then chars "l" else [])
      ++ (if has "r" sb then chars "r" else []) in
    let eq := rename "r" "u" sa ++ chars "," ++ rename "l" "u" sb
              ++ chars "->" ++ out in
    t <- einsum (string_of_list_ascii eq) [c_tensor A; c_tensor B] ;;
    Ok (mkContractable t (string_of_list_ascii out))
  else Raise RuntimeError.

Fixpoint multiply_all (acc : Contractable) (l : list Contractable)
  : result Contractable :=
  match l with
  | [] => Ok acc
  | c :: l' => acc' <- multiply acc c ;; multiply_all acc' l'
  end.

(** Modelled from the spec: [reduce(list, parallel)] multiplies the list
    out; the two orders agree, so that on shapes the fold from the left
    stands for both. *)
Definition reduce (l : list Contractable) (parallel_eval : bool)
  : result Contractable :=
  match l with
  | [] => Raise IndexError
  | c :: l' => c <- atomic c ;; multiply_all c l'
  end.

Definition MergedLinearRegion : Type := MergedLinearRegion Float.

Definition forward := forward svd_flex SingleMat MatRegion OutputCore EdgeVec reduce.

Definition cycle : MergedLinearRegion -> _ := cycle svd_flex.

Definition count_and_contract : MergedLinearRegion -> _ :=
  count_and_contract SingleMat MatRegion OutputCore EdgeVec reduce.

Definition new_MergedLinearRegion :=
  @new_MergedLinearRegion Float.

Definition new_MPS :=
  @new_MPS Float.

Definition MPS_forward :=
  MPS_forward svd_flex SingleMat MatRegion OutputCore EdgeVec reduce.

Definition run := run svd_flex SingleMat MatRegion OutputCore EdgeVec reduce.

Definition adaptive_chain :=
  adaptive_chain svd_flex SingleMat MatRegion OutputCore EdgeVec reduce.

End ShapeModel.

(** ** The values of the rescaling step

    The step that rescales the cores at the end of [unmerge] works on the
    values of the tensors, which are floating-point numbers.  What the
    arithmetic makes of finite operands (a rounded value, an infinity on
    overflow, a zero on underflow) is left open: the finite values and the
    operations on them are parameters.  What is laid down is what IEEE 754
    fixes for the values that are not finite. *)

Module Rescale.

Section Arithmetic.

(** the finite values *)
Variable F : Type.

Inductive fval : Type :=
| Fin (x : F)
| PosInf
| NegInf
| NaN.

(** the value [0.], the norm of a tensor of zeros *)
Variable zero : F.

(** the sign of a finite value: [Lt] when it is negative, [Eq] when it is a
    zero, [Gt] when it is positive *)
Variable sign : F -> comparison.

(** the operations on finite operands *)
Variable neg_fin : F -> F.
Variables add_fin mul_fin : F -> F -> fval.
Variables log_fin exp_fin : F -> fval.
Variable div_fin : F -> nat -> fval.

(** [torch.norm] of a tensor, by its entries *)
Variable norm : list fval -> fval.

(** [torch.log] *)
Definition flog (v : fval) : fval :=
  match v with
  | Fin x => log_fin x
  | PosInf => PosInf
  | NegInf => NaN
  | NaN => NaN
  end.

(** [torch.exp] *)
Definition fexp (v : fval) : fval :=
  match v with
  | Fin x => exp_fin x
  | PosInf => PosInf
  | NegInf => Fin zero
  | NaN => NaN
  end.

Definition fneg (v : fval) : fval :=
  match v with
  | Fin x => Fin (neg_fin x)
  | PosInf => NegInf
  | NegInf => PosInf
  | NaN => NaN
  end.

Definition fadd (a b : fval) : fval :=
  match a, b with
  | NaN, _ | _, NaN => NaN
  | Fin x, Fin y => add_fin x y
  | PosInf, NegInf | NegInf, PosInf => NaN
  | PosInf, _ | _, PosInf => PosInf
  | NegInf, _ | _, NegInf => NegInf
  end.

Definition fsub (a b : fval) : fval := fadd a (fneg b).

(** the product of a finite value and an infinity of the sign [s] *)
Definition times_inf (x : F) (s : bool) : fval :=
  match sign x with
  | Gt => if s then PosInf else NegInf
  | Lt => if s then NegInf else PosInf
  | Eq => NaN
  end.

Definition fmul (a b : fval) : fval :=
  match a, b with
  | NaN, _ | _, NaN => NaN
  | Fin x, Fin y => mul_fin x y
  | Fin x, PosInf | PosInf, Fin x => times_inf x true
  | Fin x, NegInf | NegInf, Fin x => times_inf x false
  | PosInf, PosInf | NegInf, NegInf => PosInf
  | PosInf, NegInf | NegInf, PosInf => NegInf
  end.

(** the division of a sum by a positive count *)
Definition fdiv (a : fval) (n : nat) : fval :=
  match a with
  | Fin x => div_fin x n
  | _ => a
  end.

(** Python's [sum], from 0 on, left to right *)
Definition fsum (l : list fval) : fval := fold_left fadd l (Fin zero).

(** The cores of an unmerged list, by the values of their tensors: an input
    region is a stack of cores, an input site or an output site one core. *)
Inductive VCore : Type :=
| Stacked (cores : list (list fval))
| Single (entries : list fval).

Definition get_norm (c : VCore) : list fval :=
  match c with
  | Stacked cores => map norm cores
  | Single entries => [norm entries]
  end.

Definition scale_core (entries : list fval) (scale : fval) : list fval :=
  map (fun x => fmul x scale) entries.

Definition rescale_norm (c : VCore) (scale_list : list fval) : result VCore :=
  match c with
  | Stacked cores =>
      assert (length scale_list =? length cores) ;;
      Ok (Stacked (map (fun p => scale_core (fst p) (snd p))
                       (List.combine cores scale_list)))
  | Single entries =>
      assert (length scale_list =? 1) ;;
      Ok (Single (scale_core entries (hd NaN scale_list)))
  end.

Fixpoint rescale_all (cores : list (VCore * list fval)) : result (list VCore) :=
  match cores with
  | [] => Ok []
  | (core, these_scales) :: rest =>
      c <- rescale_norm core these_scales ;;
      cs <- rescale_all rest ;;
      Ok (c :: cs)
  end.

Definition log_norms (unmerged_list : list VCore) : list (list fval) :=
  map (fun core => map flog (get_norm core)) unmerged_list.

Definition norm_count (unmerged_list : list VCore) : nat :=
  sum_list (map (@length fval) (log_norms unmerged_list)).

Definition log_scale (unmerged_list : list VCore) : fval :=
  fdiv (fsum (map fsum (log_norms unmerged_list))) (norm_count unmerged_list).

(** the factor of a core of the norm [norm] *)
Definition factor (log_scale norm : fval) : fval :=
  fexp (fsub log_scale (flog norm)).

(** the end of [MergedLinearRegion.unmerge], from the norms on: dividing
    the sum 0 of no norm at all by their number 0 raises *)
Definition rescale (unmerged_list : list VCore) : result (list VCore) :=
  if norm_count unmerged_list =? 0 then Raise ZeroDivisionError
  else
    let scales :=
      map (map (fun n => fexp (fsub (log_scale unmerged_list) n)))
          (log_norms unmerged_list) in
    rescale_all (List.combine unmerged_list scales).

(** the norms of all the cores of a list *)
Definition norms (unmerged_list : list VCore) : list fval :=
  concat (map get_norm unmerged_list).

(** what the step makes of a core *)
Definition rescaled (ls : fval) (c : VCore) : VCore :=
  match c with
  | Stacked cores =>
      Stacked (map (fun core => scale_core core (factor ls (norm core))) cores)
  | Single entries => Single (scale_core entries (factor ls (norm entries)))
  end.

Definition entries_of (c : VCore) : list fval :=
  match c with
  | Stacked cores => concat cores
  | Single entries => entries
  end.

(** the values that a sum does not leave once it has met the logarithm of a
    norm 0 *)
Definition sunk (v : fval) : Prop := v = NegInf \/ v = NaN.

(** a core all of whose entries are 0 *)
Definition all_zero (c : VCore) : Prop :=
  Forall (fun x => x = Fin zero) (entries_of c).

(** what the specification says of an all-zero core: the step raises *)
Definition degenerate_raises_as_specified (unmerged_list : list VCore) : Prop :=
  Exists all_zero unmerged_list -> exists e, rescale unmerged_list = Raise e.

(** what the arithmetic fixes for the value [0.]: its logarithm is [-inf],
    and a tensor of zeros has the norm [0.] *)
Definition zero_laws : Prop :=
  log_fin zero = NegInf /\
  forall entries, Forall (fun x => x = Fin zero) entries ->
                  norm entries = Fin zero.

End Arithmetic.

Arguments PosInf {F}.
Arguments NegInf {F}.
Arguments NaN {F}.

(** An arithmetic to run the step in: the finite values as real numbers,
    without rounding or overflow.  On the values 0 it gives what
    floating-point arithmetic gives. *)
Module Ideal.

Definition sign (x : R) : comparison :=
  if Rlt_dec x 0%R then Lt else if Rlt_dec 0%R x then Gt else Eq.

Definition add_fin (x y : R) : fval R := Fin (x + y)%R.

Definition mul_fin (x y : R) : fval R := Fin (x * y)%R.

Definition log_fin (x : R) : fval R :=
  if Rlt_dec 0%R x then Fin (ln x)
  else if Req_dec_T x 0%R then NegInf else NaN.

Definition exp_fin (x : R) : fval R := Fin (exp x).

Definition div_fin (x : R) (n : nat) : fval R := Fin (x / INR n)%R.

Definition fsqrt (v : fval R) : fval R :=
  match v with
  | Fin r => if Rle_dec 0%R r then Fin (sqrt r) else NaN
  | PosInf => PosInf
  | NegInf => NaN
  | NaN => NaN
  end.

(** the square root of the sum of the squares *)
Definition norm (entries : list (fval R)) : fval R :=
  fsqrt (fsum 0%R add_fin
              (map (fun x => fmul sign mul_fin x x) entries)).

Definition rescale : list (VCore R) -> result (list (VCore R)) :=
  rescale 0%R sign Ropp add_fin mul_fin log_fin exp_fin div_fin norm.

Definition log_scale : list (VCore R) -> fval R :=
  log_scale 0%R add_fin log_fin div_fin norm.

Definition factor : fval R -> fval R -> fval R :=
  factor 0%R Ropp add_fin log_fin exp_fin.

Definition rescaled : fval R -> VCore R -> VCore R :=
  rescaled 0%R sign Ropp add_fin mul_fin log_fin exp_fin norm.

Definition norm_count : list (VCore R) -> nat := norm_count log_fin norm.

Definition norms : list (VCore R) -> list (fval R) := norms norm.

Definition all_zero : VCore R -> Prop := all_zero 0%R.

Definition degenerate_raises_as_specified : list (VCore R) -> Prop :=
  degenerate_raises_as_specified 0%R sign Ropp add_fin mul_fin log_fin
                                 exp_fin div_fin norm.

End Ideal.

End Rescale.

(** ** Auxiliary notions for the proofs *)

(** what is left of a merging pass when the window has moved on *)
Definition merge_scan_tail (offset : nat) (rest : list Module) (site_num : nat)
  : result (list Module) :=
  match rest with
  | [last] => Ok [last]
  | _ => merge_scan offset rest site_num
  end.

Definition unmerge_scan_tail (rest : list Module) : result (list Module) :=
  match rest with
  | [last] => Ok [last]
  | _ => unmerge_scan rest
  end.

(** a chain in which every input region has a site *)
Definition region_has_sites (m : Module) : bool :=
  match m with
  | Some (InputRegion t) =>
      match shape t with
      | n :: _ => 0 <? n
      | [] => false
      end
  | _ => true
  end.

(** a label of an axis that is no bond letter and no sign of an equation *)
Definition plain_label (c : ascii) : bool :=
  negb (in_lin_bonds c) && negb (Ascii.eqb c "-") && negb (Ascii.eqb c ",").

(** the two bond letters, in one order or the other *)
Definition bond_pair (x y : ascii) : Prop :=
  (x = "l"%char /\ y = "r"%char) \/ (x = "r"%char /\ y = "l"%char).

(** a periodic chain over four sites, as [MPS.__init__] lines it up *)
Definition ring_modules : list Module :=
  [Some (InputRegion (mkTensor [2; 3; 3; 2]));
   Some (OutputSite (mkTensor [10; 3; 3]));
   Some (InputRegion (mkTensor [2; 3; 3; 2]))].

(** a result that is not the exhaustion of the fuel of a loop *)
Definition fueled {A : Type} (r : result A) : Prop := r <> Raise OutOfFuel.

(** ** The statements of the specification that are compared with the code *)

(** a merged core is a merged-input core or a merged input+output core *)
Definition is_merged (m : Module) : bool :=
  is_MergedInput m || is_MergedOutput m.

Definition has_merged_core (chain : list Module) : bool :=
  existsb is_merged chain.

(** the length invariant as the specification words it: the core count is at
    least the site count, with equality iff no merged core is present *)
Definition length_invariant_as_specified (chain : list Module) : Prop :=
  forall c n, chain_core_len chain = Ok c -> chain_len chain = Ok n ->
    n <= c /\ (c = n <-> has_merged_core chain = false).

(** the cores that carry the output axis *)
Definition bears_output (m : Module) : bool :=
  is_OutputSite m || is_MergedOutput m.

Definition count_outputs (chain : list Module) : nat :=
  length (filter bears_output chain).

(** a chain all of whose entries are cores, the stacked ones with a site
    axis *)
Definition stacked_ok (m : Module) : bool :=
  match m with
  | Some (InputRegion t) | Some (MergedInput t) => negb (ndim t =? 0)
  | Some _ => true
  | None => false
  end.



(** the two rules that [combine] has *)
Definition combine_rule (left_core right_core : Module) (merging : bool) : bool :=
  (merging && ((is_OutputSite left_core && is_InputSite right_core)
               || (is_InputSite left_core && is_OutputSite right_core)))
  || (negb merging && ((is_InputRegion left_core && is_InputSite right_core)
                       || (is_InputSite left_core && is_InputRegion right_core))).

(** a merged-input tensor whose two feature axes differ in size and that the
    constructor takes *)
Definition unequal_features_accepted (t : Tensor) : Prop :=
  nth 3 (shape t) 0 <> nth 4 (shape t) 0 /\ exists c, new_MergedInput t = Ok c.

(** what the specification says of [embed_input] on an input with three
    axes: it is returned as it is when it has the shape [batch, input_dim,
    feature_dim], and a value error is raised when its third axis has not the
    size [feature_dim] *)
Definition pre_embedded_as_specified {Float : Type} (self : MPS Float)
  (x : Tensor) : Prop :=
  ((exists b, shape x = [b; input_dim self; feature_dim self]) ->
   embed_input self x = Ok x)
  /\ (ndim x = 3 -> size x 2 <> Ok (feature_dim self) ->
      embed_input self x = Raise ValueError).

(** ** Concrete chains *)

(** a model over three sites, with the default label site 1, that does not
    adapt *)
Definition plain_mps : MPS ShapeModel.Float :=
  mkMPS (Plain ShapeModel.Float
           (mkLR [Some (InputRegion (mkTensor [1; 3; 3; 2]));
                  Some (OutputSite (mkTensor [10; 3; 3]));
                  Some (InputRegion (mkTensor [2; 3; 3; 2]))] false false))
        3 10 3 2 None None [1; 3; 3; 3; 1]%Z
        [SvUnset; SvUnset; SvUnset; SvUnset; SvUnset].

(** the two merged lists of a chain over five sites, with the label site 2 *)
Definition merged_0 : list Module :=
  [Some (MergedInput (mkTensor [1; 3; 3; 2; 2]));
   Some (MergedOutput (mkTensor [10; 3; 3; 2]) true);
   Some (MergedInput (mkTensor [1; 3; 3; 2; 2]))].

Definition merged_1 : list Module :=
  [Some (InputSite (mkTensor [3; 3; 2]));
   Some (MergedOutput (mkTensor [10; 3; 3; 2]) false);
   Some (MergedInput (mkTensor [1; 3; 3; 2; 2]));
   Some (InputSite (mkTensor [3; 3; 2]))].

(** the adaptive chain over five sites with the merge threshold 0: every
    forward call runs a structural cycle *)
Definition eager_chain : ShapeModel.MergedLinearRegion :=
  mkMLR (Alias 0) (Some merged_0) (Some merged_1) false false 0 0%Z 0%Z
        ShapeModel.default_cutoff.

Definition eager_mps : MPS ShapeModel.Float :=
  mkMPS (Adaptive eager_chain) 5 10 3 2 None None [1; 3; 3; 3; 3; 3; 1]%Z
        [SvUnset; SvUnset; SvUnset; SvUnset; SvUnset; SvUnset; SvUnset].

(** the adaptive chain over five sites with the merge threshold 10, as it is
    built *)
Definition fresh_chain : ShapeModel.MergedLinearRegion :=
  mkMLR (Alias 0) (Some merged_0) (Some merged_1) false false 0 0%Z 10%Z
        ShapeModel.default_cutoff.

(** an embedded batch of four inputs over five sites *)
Definition batch_of_4 : Tensor := mkTensor [4; 5; 2].

(** the threshold firing as the specification words it: of three calls with
    batches of four, exactly one finds the threshold hit, and it leaves the
    input counter at 2 *)
Definition threshold_firing_as_specified (self : ShapeModel.MergedLinearRegion)
  : Prop :=
  filter fst (ShapeModel.run self [batch_of_4; batch_of_4; batch_of_4])
  = [(true, 2%Z)].

(** the chain [eager_chain] after a first forward call, which has run a
    structural cycle *)
Definition cycled_chain : ShapeModel.MergedLinearRegion :=
  fst (ShapeModel.forward eager_chain batch_of_4).


(** ** Notions for the further properties of the code *)

(** the cores that [InputRegion.merge] makes of a region whose cores have
    square matrices of the size [D] and the feature size [f]: a single-input
    core, and a merged-input core of [k] pairs *)
Definition site_core (D f : nat) : Module := Some (InputSite (mkTensor [D; D; f])).

Definition pair_core (k D f : nat) : Module :=
  Some (MergedInput (mkTensor [k; D; D; f; f])).

(** the list that [InputRegion.merge] returns for such a region of [n] sites:
    the pairs start at the site [offset], and the sites left over at the ends
    stay single *)
Definition merge_layout (n D f offset : nat) : list Module :=
  if offset =? 0 then
    if n mod 2 =? 0 then [pair_core (n / 2) D f]
    else if n =? 1 then [site_core D f]
    else [pair_core (n / 2) D f; site_core D f]
  else
    if n mod 2 =? 1 then
      if n =? 1 then [site_core D f]
      else [site_core D f; pair_core (n / 2) D f]
    else if n =? 2 then [site_core D f; site_core D f]
    else [site_core D f; pair_core (n / 2 - 1) D f; site_core D f].

(** a list that is made of another by fusing pairs of neighbours with
    [combine], the other entries being kept where they are *)
Inductive fused (merging : bool) : list Module -> list Module -> Prop :=
| fused_nil : fused merging [] []
| fused_keep (m : Module) (l l' : list Module) :
    fused merging l l' -> fused merging (m :: l) (m :: l')
| fused_pair (left_core right_core : Module) (c : Core) (l l' : list Module) :
    combine left_core right_core merging = Ok (Some c) ->
    fused merging l l' ->
    fused merging (left_core :: right_core :: l) (Some c :: l').

(** the cores that carry no output axis and are no input region, and the
    [None] of a region without sites *)
Definition merged_input_kind (m : Module) : bool :=
  match m with
  | None | Some (InputSite _) | Some (MergedInput _) => true
  | _ => false
  end.

(** an entry of a merged list: a core that is no input region *)
Definition merged_kind (m : Module) : bool :=
  match m with
  | None | Some (InputRegion _) => false
  | Some _ => true
  end.

(** the lists that the pass loop of [merge] leaves empty: a list of at most
    one core, and, at the offset 0, a list of an output site and a
    single-input core, which the first pass fuses into one core *)
Definition fuses_to_one (offset : nat) (merged_list : list Module) : bool :=
  match merged_list with
  | [] | [_] => true
  | [left_core; right_core] =>
      (offset =? 0) && combine_rule left_core right_core true
  | _ => false
  end.

(** an entry of the list of singular values is unset only where the entry of
    the list of bond dimensions is the sentinel -1 *)
Definition aligned (bond_dim : Z) (sv : SvEntry) : Prop :=
  sv = SvUnset -> bond_dim = (-1)%Z.

(** [self.feature_map = feature_map] *)
Definition set_feature_map {Float : Type} (self : MPS Float)
  (feature_map : option (Tensor -> result Tensor)) : MPS Float :=
  mkMPS (linear_region self) (input_dim self) (output_dim self) (bond_dim self)
        (feature_dim self) (path self) feature_map (bond_list self)
        (sv_list self).

(** [MPS.register_feature_map]: the map is tried on a scalar, and kept when
    what it returns has the one axis of the size [feature_dim]; [None]
    brings the linear embedding back *)
Definition register_feature_map {Float : Type} (self : MPS Float)
  (feature_map : option (Tensor -> result Tensor)) : result (MPS Float) :=
  match feature_map with
  | Some f_map =>
      out <- f_map (mkTensor []) ;;
      if negb (list_eqb (shape out) [feature_dim self]) then Raise ValueError
      else Ok (set_feature_map self feature_map)
  | None => Ok (set_feature_map self None)
  end.

(** [MPS.core_len] and [MPS.__len__] *)
Definition MPS_core_len {Float : Type} (self : MPS Float) : result nat :=
  region_core_len (linear_region self).

Definition MPS_len {Float : Type} (self : MPS Float) : nat := input_dim self.

Section Models.

Variable Float : Type.
Variable svd_flex :
  Tensor -> string -> nat -> Float -> result (Tensor * Tensor * Z).
Variables SingleMat MatRegion OutputCore : Tensor -> result Contractable.
Variable EdgeVec : Tensor -> bool -> result Contractable.
Variable reduce : list Contractable -> bool -> result Contractable.

(** the states of a model: the model that [MPS.__init__] builds, and the
    model after a forward call, whether the call returned or raised, and
    after the registration of a feature map *)
Inductive model_state : MPS Float -> Prop :=
| model_built (input_dim output_dim bond_dim feature_dim : nat)
    (adaptive_mode periodic_bc parallel_eval : bool) (label_site : option Z)
    (path : option (list Z)) (cutoff : Float) (merge_threshold : Z)
    (self : MPS Float) :
    new_MPS input_dim output_dim bond_dim feature_dim adaptive_mode periodic_bc
            parallel_eval label_site path cutoff merge_threshold = Ok self ->
    model_state self
| model_used (self : MPS Float) (input_data : Tensor) :
    model_state self ->
    model_state
      (fst (MPS_forward svd_flex SingleMat MatRegion OutputCore EdgeVec reduce
                        self input_data))
| model_registered (self self' : MPS Float)
    (feature_map : option (Tensor -> result Tensor)) :
    model_state self ->
    register_feature_map self feature_map = Ok self' ->
    model_state self'.

End Models.

(** an index that [input_data[:, i]] accepts for an axis of the size [m] *)
Definition in_range (m : nat) (i : Z) : bool :=
  ((- Z.of_nat m <=? i) && (i <? Z.of_nat m))%Z.

(** the path that [MPS.__init__] takes: no path, an empty one, or one entry
    for each input site *)
Definition path_ok (input_dim : nat) (path : option (list Z)) : bool :=
  match path with
  | Some ((_ :: _) as p) => length p =? input_dim
  | _ => true
  end.

(** the label site that [MPS.__init__] works with *)
Definition label_of (input_dim : nat) (label_site : option Z) : Z :=
  match label_site with
  | Some l => l
  | None => Z.of_nat (input_dim / 2)
  end.

(** * Properties *)

Unset Implicit Arguments.

(** ** The model on small inputs *)

Example einsum_merge_even_odd :
  einsum "slui,surj->slrij" [mkTensor [3; 4; 5; 2]; mkTensor [3; 5; 4; 2]]
  = Ok (mkTensor [3; 4; 4; 2; 2]).
Proof. reflexivity. Qed.

Example einsum_trace_unequal :
  einsum "boll->bo" [mkTensor [7; 10; 3; 4]] = Raise RuntimeError.
Proof. reflexivity. Qed.

Example einsum_trace_equal :
  einsum "boll->bo" [mkTensor [7; 10; 3; 3]] = Ok (mkTensor [7; 10]).
Proof. reflexivity. Qed.

Example merge_five_sites_offset_1 :
  InputRegion_merge (mkTensor [5; 3; 3; 2]) 1
  = Ok [Some (InputSite (mkTensor [3; 3; 2]));
        Some (MergedInput (mkTensor [2; 3; 3; 2; 2]))].
Proof. reflexivity. Qed.

Example merge_one_site_offset_0 :
  InputRegion_merge (mkTensor [1; 3; 3; 2]) 0
  = Ok [Some (InputSite (mkTensor [3; 3; 2]))].
Proof. reflexivity. Qed.

Example merge_two_sites_offset_1 :
  InputRegion_merge (mkTensor [2; 3; 3; 2]) 1
  = Ok [Some (InputSite (mkTensor [3; 3; 2]));
        Some (InputSite (mkTensor [3; 3; 2]))].
Proof. reflexivity. Qed.

Example combine_output_input :
  combine (Some (OutputSite (mkTensor [10; 3; 4])))
          (Some (InputSite (mkTensor [4; 5; 2]))) true
  = Ok (Some (MergedOutput (mkTensor [10; 3; 5; 2]) true)).
Proof. reflexivity. Qed.

Example combine_input_input_merging :
  combine (Some (InputSite (mkTensor [3; 3; 2])))
          (Some (InputSite (mkTensor [3; 3; 2]))) true
  = Ok None.
Proof. reflexivity. Qed.

Example trace_ein_str_bolr : trace_ein_str "bolr" = "boll->bo"%string.
Proof. reflexivity. Qed.

(** ** The monad of results *)

Lemma bind_Ok {A B : Type} (m : result A) (k : A -> result B) (b : B) :
  bind m k = Ok b -> exists a, m = Ok a /\ k a = Ok b.
Proof.
  destruct m as [a|e]; simpl; intros H; [eauto | discriminate].
Qed.

Lemma mapM_length {A B : Type} (f : A -> result B) (l : list A) (l' : list B) :
  mapM f l = Ok l' -> length l' = length l.
Proof.
  revert l'; induction l as [|x l IH]; simpl; intros l' H.
  - inversion H; reflexivity.
  - apply bind_Ok in H as (y & _ & H).
    apply bind_Ok in H as (ys & Hys & H).
    inversion H; subst; simpl. now rewrite (IH ys).
Qed.

Ltac inv_bind H :=
  repeat match type of H with
         | bind _ _ = Ok _ =>
             let x := fresh "x" in
             let Hx := fresh "Hx" in
             apply bind_Ok in H as (x & Hx & H)
         | (if ?b then _ else Raise _) = Ok _ =>
             let Hb := fresh "Hb" in
             destruct b eqn:Hb; [| discriminate H]
         end.

(** ** Lengths of a chain *)

Lemma core_len_len (c : Core) (a b : nat) :
  core_len c = Ok a -> len c = Ok b ->
  a = b + (if bears_output (Some c) then 1 else 0).
Proof.
  destruct c; simpl; intros Ha Hb.
  all: try (rewrite Ha in Hb; inversion Hb; lia).
  all: inversion Ha; inversion Hb; reflexivity.
Qed.

Lemma chain_lengths (chain : list Module) (c n : nat) :
  chain_core_len chain = Ok c -> chain_len chain = Ok n ->
  c = n + count_outputs chain.
Proof.
  unfold chain_core_len, chain_len, count_outputs.
  revert c n; induction chain as [|m chain IH]; simpl; intros c n Hc Hn.
  - inversion Hc; inversion Hn; reflexivity.
  - destruct (mod_core_len m) as [a|] eqn:Ea; simpl in Hc; [| discriminate].
    destruct (mapM mod_core_len chain) as [lc|] eqn:Elc; simpl in Hc; [| discriminate].
    destruct (mod_len m) as [b|] eqn:Eb; simpl in Hn; [| discriminate].
    destruct (mapM mod_len chain) as [ln|] eqn:Eln; simpl in Hn; [| discriminate].
    inversion Hc; inversion Hn; subst; clear Hc Hn. simpl.
    specialize (IH _ _ eq_refl eq_refl).
    destruct m as [core|]; [| discriminate].
    pose proof (core_len_len core _ _ Ea Eb) as Hm.
    destruct (bears_output (Some core)); simpl; lia.
Qed.

Lemma chain_lengths_defined (chain : list Module) :
  forallb stacked_ok chain = true ->
  exists c n, chain_core_len chain = Ok c /\ chain_len chain = Ok n.
Proof.
  unfold chain_core_len, chain_len.
  induction chain as [|m chain IH]; simpl; intros H.
  - eauto.
  - apply andb_true_iff in H as [Hm H].
    destruct (IH H) as (c & n & Hc & Hn).
    destruct (mapM mod_core_len chain) as [lc|] eqn:Elc; [| discriminate].
    destruct (mapM mod_len chain) as [ln|] eqn:Eln; [| discriminate].
    assert (Hone : exists a b, mod_core_len m = Ok a /\ mod_len m = Ok b).
    { destruct m as [[t|t|t|t|t lo]|]; simpl in *; try discriminate; eauto.
      all: unfold size, ndim in *; destruct (shape t); simpl in *;
        try discriminate; eauto. }
    destruct Hone as (a & b & Ha & Hb). rewrite Ha, Hb. simpl. eauto.
Qed.

(** C4, as the specification words it, fails on the chain that holds one
    output core: it has no merged core, one core and no site. *)
Lemma length_invariant_counterexample :
  ~ length_invariant_as_specified [Some (OutputSite (mkTensor [10; 3; 3]))].
Proof.
  intros H.
  destruct (H 1 0 eq_refl eq_refl) as [_ [_ Heq]].
  specialize (Heq eq_refl). discriminate Heq.
Qed.

(** C4 (amended): for every chain of cores, the core count is the site count
    plus the number of cores that carry the output axis (output cores and
    merged input+output cores); so the core count is at least the site
    count, with equality iff the chain has no such core. *)
Theorem length_invariant (chain : list Module) :
  forallb stacked_ok chain = true ->
  exists c n,
    chain_core_len chain = Ok c /\ chain_len chain = Ok n /\
    c = n + count_outputs chain /\ n <= c /\
    (c = n <-> count_outputs chain = 0).
Proof.
  intros H.
  destruct (chain_lengths_defined chain H) as (c & n & Hc & Hn).
  pose proof (chain_lengths chain _ _ Hc Hn) as Heq.
  exists c, n. repeat split; auto; lia.
Qed.

Lemma length_invariant_witness :
  let chain := [Some (MergedInput (mkTensor [1; 3; 3; 2; 2]));
                Some (MergedOutput (mkTensor [10; 3; 3; 2]) true);
                Some (InputRegion (mkTensor [2; 3; 3; 2]))] in
  forallb stacked_ok chain = true /\
  exists c n,
    chain_core_len chain = Ok c /\ chain_len chain = Ok n /\
    c = n + count_outputs chain /\ n <= c /\
    (c = n <-> count_outputs chain = 0).
Proof.
  split; [reflexivity | apply length_invariant; reflexivity].
Defined.

(** C5, as the specification words it, fails: no tensor whose two feature
    axes differ in size is taken by the constructor. *)
Lemma unequal_features_counterexample :
  ~ exists t, unequal_features_accepted t.
Proof.
  intros (t & Hne & c & Hc). unfold new_MergedInput in Hc.
  destruct (length (shape t) =? 5); [| discriminate].
  destruct (nth 1 (shape t) 0 =? nth 2 (shape t) 0); [| discriminate].
  destruct (nth 3 (shape t) 0 =? nth 4 (shape t) 0) eqn:E; [| discriminate].
  apply Nat.eqb_eq in E. contradiction.
Qed.

(** C5 (amended): the merged-input constructor takes a tensor exactly when
    it has the five axes site, left, right, feature i, feature j, with the
    left and right bond axes of one size and the two feature axes of one
    size. *)
Theorem MergedInput_accepts (t : Tensor) (c : Core) :
  new_MergedInput t = Ok c <->
  c = MergedInput t /\ length (shape t) = 5 /\
  nth 1 (shape t) 0 = nth 2 (shape t) 0 /\
  nth 3 (shape t) 0 = nth 4 (shape t) 0.
Proof.
  unfold new_MergedInput. split.
  - intros H.
    destruct (length (shape t) =? 5) eqn:E5; [| discriminate].
    destruct (nth 1 (shape t) 0 =? nth 2 (shape t) 0) eqn:E12; [| discriminate].
    destruct (nth 3 (shape t) 0 =? nth 4 (shape t) 0) eqn:E34; [| discriminate].
    apply Nat.eqb_eq in E5, E12, E34. inversion H. auto.
  - intros (-> & H5 & H12 & H34).
    apply Nat.eqb_eq in H5, H12, H34. now rewrite H5, H12, H34.
Qed.



Example plain_mps_built :
  ShapeModel.new_MPS 3 10 3 2 false false false None None
                     ShapeModel.default_cutoff 2000%Z = Ok plain_mps.
Proof. reflexivity. Qed.

(** ** [MPS.embed_input] *)

(** C10, as the claim words it, fails on an input with three axes whose second
    axis has not the size [input_dim]: the assertion on the second axis fails
    before the third axis is looked at. *)
Lemma pre_embedded_counterexample :
  ~ pre_embedded_as_specified plain_mps (mkTensor [1; 4; 5]).
Proof.
  intros [_ H].
  assert (E : embed_input plain_mps (mkTensor [1; 4; 5]) = Raise ValueError).
  { apply H; [reflexivity | discriminate]. }
  discriminate E.
Qed.

(** C10 (amended): on an input with the three axes [b, n, f], [embed_input]
    returns the input as it is when [n] is [input_dim] and [f] is
    [feature_dim], raises a value error when [n] is [input_dim] and [f] is not
    [feature_dim], and fails on its assertion when [n] is not [input_dim]. *)
Theorem embed_input_three_axes (Float : Type) (self : MPS Float) (b n f : nat) :
  embed_input self (mkTensor [b; n; f]) =
  if n =? input_dim self then
    if f =? feature_dim self then Ok (mkTensor [b; n; f]) else Raise ValueError
  else Raise AssertionError.
Proof.
  unfold embed_input; simpl.
  destruct (n =? input_dim self); [| reflexivity].
  destruct (f =? feature_dim self); reflexivity.
Qed.

(** ** The bookkeeping lists of [MPS.forward] *)

Lemma list_set_length {A : Type} (i : nat) (v : A) (l : list A) :
  length (list_set i v l) = length l.
Proof.
  revert i; induction l as [|x l IH]; intros [|i]; simpl; auto.
Qed.

Lemma nth_error_list_set_eq {A : Type} (i : nat) (v : A) (l : list A) :
  i < length l -> nth_error (list_set i v l) i = Some v.
Proof.
  revert i; induction l as [|x l IH]; intros [|i]; simpl; intros H;
    try lia; auto.
  apply IH. lia.
Qed.

Lemma nth_error_list_set_ne {A : Type} (i j : nat) (v : A) (l : list A) :
  i <> j -> nth_error (list_set i v l) j = nth_error l j.
Proof.
  revert i j; induction l as [|x l IH]; intros [|i] [|j]; simpl; intros H;
    try congruence; auto.
Qed.

(** what a run of the loop from index [i] on leaves at index [j] *)
Lemma update_lists_spec (new_bonds : list Z) :
  forall (i : nat) (new_svs : list SvEntry) (D : nat) (bl : list Z)
         (sl : list SvEntry) bl' sl' r,
    update_lists i new_bonds new_svs D bl sl = (bl', sl', r) ->
    forall j,
      ((j < i \/ (i <= j /\ forall b, nth_error new_bonds (j - i) = Some b ->
                                       b = (-1)%Z)) ->
       nth_error bl' j = nth_error bl j /\ nth_error sl' j = nth_error sl j)
      /\ (r = Ok tt -> i <= j ->
          forall b, nth_error new_bonds (j - i) = Some b -> b <> (-1)%Z ->
                    nth_error bl' j = Some b /\
                    nth_error sl' j = nth_error new_svs j).
Proof.
  induction new_bonds as [|b new_bonds IH]; intros i new_svs D bl sl bl' sl' r H j.
  - simpl in H. inversion H; subst. split; [auto |].
    intros _ _ b Hb. destruct (j - i); discriminate Hb.
  - simpl in H.
    destruct (b =? -1)%Z eqn:Eb; simpl in H.
    + (* the sentinel: nothing is written at [i] *)
      apply Z.eqb_eq in Eb. subst b.
      specialize (IH _ _ _ _ _ _ _ _ H j) as [IHf IHu].
      split.
      * intros [Hlt | [Hle Hs]].
        -- apply IHf. left. lia.
        -- destruct (Nat.eq_dec j i) as [-> | Hne].
           ++ apply IHf. left. lia.
           ++ apply IHf. right. split; [lia |].
              intros b Hb. apply Hs.
              replace (j - i) with (S (j - S i)) by lia. exact Hb.
      * intros Hr Hle b Hb Hne.
        destruct (Nat.eq_dec j i) as [-> | Hji].
        -- rewrite Nat.sub_diag in Hb. simpl in Hb. congruence.
        -- apply IHu; auto; [lia |].
           replace (j - i) with (S (j - S i)) in Hb by lia. exact Hb.
    + (* a new bond dimension at [i] *)
      apply Z.eqb_neq in Eb.
      assert (Hframe :
                forall bl1 sl1,
                  (forall k, k <> i -> nth_error bl1 k = nth_error bl k /\
                                       nth_error sl1 k = nth_error sl k) ->
                  (j < i \/ (i <= j /\ forall b0, nth_error (b :: new_bonds) (j - i)
                                                   = Some b0 -> b0 = (-1)%Z)) ->
                  nth_error bl1 j = nth_error bl j /\
                  nth_error sl1 j = nth_error sl j).
      { intros bl1 sl1 Hk [Hlt | [Hle Hs]]; apply Hk; [lia |].
        intros ->. rewrite Nat.sub_diag in Hs.
        specialize (Hs b eq_refl). contradiction. }
      destruct (nth_error new_svs i) as [[|v]|] eqn:Ensv.
      * inversion H; subst. split; [apply Hframe; auto | discriminate].
      * destruct (i <? length bl) eqn:Eil; simpl in H.
        2:{ inversion H; subst. split; [apply Hframe; auto | discriminate]. }
        destruct (i <? length sl) eqn:Eis; simpl in H.
        2:{ inversion H; subst. split; [| discriminate].
            apply Hframe. intros k Hk.
            now rewrite nth_error_list_set_ne by auto. }
        destruct (fits_row v D) eqn:Efit; simpl in H.
        2:{ inversion H; subst. split; [| discriminate].
            apply Hframe. intros k Hk.
            now rewrite nth_error_list_set_ne by auto. }
        apply Nat.ltb_lt in Eil, Eis.
        specialize (IH _ _ _ _ _ _ _ _ H j) as [IHf IHu].
        split.
        -- intros Hj.
           assert (Hne : j <> i).
           { destruct Hj as [Hlt | [Hle Hs]]; [lia |].
             intros ->. rewrite Nat.sub_diag in Hs.
             specialize (Hs b eq_refl). contradiction. }
           assert (Hij : i <> j) by auto.
           rewrite <- (@nth_error_list_set_ne Z i j b bl Hij).
           rewrite <- (@nth_error_list_set_ne SvEntry i j (SvVec v) sl Hij).
           apply IHf.
           destruct Hj as [Hlt | [Hle Hs]]; [left; lia |].
           right. split; [lia |]. intros b0 Hb0. apply Hs.
           replace (j - i) with (S (j - S i)) by lia. exact Hb0.
        -- intros Hr Hle b0 Hb0 Hne0.
           destruct (Nat.eq_dec j i) as [-> | Hji].
           ++ rewrite Nat.sub_diag in Hb0. simpl in Hb0. inversion Hb0; subst b0.
              destruct IHf as [Hb1 Hs1]; [left; lia |].
              rewrite Hb1, Hs1.
              rewrite !nth_error_list_set_eq by auto. now rewrite Ensv.
           ++ apply IHu; auto; [lia |].
              replace (j - i) with (S (j - S i)) in Hb0 by lia. exact Hb0.
      * inversion H; subst. split; [apply Hframe; auto | discriminate].
Qed.

Example eager_mps_built :
  ShapeModel.new_MPS 5 10 3 2 true false false None None
                     ShapeModel.default_cutoff 0%Z = Ok eager_mps.
Proof. reflexivity. Qed.

Section ForwardFacts.

Variable Float : Type.
Variable svd_flex :
  Tensor -> string -> nat -> Float -> result (Tensor * Tensor * Z).
Variables SingleMat MatRegion OutputCore : Tensor -> result Contractable.
Variable EdgeVec : Tensor -> bool -> result Contractable.
Variable reduce : list Contractable -> bool -> result Contractable.

Local Abbreviation fwd :=
  (forward svd_flex SingleMat MatRegion OutputCore EdgeVec reduce).
Local Abbreviation MPS_fwd :=
  (MPS_forward svd_flex SingleMat MatRegion OutputCore EdgeVec reduce).

(** C9: when the adaptive chain returns its output with the lists
    [new_bonds] and [new_svs], the model keeps the entries of [bond_list]
    and of [sv_list] at every index where [new_bonds] holds the sentinel -1
    (and at every index beyond [new_bonds]), whether the call then returns
    or raises; when the call returns, the entries at the other indices are
    the returned ones. *)
Theorem sentinel_keeps_entries (self : MPS Float) (input_data x : Tensor)
  (r r' : MergedLinearRegion Float) (output : Tensor) (new_bonds : list Z)
  (new_svs : list SvEntry) (i : nat) :
  linear_region self = Adaptive r ->
  prepare_input self input_data = Ok x ->
  fwd r x = (r', Ok (OutTriple output new_bonds new_svs)) ->
  let self' := fst (MPS_fwd self input_data) in
  let res := snd (MPS_fwd self input_data) in
  ((forall b, nth_error new_bonds i = Some b -> b = (-1)%Z) ->
   nth_error (bond_list self') i = nth_error (bond_list self) i /\
   nth_error (sv_list self') i = nth_error (sv_list self) i)
  /\ (res = Ok output ->
      forall b, nth_error new_bonds i = Some b -> b <> (-1)%Z ->
                nth_error (bond_list self') i = Some b /\
                nth_error (sv_list self') i = nth_error new_svs i).
Proof.
  intros Hregion Hprep Hfwd. unfold MPS_forward.
  rewrite Hprep, Hregion, Hfwd. simpl.
  destruct (length new_bonds =? length (bond_list self)); simpl;
    [| split; [auto | discriminate]].
  destruct (length new_bonds =? length new_svs); simpl;
    [| split; [auto | discriminate]].
  destruct (update_lists 0 new_bonds new_svs (bond_dim self) (bond_list self)
                         (sv_list self)) as [[bl sl] ru] eqn:E.
  simpl.
  destruct (update_lists_spec _ _ _ _ _ _ _ _ _ E i) as [Hf Hu].
  rewrite Nat.sub_0_r in Hf, Hu.
  split.
  - intros Hs. apply Hf. right. split; [lia | exact Hs].
  - intros Hres b Hb Hne. apply Hu; auto; [| lia].
    destruct ru as [[]|]; [reflexivity | discriminate].
Qed.

End ForwardFacts.

Lemma sentinel_keeps_entries_witness :
  let self := eager_mps in
  let input_data := mkTensor [4; 5] in
  let new_bonds := [-1; 3; -1; 3; -1; 3; -1]%Z in
  let self' := fst (ShapeModel.MPS_forward self input_data) in
  let res := snd (ShapeModel.MPS_forward self input_data) in
  ((forall b, nth_error new_bonds 2 = Some b -> b = (-1)%Z) ->
   nth_error (bond_list self') 2 = nth_error (bond_list self) 2 /\
   nth_error (sv_list self') 2 = nth_error (sv_list self) 2)
  /\ (res = Ok (mkTensor [4; 10]) ->
      forall b, nth_error new_bonds 2 = Some b -> b <> (-1)%Z ->
                nth_error (bond_list self') 2 = Some b /\
                nth_error (sv_list self') 2
                = nth_error [SvUnset; SvVec (mkTensor [3]); SvUnset;
                             SvVec (mkTensor [3]); SvUnset;
                             SvVec (mkTensor [3]); SvUnset] 2).
Proof.
  cbv zeta.
  eapply (sentinel_keeps_entries ShapeModel.Float ShapeModel.svd_flex
            ShapeModel.SingleMat ShapeModel.MatRegion ShapeModel.OutputCore
            ShapeModel.EdgeVec ShapeModel.reduce eager_mps (mkTensor [4; 5])
            (mkTensor [4; 5; 2])).
  - reflexivity.
  - reflexivity.
  - vm_compute. reflexivity.
Defined.

(** ** The internal merge of an input region *)

Lemma Ok_inj {A : Type} (a b : A) : Ok a = Ok b -> a = b.
Proof. intros H; now inversion H. Qed.

Lemma broadcast_refl a : broadcast a a = Ok a.
Proof. unfold broadcast. now rewrite Nat.eqb_refl. Qed.

Lemma size_0_shape t n : size t 0 = Ok n <-> exists rest, shape t = n :: rest.
Proof.
  unfold size. destruct (shape t) as [|m rest]; simpl; split.
  - discriminate.
  - intros [r Hr]; discriminate.
  - intros H; inversion H; eauto.
  - intros [r Hr]; inversion Hr; reflexivity.
Qed.

Lemma einsum_merge_inv t1 t2 t :
  einsum "slui,surj->slrij" [t1; t2] = Ok t ->
  exists s l r i j,
    broadcast (hd 0 (shape t2)) (hd 0 (shape t1)) = Ok s /\
    shape t = [s; l; r; i; j].
Proof.
  destruct t1 as [sh1], t2 as [sh2]. unfold einsum. cbn.
  destruct sh1 as [|s1 [|l [|u1 [|i [|]]]]]; cbn; try discriminate.
  destruct sh2 as [|s2 [|u2 [|r [|j [|]]]]]; cbn; try discriminate.
  destruct (broadcast u2 u1) as [u|]; cbn; try discriminate.
  destruct (broadcast s2 s1) as [s|] eqn:Es; cbn; try discriminate.
  intros H. inversion H; subst; cbn.
  exists s, l, r, i, j. repeat split; auto.
Qed.

Lemma even_facts n : n mod 2 = 0 -> (n + 1) / 2 = n / 2 /\ 2 * (n / 2) = n.
Proof.
  intros H. pose proof (Nat.div_mod_eq n 2). pose proof (Nat.div_mod_eq (n + 1) 2).
  pose proof (Nat.mod_upper_bound (n + 1) 2). lia.
Qed.

Lemma slice_len_even0 n : n mod 2 = 0 -> slice_len n (Some 0%Z) None 2 = n / 2.
Proof.
  intros H. unfold slice_len, clamp_bound. cbn -[Nat.div Nat.modulo].
  destruct (even_facts n H) as [E _].
  replace (Z.to_nat (Z.min 0 (Z.of_nat n))) with 0 by lia.
  now rewrite Nat.sub_0_r.
Qed.

Lemma slice_len_even1 n :
  n mod 2 = 0 -> 0 < n -> slice_len n (Some 1%Z) None 2 = n / 2.
Proof.
  intros H Hpos. unfold slice_len, clamp_bound. cbn -[Nat.div Nat.modulo].
  replace (Z.to_nat (Z.min 1 (Z.of_nat n))) with 1 by lia.
  now replace (n - 1 + 1) with n by lia.
Qed.

Lemma slice_len_tail n : slice_len n (Some 1%Z) None 1 = n - 1.
Proof.
  unfold slice_len, clamp_bound. cbn -[Nat.div Nat.modulo].
  rewrite Nat.div_1_r. lia.
Qed.

Lemma slice_len_init n : slice_len n None (Some (-1)%Z) 1 = n - 1.
Proof.
  unfold slice_len, clamp_bound. cbn -[Nat.div Nat.modulo Z.add].
  rewrite Nat.div_1_r. lia.
Qed.

Lemma slice_len_mid n : slice_len n (Some 1%Z) (Some (-1)%Z) 1 = n - 2.
Proof.
  unfold slice_len, clamp_bound. cbn -[Nat.div Nat.modulo Z.add].
  rewrite Nat.div_1_r. lia.
Qed.

Lemma mod2_cases n : n mod 2 = 0 \/ n mod 2 = 1.
Proof. pose proof (Nat.mod_upper_bound n 2). lia. Qed.

(** the answer of the internal merge on an even number of sites, at offset 0 *)
Lemma InputRegion_merge_even fuel t n l :
  size t 0 = Ok n -> 0 < n -> n mod 2 = 0 ->
  InputRegion_merge_rec (S fuel) t 0 = Ok l ->
  exists t', l = [Some (MergedInput t')] /\ size t' 0 = Ok (n / 2).
Proof.
  intros Hsize Hpos Hpar H. cbn -[Nat.modulo Nat.div slice einsum] in H.
  rewrite Hsize in H. cbn -[Nat.modulo Nat.div slice einsum] in H.
  rewrite Hpar in H.
  destruct (n =? 0) eqn:En; [apply Nat.eqb_eq in En; lia |].
  cbn -[Nat.modulo Nat.div slice einsum] in H.
  apply size_0_shape in Hsize as [rest Hrest].
  unfold slice in H. rewrite Hrest in H. cbn -[Nat.modulo Nat.div einsum slice_len] in H.
  match type of H with context [assert ?b ;; _] => destruct b eqn:Eeq end;
    [| discriminate].
  destruct (einsum _ _) as [merged|] eqn:Eein; simpl in H; [| discriminate].
  apply einsum_merge_inv in Eein as (s & l' & r & i & j & Hb & Hm).
  cbn -[slice_len] in Hb.
  unfold new_MergedInput in H. rewrite Hm in H. cbn in H.
  destruct (l' =? r); cbn in H; [| discriminate].
  destruct (i =? j); cbn in H; [| discriminate].
  inversion H; subst. exists merged. split; [reflexivity |].
  apply size_0_shape. exists [l'; r; i; j]. rewrite Hm. f_equal.
  rewrite slice_len_even0, slice_len_even1, broadcast_refl in Hb by auto.
  now inversion Hb.
Qed.

Lemma chain_core_len_cons m l :
  chain_core_len (m :: l) =
  (a <- mod_core_len m ;; b <- chain_core_len l ;; Ok (a + b)).
Proof.
  unfold chain_core_len. simpl.
  destruct (mod_core_len m); simpl; [| reflexivity].
  destruct (mapM mod_core_len l); reflexivity.
Qed.

Lemma chain_core_len_app l1 l2 :
  chain_core_len (l1 ++ l2) =
  (a <- chain_core_len l1 ;; b <- chain_core_len l2 ;; Ok (a + b)).
Proof.
  induction l1 as [|m l1 IH]; simpl.
  - change (chain_core_len []) with (Ok (A:=nat) 0). simpl.
    destruct (chain_core_len l2); reflexivity.
  - rewrite !chain_core_len_cons, IH.
    destruct (mod_core_len m); simpl; [| reflexivity].
    destruct (chain_core_len l1); simpl; [| reflexivity].
    destruct (chain_core_len l2); simpl; [| reflexivity].
    f_equal. lia.
Qed.

Lemma InputRegion_merge_empty fuel t :
  size t 0 = Ok 0 -> InputRegion_merge_rec (S fuel) t 0 = Ok [None].
Proof.
  intros H. cbn -[Nat.modulo Nat.div slice einsum]. now rewrite H.
Qed.

(** the recursive call, on an even number of sites that may be 0 *)
Lemma InputRegion_merge_inner fuel t m inner :
  size t 0 = Ok m -> m mod 2 = 0 ->
  InputRegion_merge_rec (S fuel) t 0 = Ok inner ->
  exists mid, head_item inner = Ok mid /\ chain_core_len (not_None [mid]) = Ok m.
Proof.
  intros Hsize Hpar H.
  destruct (Nat.eq_dec m 0) as [-> | Hm].
  - rewrite (InputRegion_merge_empty _ _ Hsize) in H. inversion H; subst.
    exists None. split; reflexivity.
  - destruct (InputRegion_merge_even fuel t m _ Hsize ltac:(lia) Hpar H)
      as (t' & -> & Ht').
    exists (Some (MergedInput t')). split; [reflexivity |].
    cbn -[Nat.div]. unfold chain_core_len. cbn -[Nat.div]. rewrite Ht'.
    cbn -[Nat.div]. f_equal. destruct (even_facts m Hpar). lia.
Qed.

Lemma getitem_first t n :
  size t 0 = Ok n -> 0 < n ->
  exists u, InputRegion_getitem t 0 = Ok (InputSite u).
Proof.
  intros Hs Hn. apply size_0_shape in Hs as [rest Hr].
  unfold InputRegion_getitem, select. rewrite Hr. cbn.
  unfold norm_index. cbn.
  destruct (0 <? Z.of_nat n)%Z eqn:E; [cbn; eauto | apply Z.ltb_ge in E; lia].
Qed.

Lemma getitem_last t n :
  size t 0 = Ok n -> 0 < n ->
  exists u, InputRegion_getitem t (-1) = Ok (InputSite u).
Proof.
  intros Hs Hn. apply size_0_shape in Hs as [rest Hr].
  unfold InputRegion_getitem, select. rewrite Hr. cbn -[Z.add].
  unfold norm_index. cbn -[Z.add].
  destruct ((0 <=? -1 + Z.of_nat n)%Z && (-1 + Z.of_nat n <? Z.of_nat n)%Z) eqn:E;
    [cbn; eauto |].
  apply andb_false_iff in E as [E | E];
    [apply Z.leb_gt in E | apply Z.ltb_ge in E]; lia.
Qed.

Lemma getslice_size t n start stop :
  size t 0 = Ok n ->
  exists u, InputRegion_getslice t start stop = Ok u /\
            size u 0 = Ok (slice_len n start stop 1).
Proof.
  intros Hs. apply size_0_shape in Hs as [rest Hr].
  unfold InputRegion_getslice, slice. rewrite Hr. cbn -[slice_len]. eauto.
Qed.

Lemma not_None_cons (m : Module) (l : list Module) :
  not_None (m :: l) = not_None [m] ++ not_None l.
Proof. destruct m; reflexivity. Qed.

Lemma InputRegion_merge_rec_core_len f t offset l n :
  (forall w m inner,
      size w 0 = Ok m -> m mod 2 = 0 ->
      InputRegion_merge_rec f w 0 = Ok inner ->
      exists mid, head_item inner = Ok mid /\
                  chain_core_len (not_None [mid]) = Ok m) ->
  InputRegion_merge_rec (S f) t offset = Ok l -> size t 0 = Ok n -> 0 < n ->
  chain_core_len l = Ok n.
Proof.
  intros Hinner H Hsize Hpos.
  destruct (n mod 2) as [|[|p]] eqn:Hpar;
    [| | pose proof (Nat.mod_upper_bound n 2); lia].
  - (* an even number of sites *)
    destruct offset as [|[|offset]]; [| | discriminate H].
    + destruct (InputRegion_merge_even f t n _ Hsize Hpos Hpar H) as (t' & -> & Ht').
      unfold chain_core_len. cbn -[Nat.div]. rewrite Ht'. cbn -[Nat.div].
      f_equal. destruct (even_facts n Hpar). lia.
    + cbn -[Nat.modulo Nat.div slice einsum InputRegion_getitem
             InputRegion_getslice not_None] in H.
      rewrite Hsize in H.
      cbn -[Nat.modulo Nat.div slice einsum InputRegion_getitem
             InputRegion_getslice not_None] in H.
      rewrite Hpar in H.
      destruct (n =? 0) eqn:En; [apply Nat.eqb_eq in En; lia |].
      cbn -[Nat.modulo Nat.div slice einsum InputRegion_getitem
             InputRegion_getslice not_None] in H.
      destruct (getitem_first t n Hsize Hpos) as [u Hu].
      destruct (getitem_last t n Hsize Hpos) as [v Hv].
      destruct (getslice_size t n (Some 1%Z) (Some (-1)%Z) Hsize) as (w & Hw & Hws).
      rewrite Hu, Hv, Hw in H.
      cbn -[Nat.modulo Nat.div slice einsum not_None] in H.
      destruct (InputRegion_merge_rec f w 0) as [inner|] eqn:Einner;
        [| discriminate H].
      rewrite slice_len_mid in Hws.
      assert (Hpar' : (n - 2) mod 2 = 0).
      { pose proof (Nat.div_mod_eq n 2). pose proof (Nat.div_mod_eq (n - 2) 2).
        pose proof (Nat.mod_upper_bound (n - 2) 2). lia. }
      destruct (Hinner w _ _ Hws Hpar' Einner) as (mid & Hmid & Hlen).
      cbn -[not_None] in H. rewrite Hmid in H. cbn -[not_None] in H.
      apply Ok_inj in H. subst l.
      rewrite (not_None_cons (Some (InputSite u))), (not_None_cons mid).
      change (not_None [Some (InputSite u)] ++ ?x) with (Some (InputSite u) :: x).
      rewrite chain_core_len_cons. cbn [mod_core_len core_len bind].
      rewrite chain_core_len_app, Hlen. cbn.
      f_equal.
      pose proof (Nat.div_mod_eq n 2). lia.
  - (* an odd number of sites *)
    destruct offset as [|[|offset]]; [| | discriminate H].
    + cbn -[Nat.modulo Nat.div slice einsum InputRegion_getitem
             InputRegion_getslice not_None] in H.
      rewrite Hsize in H.
      cbn -[Nat.modulo Nat.div slice einsum InputRegion_getitem
             InputRegion_getslice not_None] in H.
      rewrite Hpar in H.
      destruct (n =? 0) eqn:En; [apply Nat.eqb_eq in En; lia |].
      cbn -[Nat.modulo Nat.div slice einsum InputRegion_getitem
             InputRegion_getslice not_None] in H.
      destruct (getitem_last t n Hsize Hpos) as [v Hv].
      destruct (getslice_size t n None (Some (-1)%Z) Hsize) as (w & Hw & Hws).
      rewrite Hv, Hw in H.
      cbn -[Nat.modulo Nat.div slice einsum not_None] in H.
      destruct (InputRegion_merge_rec f w 0) as [inner|] eqn:Einner;
        [| discriminate H].
      rewrite slice_len_init in Hws.
      assert (Hpar' : (n - 1) mod 2 = 0).
      { pose proof (Nat.div_mod_eq n 2). pose proof (Nat.div_mod_eq (n - 1) 2).
        pose proof (Nat.mod_upper_bound (n - 1) 2). lia. }
      destruct (Hinner w _ _ Hws Hpar' Einner) as (mid & Hmid & Hlen).
      cbn -[not_None] in H. rewrite Hmid in H. cbn -[not_None] in H.
      apply Ok_inj in H. subst l.
      rewrite (not_None_cons mid).
      rewrite chain_core_len_app, Hlen. cbn. f_equal. lia.
    + cbn -[Nat.modulo Nat.div slice einsum InputRegion_getitem
             InputRegion_getslice not_None] in H.
      rewrite Hsize in H.
      cbn -[Nat.modulo Nat.div slice einsum InputRegion_getitem
             InputRegion_getslice not_None] in H.
      rewrite Hpar in H.
      destruct (n =? 0) eqn:En; [apply Nat.eqb_eq in En; lia |].
      cbn -[Nat.modulo Nat.div slice einsum InputRegion_getitem
             InputRegion_getslice not_None] in H.
      destruct (getitem_first t n Hsize Hpos) as [u Hu].
      destruct (getslice_size t n (Some 1%Z) None Hsize) as (w & Hw & Hws).
      rewrite Hu, Hw in H.
      cbn -[Nat.modulo Nat.div slice einsum not_None] in H.
      destruct (InputRegion_merge_rec f w 0) as [inner|] eqn:Einner;
        [| discriminate H].
      rewrite slice_len_tail in Hws.
      assert (Hpar' : (n - 1) mod 2 = 0).
      { pose proof (Nat.div_mod_eq n 2). pose proof (Nat.div_mod_eq (n - 1) 2).
        pose proof (Nat.mod_upper_bound (n - 1) 2). lia. }
      destruct (Hinner w _ _ Hws Hpar' Einner) as (mid & Hmid & Hlen).
      cbn -[not_None] in H. rewrite Hmid in H. cbn -[not_None] in H.
      apply Ok_inj in H. subst l.
      rewrite (not_None_cons (Some (InputSite u))).
      change (not_None [Some (InputSite u)] ++ ?x) with (Some (InputSite u) :: x).
      rewrite chain_core_len_cons. cbn [mod_core_len core_len bind].
      rewrite Hlen. cbn. f_equal. lia.
Qed.

Lemma InputRegion_merge_core_len t offset l n :
  InputRegion_merge t offset = Ok l -> size t 0 = Ok n -> 0 < n ->
  chain_core_len l = Ok n.
Proof.
  apply InputRegion_merge_rec_core_len.
  intros w m inner. apply InputRegion_merge_inner.
Qed.

(** under merging, [combine] fuses two cores that count for one each into a
    core that counts for two *)
Lemma combine_merging_core_len left_core right_core c :
  combine left_core right_core true = Ok (Some c) ->
  core_len c = Ok 2 /\ mod_core_len left_core = Ok 1 /\
  mod_core_len right_core = Ok 1.
Proof.
  unfold combine. cbn [andb negb].
  destruct left_core as [[tl|tl|tl|tl|tl lo]|];
    destruct right_core as [[tr|tr|tr|tr|tr ro]|]; cbn -[einsum];
    try (intros H; discriminate H).
  - destruct (einsum "lui,our->olri" [tl; tr]) as [t|]; cbn;
      [| intros H; discriminate H].
    unfold new_MergedOutput. destruct (length (shape t) =? 4); cbn;
      [| intros H; discriminate H].
    intros H. apply Ok_inj in H. inversion H; subst. auto.
  - destruct (einsum "olu,uri->olri" [tl; tr]) as [t|]; cbn;
      [| intros H; discriminate H].
    unfold new_MergedOutput. destruct (length (shape t) =? 4); cbn;
      [| intros H; discriminate H].
    intros H. apply Ok_inj in H. inversion H; subst. auto.
Qed.

Lemma merge_scan_eq offset left_core right_core after site_num :
  merge_scan offset (left_core :: right_core :: after) site_num =
  (new_core <- combine left_core right_core true ;;
   match new_core with
   | Some c =>
       if offset =? site_num mod 2 then
         n <- core_len c ;;
         nl <- mod_core_len left_core ;;
         nr <- mod_core_len right_core ;;
         assert (n =? nl + nr) ;;
         tail <- merge_scan_tail offset after (site_num + n) ;;
         Ok (Some c :: tail)
       else
         nl <- mod_core_len left_core ;;
         tail <- merge_scan_tail offset (right_core :: after) (site_num + nl) ;;
         Ok (left_core :: tail)
   | None =>
       nl <- mod_core_len left_core ;;
       tail <- merge_scan_tail offset (right_core :: after) (site_num + nl) ;;
       Ok (left_core :: tail)
   end).
Proof. reflexivity. Qed.

Lemma merge_scan_tail_spec offset (n : nat) :
  forall rest site_num out,
    length rest <= n ->
    merge_scan_tail offset rest site_num = Ok out ->
    length out <= length rest /\
    (rest <> [] -> out <> []) /\
    (forall c, chain_core_len rest = Ok c -> chain_core_len out = Ok c).
Proof.
  induction n as [|n IH]; intros rest site_num out Hlen H.
  - destruct rest; [| simpl in Hlen; lia].
    cbn in H. apply Ok_inj in H. subst out. repeat split; auto.
  - destruct rest as [|left_core [|right_core after]].
    + cbn in H. apply Ok_inj in H. subst out. repeat split; auto.
    + cbn in H. apply Ok_inj in H. subst out. repeat split; auto.
    + unfold merge_scan_tail in H. rewrite merge_scan_eq in H.
      destruct (combine left_core right_core true) as [[c|]|] eqn:Ecomb;
        cbn [bind] in H; [| | discriminate H].
      * (* a rule applies *)
        destruct (combine_merging_core_len _ _ _ Ecomb) as (Hc & Hl & Hr).
        destruct (offset =? site_num mod 2).
        -- rewrite Hc, Hl, Hr in H. cbn [bind Nat.eqb Nat.add] in H.
           destruct (merge_scan_tail offset after (site_num + 2)) as [tail|] eqn:Et;
             cbn [bind] in H; [| discriminate H].
           apply Ok_inj in H. subst out.
           destruct (IH after _ _ ltac:(simpl in Hlen; lia) Et) as (H1 & H2 & H3).
           repeat split.
           ++ simpl. lia.
           ++ discriminate.
           ++ intros c0 Hc0.
              rewrite !chain_core_len_cons, Hl, Hr in Hc0. cbn [bind] in Hc0.
              destruct (chain_core_len after) as [ca|] eqn:Eca;
                cbn [bind] in Hc0; [| discriminate Hc0].
              apply Ok_inj in Hc0. subst c0.
              rewrite chain_core_len_cons. cbn [mod_core_len]. rewrite Hc.
              cbn [bind]. rewrite (H3 _ eq_refl). cbn [bind]. f_equal; lia.
        -- rewrite Hl in H. cbn [bind] in H.
           destruct (merge_scan_tail offset (right_core :: after) (site_num + 1))
             as [tail|] eqn:Et; cbn [bind] in H; [| discriminate H].
           apply Ok_inj in H. subst out.
           destruct (IH (right_core :: after) _ _ ltac:(simpl in Hlen |- *; lia) Et)
             as (H1 & H2 & H3).
           repeat split.
           ++ simpl in *. lia.
           ++ discriminate.
           ++ intros c0 Hc0.
              rewrite chain_core_len_cons, Hl in Hc0. cbn [bind] in Hc0.
              destruct (chain_core_len (right_core :: after)) as [ca|] eqn:Eca;
                cbn [bind] in Hc0; [| discriminate Hc0].
              apply Ok_inj in Hc0. subst c0.
              rewrite chain_core_len_cons, Hl. cbn [bind].
              now rewrite (H3 _ eq_refl).
      * (* no rule applies *)
        destruct (mod_core_len left_core) as [nl|] eqn:Hl; cbn [bind] in H;
          [| discriminate H].
        destruct (merge_scan_tail offset (right_core :: after) (site_num + nl))
          as [tail|] eqn:Et; cbn [bind] in H; [| discriminate H].
        apply Ok_inj in H. subst out.
        destruct (IH (right_core :: after) _ _ ltac:(simpl in Hlen |- *; lia) Et)
          as (H1 & H2 & H3).
        repeat split.
        -- simpl in *. lia.
        -- discriminate.
        -- intros c0 Hc0.
           rewrite chain_core_len_cons, Hl in Hc0. cbn [bind] in Hc0.
           destruct (chain_core_len (right_core :: after)) as [ca|] eqn:Eca;
             cbn [bind] in Hc0; [| discriminate Hc0].
           apply Ok_inj in Hc0. subst c0.
           rewrite chain_core_len_cons, Hl. cbn [bind].
           now rewrite (H3 _ eq_refl).
Qed.

Lemma merge_scan_as_tail offset rest site_num :
  2 <= length rest ->
  merge_scan offset rest site_num = merge_scan_tail offset rest site_num.
Proof.
  destruct rest as [|a [|b rest]]; simpl; intros H; try lia; reflexivity.
Qed.

Lemma merge_scan_short offset rest site_num :
  length rest < 2 -> merge_scan offset rest site_num = Ok [].
Proof.
  destruct rest as [|a [|b rest]]; simpl; intros H; try lia; reflexivity.
Qed.

Lemma merge_passes_nil fuel offset l :
  merge_passes fuel offset [] = Ok l -> l = [].
Proof.
  destruct fuel; cbn; intros H; [discriminate H | now apply Ok_inj in H].
Qed.

(** the passes of [merge] end on the empty list or on a list with the core
    count they started from *)
Lemma merge_passes_core_len fuel offset :
  forall merged_list l c,
    merge_passes fuel offset merged_list = Ok l ->
    chain_core_len merged_list = Ok c ->
    l = [] \/ chain_core_len l = Ok c.
Proof.
  induction fuel as [|fuel IH]; intros merged_list l c H Hc.
  - discriminate H.
  - cbn [merge_passes] in H.
    destruct (merge_scan offset merged_list 0) as [combined|] eqn:Escan;
      cbn [bind] in H; [| discriminate H].
    destruct (length combined =? length merged_list).
    + apply Ok_inj in H. subst l. now right.
    + destruct (le_lt_dec 2 (length merged_list)) as [Hlen | Hlen].
      * rewrite merge_scan_as_tail in Escan by exact Hlen.
        destruct (merge_scan_tail_spec offset _ _ _ _ (le_n _) Escan)
          as (_ & _ & Hcl).
        apply (IH combined l c H). now apply Hcl.
      * rewrite merge_scan_short in Escan by exact Hlen.
        apply Ok_inj in Escan. subst combined.
        left. now apply merge_passes_nil in H.
Qed.

Lemma merge_cores_core_len :
  forall unmerged_list site_num merged_list,
    forallb region_has_sites unmerged_list = true ->
    merge_cores unmerged_list site_num = Ok merged_list ->
    exists c, chain_core_len unmerged_list = Ok c /\
              chain_core_len merged_list = Ok c.
Proof.
  induction unmerged_list as [|core rest IH]; intros site_num merged_list Hreg H.
  - cbn in H. apply Ok_inj in H. subst. exists 0. split; reflexivity.
  - cbn [forallb] in Hreg. apply andb_true_iff in Hreg as [Hcore Hreg].
    cbn [merge_cores] in H.
    destruct (negb (is_MergedInput core)); [| discriminate H].
    destruct (negb (is_MergedOutput core)); [| discriminate H].
    match type of H with
    | bind ?m _ = _ => destruct m as [new_cores|] eqn:Enew
    end; cbn [bind] in H; [| discriminate H].
    destruct (mod_core_len core) as [n|] eqn:En; cbn [bind] in H;
      [| discriminate H].
    destruct (merge_cores rest (site_num + n)) as [tail|] eqn:Etail;
      cbn [bind] in H; [| discriminate H].
    apply Ok_inj in H. subst merged_list.
    destruct (IH _ _ Hreg Etail) as (c & Hc1 & Hc2).
    exists (n + c). split.
    + rewrite chain_core_len_cons, En, Hc1. reflexivity.
    + rewrite chain_core_len_app, Hc2.
      assert (Hnew : chain_core_len new_cores = Ok n).
      { destruct core as [[t|t|t|t|t lo]|].
        - cbn in En. cbn [region_has_sites] in Hcore.
          destruct (shape t) as [|m sh] eqn:Esh; [discriminate Hcore |].
          apply Nat.ltb_lt in Hcore.
          assert (Hsz : size t 0 = Ok m) by (apply size_0_shape; eauto).
          rewrite Hsz in En. apply Ok_inj in En. subst n.
          now apply (InputRegion_merge_core_len t _ _ _ Enew Hsz).
        - apply Ok_inj in Enew. subst. rewrite chain_core_len_cons, En. cbn.
          f_equal; lia.
        - apply Ok_inj in Enew. subst. rewrite chain_core_len_cons, En. cbn.
          f_equal; lia.
        - apply Ok_inj in Enew. subst. rewrite chain_core_len_cons, En. cbn.
          f_equal; lia.
        - apply Ok_inj in Enew. subst. rewrite chain_core_len_cons, En. cbn.
          f_equal; lia.
        - discriminate En. }
      rewrite Hnew. reflexivity.
Qed.

(** ** The adaptive chain: what the two merged lists hold *)

Lemma mps_module_list_regions (N output_dim bond_dim feature_dim label_site : nat) :
  forallb region_has_sites
          (mps_module_list N output_dim bond_dim feature_dim label_site) = true.
Proof.
  unfold mps_module_list, init_tensor.
  destruct (0 <? label_site) eqn:E1; destruct (label_site <? N) eqn:E2;
    cbn [app forallb region_has_sites shape andb]; rewrite ?E1;
    try reflexivity.
  all: apply Nat.ltb_lt in E2; rewrite ?andb_true_r; apply Nat.ltb_lt; lia.
Qed.

Lemma mps_module_list_core_len (N output_dim bond_dim feature_dim label_site : nat) :
  label_site <= N ->
  chain_core_len (mps_module_list N output_dim bond_dim feature_dim label_site)
  = Ok (N + 1).
Proof.
  intros Hle. unfold mps_module_list, init_tensor.
  destruct (0 <? label_site) eqn:E1; destruct (label_site <? N) eqn:E2;
    cbn; f_equal.
  all: try apply Nat.ltb_lt in E1; try apply Nat.ltb_ge in E1;
    try apply Nat.ltb_lt in E2; try apply Nat.ltb_ge in E2; lia.
Qed.

Section AdaptiveFacts.

Variable Float : Type.

(** a merged list is well counted for [c] cores when it is empty, the passes
    having wiped it, or has [c] cores *)
Let counted (c : nat) (l : list Module) : Prop :=
  l = [] \/ chain_core_len l = Ok c.

Lemma merge_in_place (self self' : MergedLinearRegion Float) (k : nat)
  (l : list Module) :
  merged_attr self k = Some l -> merge self k = Ok self' -> self' = self.
Proof.
  intros Hattr H. unfold merge in H.
  destruct ((k =? 0) || (k =? 1)); [| discriminate H].
  destruct (get_module_list self) as [ul|]; cbn [bind] in H; [| discriminate H].
  destruct (merge_cores ul k) as [ml|]; cbn [bind] in H; [| discriminate H].
  destruct (merge_passes (S (length ml)) k ml) as [ml'|]; cbn [bind] in H;
    [| discriminate H].
  rewrite Hattr in H.
  destruct (length l =? length ml'); [| discriminate H].
  destruct (same_shapes l ml'); cbn [bind] in H; [| discriminate H].
  now apply Ok_inj in H.
Qed.

Lemma merge_fresh (self self' : MergedLinearRegion Float) (k : nat)
  (ul : list Module) (c : nat) :
  merged_attr self k = None -> get_module_list self = Ok ul ->
  forallb region_has_sites ul = true -> chain_core_len ul = Ok c ->
  merge self k = Ok self' ->
  exists l, self' = set_merged_attr self k l /\ counted c l.
Proof.
  intros Hattr Hul Hreg Hc H. unfold merge in H.
  destruct ((k =? 0) || (k =? 1)); [| discriminate H].
  rewrite Hul in H. cbn [bind] in H.
  destruct (merge_cores ul k) as [ml|] eqn:Eml; cbn [bind] in H;
    [| discriminate H].
  destruct (merge_passes (S (length ml)) k ml) as [ml'|] eqn:Epass;
    cbn [bind] in H; [| discriminate H].
  rewrite Hattr in H. apply Ok_inj in H. subst self'.
  exists ml'. split; [reflexivity |].
  destruct (merge_cores_core_len _ _ _ Hreg Eml) as (c' & Hc1 & Hc2).
  rewrite Hc in Hc1. apply Ok_inj in Hc1. subst c'.
  exact (merge_passes_core_len _ _ _ _ _ Epass Hc2).
Qed.

Lemma new_MergedLinearRegion_lists (ml : list Module) (p q : bool)
  (cut : Float) (thr : Z) (self : MergedLinearRegion Float) (c : nat) :
  forallb region_has_sites ml = true -> chain_core_len ml = Ok c ->
  new_MergedLinearRegion ml p q cut thr = Ok self ->
  exists l0 l1,
    module_list_0 self = Some l0 /\ module_list_1 self = Some l1 /\
    counted c l0 /\ counted c l1 /\
    offset self = 0 /\ input_counter self = 0%Z /\ merge_threshold self = thr /\
    module_list self = Alias 0.
Proof.
  intros Hreg Hc H. unfold new_MergedLinearRegion in H.
  destruct (check_modules ml); cbn [bind] in H; [| discriminate H].
  cbn [offset] in H.
  match type of H with
  | bind (merge ?s 0) _ = _ => destruct (merge s 0) as [s0|] eqn:E0
  end; cbn [bind] in H; [| discriminate H].
  destruct ((fun H1 H2 => merge_fresh _ _ 0 ml c H1 H2 Hreg Hc E0) eq_refl eq_refl)
    as (l0 & -> & Hl0).
  change ((offset (set_merged_attr
                     (mkMLR (Own ml) None None p q 0 0%Z thr cut) 0 l0) + 1) mod 2)
    with 1 in H.
  match type of H with
  | bind (merge ?s 1) _ = _ => destruct (merge s 1) as [s1|] eqn:E1
  end; cbn [bind] in H; [| discriminate H].
  destruct ((fun H1 H2 => merge_fresh _ _ 1 ml c H1 H2 Hreg Hc E1) eq_refl eq_refl)
    as (l1 & -> & Hl1).
  apply Ok_inj in H. subst self. cbn.
  exists l0, l1. repeat split; auto.
Qed.

End AdaptiveFacts.

(** ** The structural cycle and the forward call of the adaptive chain *)

Lemma iter0_length (t : Tensor) (l : list Tensor) (n : nat) :
  iter0 t = Ok l -> size t 0 = Ok n -> length l = n.
Proof.
  intros Hl Hn. apply size_0_shape in Hn as [rest Hr].
  unfold iter0 in Hl. rewrite Hr in Hl. apply Ok_inj in Hl. subst l.
  apply repeat_length.
Qed.

Section CycleFacts.

Variable Float : Type.
Variable svd_flex :
  Tensor -> string -> nat -> Float -> result (Tensor * Tensor * Z).
Variables SingleMat MatRegion OutputCore : Tensor -> result Contractable.
Variable EdgeVec : Tensor -> bool -> result Contractable.
Variable reduce : list Contractable -> bool -> result Contractable.

Local Abbreviation fwd :=
  (forward svd_flex SingleMat MatRegion OutputCore EdgeVec reduce).
Local Abbreviation contract :=
  (count_and_contract SingleMat MatRegion OutputCore EdgeVec reduce).

Lemma split_cores_lengths (merged_cores : list Tensor) (max_D : nat) (cut : Float) :
  forall cs bs ss,
    split_cores svd_flex merged_cores max_D cut = Ok (cs, bs, ss) ->
    length bs = 2 * length merged_cores /\ length ss = 2 * length merged_cores.
Proof.
  induction merged_cores as [|t rest IH]; intros cs bs ss H.
  - cbn in H. apply Ok_inj in H. inversion H; subst. split; reflexivity.
  - cbn [split_cores] in H.
    destruct (svd_flex t _ max_D cut) as [[[lc rc] bd]|]; cbn [bind] in H;
      [| discriminate H].
    destruct (split_cores svd_flex rest max_D cut) as [[[cs' bs'] ss']|];
      cbn [bind] in H; [| discriminate H].
    apply Ok_inj in H. inversion H; subst.
    destruct (IH _ _ _ eq_refl) as [Hb Hs]. cbn [length]. split; lia.
Qed.

(** the first loop of [unmerge] adds one entry for each core it counts *)
Lemma unmerge_cores_lengths (merged_list : list Module) (cut : Float) :
  forall ul bl sl c,
    unmerge_cores svd_flex merged_list cut = Ok (ul, bl, sl) ->
    chain_core_len merged_list = Ok c ->
    length bl = c /\ length sl = c.
Proof.
  induction merged_list as [|core rest IH]; intros ul bl sl c H Hc.
  - cbn in H. apply Ok_inj in H. inversion H; subst.
    cbn in Hc. apply Ok_inj in Hc. subst. split; reflexivity.
  - cbn [unmerge_cores] in H.
    rewrite chain_core_len_cons in Hc.
    destruct (mod_core_len core) as [n|] eqn:En; cbn [bind] in Hc;
      [| discriminate Hc].
    destruct (chain_core_len rest) as [c'|] eqn:Ec'; cbn [bind] in Hc;
      [| discriminate Hc].
    apply Ok_inj in Hc. subst c.
    match type of H with
    | bind ?m _ = _ => destruct m as [[[ncs nbs] nss]|] eqn:Enew
    end; cbn [bind] in H; [| discriminate H].
    destruct (unmerge_cores svd_flex rest cut) as [[[ul' bl'] sl']|] eqn:Erest;
      cbn [bind] in H; [| discriminate H].
    apply Ok_inj in H. inversion H; subst. clear H.
    destruct (IH _ _ _ _ eq_refl eq_refl) as [Hb Hs].
    rewrite !length_app, Hb, Hs.
    assert (Hnew : length nbs = n /\ length nss = n).
    { destruct core as [[t|t|t|t|t lo]|]; cbn in En.
      - discriminate Enew.
      - unfold MergedInput_unmerge in Enew.
        destruct (size t 1) as [max_D|]; cbn [bind] in Enew; [| discriminate Enew].
        destruct (iter0 t) as [mcs|] eqn:Eit; cbn [bind] in Enew;
          [| discriminate Enew].
        destruct (split_cores svd_flex mcs max_D cut) as [[[cs bs] ss]|] eqn:Esp;
          cbn [bind] in Enew; [| discriminate Enew].
        destruct (stack cs); cbn [bind] in Enew; [| discriminate Enew].
        apply Ok_inj in Enew. inversion Enew; subst. cbn [tl].
        destruct (split_cores_lengths _ _ _ _ _ _ Esp) as [Hbs Hss].
        destruct (size t 0) as [m|] eqn:Em; cbn [bind] in En; [| discriminate En].
        apply Ok_inj in En. subst n.
        rewrite (iter0_length _ _ _ Eit Em) in Hbs, Hss. split; lia.
      - apply Ok_inj in Enew, En. inversion Enew; subst. split; reflexivity.
      - apply Ok_inj in Enew, En. inversion Enew; subst. split; reflexivity.
      - apply Ok_inj in En. subst n. unfold MergedOutput_unmerge in Enew.
        destruct lo.
        + destruct (size t 2) as [max_D|]; cbn [bind] in Enew; [| discriminate Enew].
          destruct (svd_flex t _ max_D cut) as [[[oc ic] bd]|]; cbn [bind] in Enew;
            [| discriminate Enew].
          apply Ok_inj in Enew. inversion Enew; subst. split; reflexivity.
        + destruct (size t 1) as [max_D|]; cbn [bind] in Enew; [| discriminate Enew].
          destruct (svd_flex t _ max_D cut) as [[[oc ic] bd]|]; cbn [bind] in Enew;
            [| discriminate Enew].
          apply Ok_inj in Enew. inversion Enew; subst. split; reflexivity.
      - discriminate En. }
    destruct Hnew as [-> ->]. split; reflexivity.
Qed.

(** a structural cycle that comes back has read a merged list that is not
    empty; it leaves the chain with a list of its own and returns one entry
    more than the merged list has cores *)
Lemma unmerge_returns (self self' : MergedLinearRegion Float) (cut : Float)
  (bl : list Z) (sl : list SvEntry) :
  unmerge svd_flex self cut = Ok (self', bl, sl) ->
  exists l ul,
    merged_attr self (offset self) = Some l /\ l <> [] /\
    self' = set_module_list self (Own ul) /\
    (forall c, chain_core_len l = Ok c -> length bl = S c /\ length sl = S c) /\
    bl <> [].
Proof.
  intros H. unfold unmerge in H.
  destruct (merged_attr self (offset self)) as [l|]; cbn [bind] in H;
    [| discriminate H].
  destruct (unmerge_cores svd_flex l cut) as [[[ul bl'] sl']|] eqn:Ecores;
    cbn [bind] in H; [| discriminate H].
  destruct (unmerge_passes (S (length ul)) ul) as [ul'|] eqn:Epass;
    cbn [bind] in H; [| discriminate H].
  destruct (rescale ul') eqn:Eres; cbn [bind] in H; [| discriminate H].
  apply Ok_inj in H. inversion H; subst. clear H.
  exists l, ul'. repeat split; try reflexivity.
  - intros ->. cbn in Ecores. apply Ok_inj in Ecores. inversion Ecores; subst.
    cbn in Epass. apply Ok_inj in Epass. subst. discriminate Eres.
  - cbn [length]. f_equal.
    now destruct (unmerge_cores_lengths _ _ _ _ _ _ Ecores H).
  - cbn [length]. f_equal.
    now destruct (unmerge_cores_lengths _ _ _ _ _ _ Ecores H).
  - discriminate.
Qed.

(** the end of the forward call adds the batch size, whatever the
    contraction does then *)
Lemma contract_state (self : MergedLinearRegion Float) (bl : option (list Z))
  (sl : list SvEntry) (x : Tensor) (b : nat) :
  size x 0 = Ok b ->
  fst (contract self bl sl x)
  = set_input_counter self (input_counter self + Z.of_nat b).
Proof.
  intros Hb. unfold count_and_contract. now rewrite Hb.
Qed.

Lemma contract_returns (self self' : MergedLinearRegion Float)
  (bl : option (list Z)) (sl : list SvEntry) (x : Tensor) (out : FwdOut) :
  contract self bl sl x = (self', Ok out) ->
  exists b o,
    size x 0 = Ok b /\
    self' = set_input_counter self (input_counter self + Z.of_nat b) /\
    out = if truthy bl
          then OutTriple o (match bl with Some l => l | None => [] end) sl
          else OutOnly o.
Proof.
  unfold count_and_contract. intros H.
  destruct (size x 0) as [b|]; [| inversion H].
  inversion H as [[Hs Hr]]. clear H.
  destruct (get_module_list _) as [ml|]; cbn [bind] in Hr; [| discriminate Hr].
  destruct (LinearRegion_forward _ _ _ _ _ _ _ _ _) as [o|]; cbn [bind] in Hr;
    [| discriminate Hr].
  exists b, o. repeat split.
  destruct (truthy bl); now apply Ok_inj in Hr.
Qed.

(** a call below the threshold runs no cycle *)
Lemma forward_miss (self : MergedLinearRegion Float) (x : Tensor) :
  threshold_hit self = false -> fwd self x = contract self None [] x.
Proof.
  intros H. unfold forward. now rewrite H.
Qed.

(** a call at or above the threshold that returns has run the cycle *)
Lemma forward_hit_returns (self self' : MergedLinearRegion Float) (x : Tensor)
  (out : FwdOut) (l0 l1 : list Module) :
  module_list_0 self = Some l0 -> module_list_1 self = Some l1 ->
  threshold_hit self = true -> fwd self x = (self', Ok out) ->
  exists b o bl sl l,
    size x 0 = Ok b /\
    out = OutTriple o bl sl /\
    merged_attr self (offset self) = Some l /\ l <> [] /\
    (forall c, chain_core_len l = Ok c -> length bl = S c /\ length sl = S c) /\
    input_counter self'
    = (input_counter self - merge_threshold self + Z.of_nat b)%Z /\
    offset self' = (offset self + 1) mod 2 /\
    merge_threshold self' = merge_threshold self /\
    module_list self' = Alias (offset self').
Proof.
  intros E0 E1 Hhit H. unfold forward in H. rewrite Hhit in H.
  destruct (unmerge svd_flex self (cutoff self)) as [[[s1 bl] sl]|] eqn:Eun;
    [| inversion H].
  destruct (unmerge_returns _ _ _ _ _ Eun) as (l & ul & Hl & Hne & -> & Hlen & Hbl).
  match type of H with
  | match merge ?s ?k with _ => _ end = _ => destruct (merge s k) as [s3|] eqn:Em
  end; [| inversion H].
  assert (Hs3 : s3 = set_offset (set_module_list self (Own ul))
                                ((offset (set_module_list self (Own ul)) + 1) mod 2)).
  { assert (Hlt : (offset self + 1) mod 2 < 2) by (apply Nat.mod_upper_bound; lia).
    cbn [set_module_list set_offset offset] in Em |- *.
    destruct ((offset self + 1) mod 2) as [|[|k]] eqn:Ek; [| | lia].
    - eapply merge_in_place; [| exact Em]. cbn. exact E0.
    - eapply merge_in_place; [| exact Em]. cbn. exact E1. }
  subst s3.
  apply contract_returns in H as (b & o & Hb & -> & ->).
  destruct bl as [|b0 bl]; [contradiction |].
  exists b, o, (b0 :: bl), sl, l. cbn. repeat split; auto.
  all: now destruct (Hlen _ H).
Qed.

Lemma contract_fields (self : MergedLinearRegion Float) (bl : option (list Z))
  (sl : list SvEntry) (x : Tensor) :
  module_list_0 (fst (contract self bl sl x)) = module_list_0 self /\
  module_list_1 (fst (contract self bl sl x)) = module_list_1 self /\
  offset (fst (contract self bl sl x)) = offset self /\
  merge_threshold (fst (contract self bl sl x)) = merge_threshold self.
Proof.
  unfold count_and_contract. destruct (size x 0); cbn; auto.
Qed.

(** the two merged lists are never replaced once they are set, and the
    offset stays 0 or 1 *)
Lemma forward_keeps_lists (self : MergedLinearRegion Float) (x : Tensor)
  (l0 l1 : list Module) :
  module_list_0 self = Some l0 -> module_list_1 self = Some l1 ->
  offset self < 2 ->
  module_list_0 (fst (fwd self x)) = Some l0 /\
  module_list_1 (fst (fwd self x)) = Some l1 /\
  offset (fst (fwd self x)) < 2.
Proof.
  intros E0 E1 Ho. unfold forward.
  destruct (threshold_hit self).
  - destruct (unmerge svd_flex self (cutoff self)) as [[[s1 bl] sl]|] eqn:Eun;
      [| cbn; auto].
    destruct (unmerge_returns _ _ _ _ _ Eun) as (l & ul & _ & _ & -> & _ & _).
    assert (Hlt : (offset self + 1) mod 2 < 2) by (apply Nat.mod_upper_bound; lia).
    match goal with
    | |- context [merge ?s ?k] => destruct (merge s k) as [s3|] eqn:Em
    end; [| cbn; auto].
    assert (Hs3 : s3 = set_offset (set_module_list self (Own ul))
                                  ((offset (set_module_list self (Own ul)) + 1) mod 2)).
    { cbn [set_module_list set_offset offset] in Em |- *.
      destruct ((offset self + 1) mod 2) as [|[|k]] eqn:Ek; [| | lia].
      - eapply merge_in_place; [| exact Em]. cbn. exact E0.
      - eapply merge_in_place; [| exact Em]. cbn. exact E1. }
    subst s3.
    match goal with
    | |- context [contract ?s ?b ?l x] =>
        destruct (contract_fields s b l x) as (-> & -> & -> & _)
    end.
    cbn. auto.
  - destruct (contract_fields self None [] x) as (-> & -> & -> & _). auto.
Qed.

Lemma adaptive_chain_lists (N : nat) (self : MergedLinearRegion Float) :
  adaptive_chain svd_flex SingleMat MatRegion OutputCore EdgeVec reduce N self ->
  exists l0 l1,
    module_list_0 self = Some l0 /\ module_list_1 self = Some l1 /\
    (l0 = [] \/ chain_core_len l0 = Ok (N + 1)) /\
    (l1 = [] \/ chain_core_len l1 = Ok (N + 1)) /\
    offset self < 2.
Proof.
  induction 1 as [o D f ls p q cut thr self Hls Hnew | self x _ IH].
  - destruct (new_MergedLinearRegion_lists Float _ p q cut thr self (N + 1)
                (mps_module_list_regions N o D f ls)
                (mps_module_list_core_len N o D f ls Hls) Hnew)
      as (l0 & l1 & H0 & H1 & Hc0 & Hc1 & Hoff & _).
    exists l0, l1. rewrite Hoff. repeat split; auto.
  - destruct IH as (l0 & l1 & H0 & H1 & Hc0 & Hc1 & Hoff).
    destruct (forward_keeps_lists self x l0 l1 H0 H1 Hoff) as (H0' & H1' & Hoff').
    exists l0, l1. repeat split; auto.
Qed.




(** C1 (amended): with the merge threshold 10 and the input counter at 0,
    three forward calls with batches of four run no structural cycle: the
    counter is compared with the threshold before the batch is added, and it
    is 0, 4 and 8 then; the calls leave the counter at 12 and the offset as
    it was, and those that return return the output alone.  The cycle runs
    on the next call, the first that finds the counter at 10 or more; when
    that call, with a batch of [b], returns, it returns the output with the
    two lists, the offset is flipped and the counter is [2 + b]. *)
Theorem threshold_firing (N : nat) (self : MergedLinearRegion Float)
  (x1 x2 x3 x4 : Tensor) (b : nat) :
  adaptive_chain svd_flex SingleMat MatRegion OutputCore EdgeVec reduce N self ->
  merge_threshold self = 10%Z -> input_counter self = 0%Z ->
  size x1 0 = Ok 4 -> size x2 0 = Ok 4 -> size x3 0 = Ok 4 -> size x4 0 = Ok b ->
  let s1 := fst (fwd self x1) in
  let s2 := fst (fwd s1 x2) in
  let s3 := fst (fwd s2 x3) in
  run svd_flex SingleMat MatRegion OutputCore EdgeVec reduce self [x1; x2; x3]
  = [(false, 4%Z); (false, 8%Z); (false, 12%Z)] /\
  (forall out, snd (fwd self x1) = Ok out \/ snd (fwd s1 x2) = Ok out \/
               snd (fwd s2 x3) = Ok out -> exists o, out = OutOnly o) /\
  offset s3 = offset self /\
  threshold_hit s3 = true /\
  (forall s4 out, fwd s3 x4 = (s4, Ok out) ->
     input_counter s4 = (2 + Z.of_nat b)%Z /\
     offset s4 = (offset self + 1) mod 2 /\
     exists o bl sl, out = OutTriple o bl sl).
Proof.
  intros Hchain Hthr Hcnt Hx1 Hx2 Hx3 Hx4 s1 s2 s3.
  assert (Hmiss0 : threshold_hit self = false).
  { unfold threshold_hit. rewrite Hthr, Hcnt. reflexivity. }
  assert (Es1 : s1 = set_input_counter self 4%Z).
  { unfold s1. rewrite (forward_miss self x1 Hmiss0).
    rewrite (contract_state self None [] x1 4 Hx1), Hcnt. reflexivity. }
  assert (Hmiss1 : threshold_hit s1 = false).
  { rewrite Es1. unfold threshold_hit. cbn. rewrite Hthr. reflexivity. }
  assert (Es2 : s2 = set_input_counter self 8%Z).
  { unfold s2. rewrite (forward_miss s1 x2 Hmiss1).
    rewrite (contract_state s1 None [] x2 4 Hx2), Es1. reflexivity. }
  assert (Hmiss2 : threshold_hit s2 = false).
  { rewrite Es2. unfold threshold_hit. cbn. rewrite Hthr. reflexivity. }
  assert (Es3 : s3 = set_input_counter self 12%Z).
  { unfold s3. rewrite (forward_miss s2 x3 Hmiss2).
    rewrite (contract_state s2 None [] x3 4 Hx3), Es2. reflexivity. }
  assert (Hhit3 : threshold_hit s3 = true).
  { rewrite Es3. unfold threshold_hit. cbn. rewrite Hthr. reflexivity. }
  split; [| split; [| split; [| split]]].
  - cbn [run]. fold s1. fold s2. fold s3.
    rewrite Hmiss0, Hmiss1, Hmiss2, Es1, Es2, Es3. reflexivity.
  - intros out [H | [H | H]].
    + rewrite (forward_miss self x1 Hmiss0) in H.
      destruct (contract self None [] x1) as [s r] eqn:E. cbn in H. subst r.
      apply contract_returns in E as (_ & o & _ & _ & ->). exists o. reflexivity.
    + rewrite (forward_miss s1 x2 Hmiss1) in H.
      destruct (contract s1 None [] x2) as [s r] eqn:E. cbn in H. subst r.
      apply contract_returns in E as (_ & o & _ & _ & ->). exists o. reflexivity.
    + rewrite (forward_miss s2 x3 Hmiss2) in H.
      destruct (contract s2 None [] x3) as [s r] eqn:E. cbn in H. subst r.
      apply contract_returns in E as (_ & o & _ & _ & ->). exists o. reflexivity.
  - rewrite Es3. reflexivity.
  - exact Hhit3.
  - intros s4 out H.
    destruct (adaptive_chain_lists N self Hchain) as (l0 & l1 & H0 & H1 & _).
    assert (H0' : module_list_0 s3 = Some l0) by (rewrite Es3; exact H0).
    assert (H1' : module_list_1 s3 = Some l1) by (rewrite Es3; exact H1).
    destruct (forward_hit_returns s3 s4 x4 out l0 l1 H0' H1' Hhit3 H)
      as (b' & o & bl & sl & l & Hb' & -> & _ & _ & _ & Hc & Ho & _).
    rewrite Hx4 in Hb'. apply Ok_inj in Hb'. subst b'.
    rewrite Hc, Ho, Es3. cbn. rewrite Hthr. repeat split; eauto.
Qed.

End CycleFacts.

(** C1, as the specification words it, fails: none of the three calls finds
    the threshold hit, the counter being 0, 4 and 8 when it is compared. *)
Lemma threshold_firing_counterexample :
  ~ threshold_firing_as_specified fresh_chain.
Proof.
  unfold threshold_firing_as_specified. vm_compute. discriminate.
Qed.

Example fresh_chain_run :
  ShapeModel.run fresh_chain [batch_of_4; batch_of_4; batch_of_4; batch_of_4]
  = [(false, 4%Z); (false, 8%Z); (false, 12%Z); (true, 6%Z)].
Proof. vm_compute. reflexivity. Qed.

Example fresh_chain_built :
  ShapeModel.new_MergedLinearRegion
    (mps_module_list 5 10 3 2 2) false false ShapeModel.default_cutoff 10%Z
  = Ok fresh_chain.
Proof. vm_compute. reflexivity. Qed.

Lemma eager_chain_built : ShapeModel.adaptive_chain 5 eager_chain.
Proof.
  apply chain_built
    with (output_dim := 10) (bond_dim := 3) (feature_dim := 2) (label_site := 2)
         (periodic_bc := false) (parallel_eval := false)
         (cutoff := ShapeModel.default_cutoff) (merge_threshold := 0%Z);
    [lia | vm_compute; reflexivity].
Qed.


(** the first cycle of the chain [eager_chain] runs to its end, and the call
    returns the output with the two lists *)
Example first_cycle_completes :
  ShapeModel.forward eager_chain batch_of_4
  = (cycled_chain,
     Ok (OutTriple (mkTensor [4; 10]) [-1; 3; -1; 3; -1; 3; -1]%Z
           [SvUnset; SvVec (mkTensor [3]); SvUnset; SvVec (mkTensor [3]);
            SvUnset; SvVec (mkTensor [3]); SvUnset])).
Proof. vm_compute. reflexivity. Qed.


(** the second cycle of the chain: [unmerge] returns and leaves the chain
    with a list of its own, the offset is flipped from 1 to 0, and [merge]
    fails the assertion on the length of the list that is stored for the
    offset 0 *)
Example second_cycle_raises :
  ShapeModel.adaptive_chain 5 cycled_chain /\
  threshold_hit cycled_chain = true /\
  offset cycled_chain = 1 /\
  module_list_0 cycled_chain = Some merged_0 /\
  (exists s bl sl,
     unmerge ShapeModel.svd_flex cycled_chain (cutoff cycled_chain)
     = Ok (s, bl, sl) /\
     module_list s
     = Own [Some (InputSite (mkTensor [3; 3; 2]));
            Some (InputSite (mkTensor [3; 3; 2]));
            Some (OutputSite (mkTensor [10; 3; 3]));
            Some (InputRegion (mkTensor [3; 3; 3; 2]))] /\
     merge (set_offset s 0) 0 = Raise AssertionError) /\
  ShapeModel.forward cycled_chain batch_of_4
  = (fst (ShapeModel.cycle cycled_chain), Raise AssertionError) /\
  offset (fst (ShapeModel.cycle cycled_chain)) = 0.
Proof.
  split; [exact (chain_used batch_of_4 eager_chain_built) |].
  split; [vm_compute; reflexivity |].
  split; [vm_compute; reflexivity |].
  split; [vm_compute; reflexivity |].
  split; [| split; vm_compute; reflexivity].
  eexists _, _, _. split; [vm_compute; reflexivity |].
  split; vm_compute; reflexivity.
Qed.

Lemma threshold_firing_witness :
  let s1 := fst (ShapeModel.forward fresh_chain batch_of_4) in
  let s2 := fst (ShapeModel.forward s1 batch_of_4) in
  let s3 := fst (ShapeModel.forward s2 batch_of_4) in
  (ShapeModel.adaptive_chain 5 fresh_chain /\
   merge_threshold fresh_chain = 10%Z /\ input_counter fresh_chain = 0%Z /\
   size batch_of_4 0 = Ok 4) /\
  ShapeModel.run fresh_chain [batch_of_4; batch_of_4; batch_of_4]
  = [(false, 4%Z); (false, 8%Z); (false, 12%Z)] /\
  (forall out, snd (ShapeModel.forward fresh_chain batch_of_4) = Ok out \/
               snd (ShapeModel.forward s1 batch_of_4) = Ok out \/
               snd (ShapeModel.forward s2 batch_of_4) = Ok out ->
               exists o, out = OutOnly o) /\
  offset s3 = offset fresh_chain /\
  threshold_hit s3 = true /\
  (forall s4 out, ShapeModel.forward s3 batch_of_4 = (s4, Ok out) ->
     input_counter s4 = (2 + Z.of_nat 4)%Z /\
     offset s4 = (offset fresh_chain + 1) mod 2 /\
     exists o bl sl, out = OutTriple o bl sl).
Proof.
  cbv zeta.
  assert (Hchain : ShapeModel.adaptive_chain 5 fresh_chain).
  { apply chain_built
      with (output_dim := 10) (bond_dim := 3) (feature_dim := 2) (label_site := 2)
           (periodic_bc := false) (parallel_eval := false)
           (cutoff := ShapeModel.default_cutoff) (merge_threshold := 10%Z);
      [lia | vm_compute; reflexivity]. }
  split; [repeat split; solve [exact Hchain | reflexivity] |].
  exact (threshold_firing ShapeModel.Float ShapeModel.svd_flex ShapeModel.SingleMat
           ShapeModel.MatRegion ShapeModel.OutputCore ShapeModel.EdgeVec
           ShapeModel.reduce 5 fresh_chain batch_of_4 batch_of_4 batch_of_4
           batch_of_4 4 Hchain eq_refl eq_refl eq_refl eq_refl eq_refl eq_refl).
Defined.

Example fresh_chain_fourth_call :
  let s1 := fst (ShapeModel.forward fresh_chain batch_of_4) in
  let s2 := fst (ShapeModel.forward s1 batch_of_4) in
  let s3 := fst (ShapeModel.forward s2 batch_of_4) in
  snd (ShapeModel.forward s3 batch_of_4)
  = Ok (OutTriple (mkTensor [4; 10]) [-1; 3; -1; 3; -1; 3; -1]%Z
          [SvUnset; SvVec (mkTensor [3]); SvUnset; SvVec (mkTensor [3]);
           SvUnset; SvVec (mkTensor [3]); SvUnset]).
Proof. vm_compute. reflexivity. Qed.

(** ** The trace over the bond axes *)

Lemma lookup_app (c : ascii) (e1 e2 : env) :
  lookup c (e1 ++ e2) =
  match lookup c e1 with Some d => Some d | None => lookup c e2 end.
Proof.
  induction e1 as [|[c' d] e1 IH]; cbn; [reflexivity |].
  destruct (Ascii.eqb c c'); [reflexivity | exact IH].
Qed.

Lemma chars_of_list (l : list ascii) : chars (string_of_list_ascii l) = l.
Proof. apply list_ascii_of_string_of_list_ascii. Qed.

Lemma split_arrow_cons (c c2 : ascii) (rest : list ascii) :
  split_arrow (c :: c2 :: rest) =
  if (Ascii.eqb c "-" && Ascii.eqb c2 ">")%bool then Some ([], rest)
  else match split_arrow (c2 :: rest) with
       | Some (l, r) => Some (c :: l, r)
       | None => None
       end.
Proof. reflexivity. Qed.

Lemma split_arrow_app (ins out : list ascii) :
  forallb (fun c => negb (Ascii.eqb c "-")) ins = true ->
  split_arrow (ins ++ chars "->" ++ out) = Some (ins, out).
Proof.
  induction ins as [|c ins IH]; intros H.
  - reflexivity.
  - cbn [forallb] in H. apply andb_true_iff in H as [Hc H].
    apply negb_true_iff in Hc. specialize (IH H).
    cbn [app].
    destruct (ins ++ chars "->" ++ out) as [|c2 rest] eqn:E.
    + destruct ins; discriminate E.
    + rewrite split_arrow_cons, Hc, IH. reflexivity.
Qed.

Lemma split_on_none (sep : ascii) (s : list ascii) :
  forallb (fun c => negb (Ascii.eqb c sep)) s = true -> split_on sep s = [s].
Proof.
  induction s as [|c s IH]; intros H; [reflexivity |].
  cbn [forallb] in H. apply andb_true_iff in H as [Hc H].
  apply negb_true_iff in Hc. cbn [split_on]. rewrite Hc, (IH H). reflexivity.
Qed.

(** the subscripts of an operand that are all new and all different are
    bound one by one *)
Lemma operand_env_fresh (subs : list ascii) :
  forall (dims : list nat) (e : env),
    length dims = length subs -> NoDup subs ->
    (forall c, In c subs -> lookup c e = None) ->
    operand_env subs dims e = Ok (rev (List.combine subs dims) ++ e).
Proof.
  induction subs as [|c subs IH]; intros [|d dims] e Hlen Hnd Hnew;
    try discriminate Hlen; [reflexivity |].
  cbn [operand_env]. rewrite (Hnew c (or_introl eq_refl)).
  inversion Hnd as [|? ? Hnotin Hnd']; subst.
  rewrite IH; [| now inversion Hlen | assumption |].
  - cbn [List.combine rev]. now rewrite <- app_assoc.
  - intros c' Hin. cbn [lookup].
    destruct (Ascii.eqb c' c) eqn:E; [| apply Hnew; now right].
    apply Ascii.eqb_eq in E. subst c'. contradiction.
Qed.

Lemma lookup_combine_None (c : ascii) (subs : list ascii) (dims : list nat) :
  ~ In c subs -> lookup c (rev (List.combine subs dims)) = None.
Proof.
  revert dims. induction subs as [|c' subs IH]; intros dims Hnin.
  - reflexivity.
  - destruct dims as [|d dims]; [reflexivity |].
    cbn [List.combine rev]. rewrite lookup_app, IH by (intros H; apply Hnin; now right).
    cbn [lookup]. destruct (Ascii.eqb c c') eqn:E; [| reflexivity].
    apply Ascii.eqb_eq in E. subst. exfalso. apply Hnin. now left.
Qed.

(** the output subscripts, all different, are looked up one by one *)
Lemma output_shape_lookup (out : list ascii) (e : env) :
  forall dims,
    NoDup out -> length dims = length out ->
    (forall i c d, nth_error out i = Some c -> nth_error dims i = Some d ->
                   lookup c e = Some d) ->
    output_shape out e = Ok dims.
Proof.
  induction out as [|c out IH]; intros [|d dims] Hnd Hlen Hlk;
    try discriminate Hlen; [reflexivity |].
  inversion Hnd as [|? ? Hnotin Hnd']; subst.
  cbn [output_shape].
  assert (Hex : existsb (Ascii.eqb c) out = false).
  { destruct (existsb (Ascii.eqb c) out) eqn:E; [| reflexivity].
    apply existsb_exists in E as (c' & Hin & Heq).
    apply Ascii.eqb_eq in Heq. subst. contradiction. }
  rewrite Hex, (Hlk 0 c d eq_refl eq_refl).
  rewrite (IH dims Hnd'); [reflexivity | now inversion Hlen |].
  intros i c' d' Hc Hd. exact (Hlk (S i) c' d' Hc Hd).
Qed.

Lemma operand_env_app (s1 s2 : list ascii) :
  forall (d1 d2 : list nat) (e : env),
    length d1 = length s1 ->
    operand_env (s1 ++ s2) (d1 ++ d2) e =
    (e1 <- operand_env s1 d1 e ;; operand_env s2 d2 e1).
Proof.
  induction s1 as [|c s1 IH]; intros [|d d1] d2 e Hlen; try discriminate Hlen.
  - reflexivity.
  - cbn [app operand_env]. inversion Hlen as [Hlen'].
    destruct (lookup c e) as [d'|].
    + destruct (d =? d'); [apply IH; exact Hlen' | reflexivity].
    + apply IH; exact Hlen'.
Qed.

Lemma merge_env_fresh (loc : env) :
  forall glob,
    NoDup (map fst loc) ->
    (forall c, In c (map fst loc) -> lookup c glob = None) ->
    merge_env loc glob = Ok (rev loc ++ glob).
Proof.
  induction loc as [|[c d] loc IH]; intros glob Hnd Hnew; [reflexivity |].
  cbn [map fst] in Hnd, Hnew. inversion Hnd as [|? ? Hnotin Hnd']; subst.
  cbn [merge_env]. rewrite (Hnew c (or_introl eq_refl)).
  rewrite IH; [cbn [rev]; now rewrite <- app_assoc | exact Hnd' |].
  intros c' Hin. cbn [lookup].
  destruct (Ascii.eqb c' c) eqn:E; [| apply Hnew; now right].
  apply Ascii.eqb_eq in E. subst. contradiction.
Qed.

Lemma lookup_combine_nth (keys : list ascii) :
  forall (vals : list nat) (i : nat) (c : ascii) (d : nat),
    NoDup keys ->
    nth_error keys i = Some c -> nth_error vals i = Some d ->
    lookup c (List.combine keys vals) = Some d.
Proof.
  induction keys as [|k keys IH]; intros [|v vals] [|i] c d Hnd Hk Hv;
    try discriminate Hk; try discriminate Hv.
  - cbn in Hk, Hv. inversion Hk; inversion Hv; subst.
    cbn. now rewrite Ascii.eqb_refl.
  - cbn in Hk, Hv. inversion Hnd as [|? ? Hnotin Hnd']; subst.
    cbn [List.combine lookup].
    destruct (Ascii.eqb c k) eqn:E.
    + apply Ascii.eqb_eq in E. subst. exfalso. apply Hnotin.
      eapply nth_error_In; eassumption.
    + eapply IH; eassumption.
Qed.

Lemma lookup_not_key (c : ascii) (e : env) :
  ~ In c (map fst e) -> lookup c e = None.
Proof.
  induction e as [|[c' d] e IH]; intros Hnin; [reflexivity |].
  cbn [lookup]. destruct (Ascii.eqb c c') eqn:E.
  - apply Ascii.eqb_eq in E. subst. exfalso. apply Hnin. now left.
  - apply IH. intros H. apply Hnin. now right.
Qed.

Lemma map_fst_combine (keys : list ascii) (vals : list nat) :
  length vals = length keys -> map fst (List.combine keys vals) = keys.
Proof.
  revert vals. induction keys as [|k keys IH]; intros [|v vals] H;
    try discriminate H; [reflexivity |].
  cbn. f_equal. apply IH. now inversion H.
Qed.

Lemma trace_in_str_app (s1 s2 : list ascii) :
  trace_in_str (s1 ++ s2) = trace_in_str s1 ++ trace_in_str s2.
Proof. induction s1 as [|c s1 IH]; cbn; [reflexivity | now rewrite IH]. Qed.

Lemma trace_out_str_app (s1 s2 : list ascii) :
  trace_out_str (s1 ++ s2) = trace_out_str s1 ++ trace_out_str s2.
Proof.
  induction s1 as [|c s1 IH]; cbn; [reflexivity |].
  destruct (in_lin_bonds c); cbn; now rewrite IH.
Qed.

Lemma trace_str_plain (s : list ascii) :
  forallb plain_label s = true -> trace_in_str s = s /\ trace_out_str s = s.
Proof.
  induction s as [|c s IH]; intros H; [split; reflexivity |].
  cbn [forallb] in H. apply andb_true_iff in H as [Hc H].
  unfold plain_label in Hc. apply andb_true_iff in Hc as [Hc _].
  apply andb_true_iff in Hc as [Hc _]. apply negb_true_iff in Hc.
  destruct (IH H) as [H1 H2]. cbn. rewrite Hc, H1, H2. split; reflexivity.
Qed.

Lemma plain_no_sign (s : list ascii) (sign : ascii) :
  sign = "-"%char \/ sign = ","%char ->
  forallb plain_label s = true ->
  forallb (fun c => negb (Ascii.eqb c sign)) s = true.
Proof.
  intros Hs H. apply forallb_forall. intros c Hin.
  rewrite forallb_forall in H. specialize (H c Hin).
  unfold plain_label in H. apply andb_true_iff in H as [H H2].
  apply andb_true_iff in H as [_ H1].
  destruct Hs as [-> | ->]; assumption.
Qed.

Lemma plain_not_bond (s : list ascii) :
  forallb plain_label s = true -> ~ In "l"%char s.
Proof.
  intros H Hin. rewrite forallb_forall in H. specialize (H _ Hin).
  discriminate H.
Qed.

Lemma combine_app {A B : Type} (l1 l2 : list A) (m1 m2 : list B) :
  length l1 = length m1 ->
  List.combine (l1 ++ l2) (m1 ++ m2) = List.combine l1 m1 ++ List.combine l2 m2.
Proof.
  revert m1. induction l1 as [|x l1 IH]; intros [|y m1] H; try discriminate H;
    [reflexivity |].
  cbn. f_equal. apply IH. now inversion H.
Qed.

Lemma NoDup_app_parts {A : Type} (l1 l2 : list A) :
  NoDup (l1 ++ l2) ->
  NoDup l1 /\ NoDup l2 /\ (forall a, In a l1 -> ~ In a l2).
Proof.
  induction l1 as [|x l1 IH]; cbn; intros H.
  - repeat split; [constructor | exact H | intros a []].
  - inversion H as [|? ? Hnotin Hnd]; subst.
    destruct (IH Hnd) as (H1 & H2 & H3).
    repeat split; auto.
    + constructor; [| exact H1]. intros Hin. apply Hnotin.
      apply in_or_app. now left.
    + intros a [-> | Hin] Hin2; [| exact (H3 a Hin Hin2)].
      apply Hnotin. apply in_or_app. now right.
Qed.

(** the trace as [torch.einsum] computes it on shapes: the two axes written
    [l] have to be of one size and are summed over together, the other axes
    stay *)
Lemma einsum_trace (pre mid post : list ascii) (dpre dmid dpost : list nat)
  (dx dy : nat) :
  forallb plain_label (pre ++ mid ++ post) = true ->
  NoDup (pre ++ mid ++ post) ->
  length dpre = length pre -> length dmid = length mid ->
  length dpost = length post ->
  einsum (string_of_list_ascii
            ((pre ++ ("l"%char :: mid) ++ "l"%char :: post)
             ++ chars "->" ++ pre ++ mid ++ post))
         [mkTensor (dpre ++ (dx :: dmid) ++ dy :: dpost)]
  = if dy =? dx then Ok (mkTensor (dpre ++ dmid ++ dpost)) else Raise RuntimeError.
Proof.
  intros Hplain Hnd Lpre Lmid Lpost.
  assert (Hall := Hplain).
  rewrite !forallb_app in Hplain.
  apply andb_true_iff in Hplain as [Ppre Hplain].
  apply andb_true_iff in Hplain as [Pmid Ppost].
  destruct (NoDup_app_parts _ _ Hnd) as (Npre & Nrest & Dpre).
  destruct (NoDup_app_parts _ _ Nrest) as (Nmid & Npost & Dmid).
  unfold einsum. rewrite chars_of_list.
  rewrite split_arrow_app.
  2:{ rewrite !forallb_app. cbn [forallb].
      rewrite (plain_no_sign pre "-"), (plain_no_sign mid "-"),
        (plain_no_sign post "-") by auto. reflexivity. }
  rewrite split_on_none.
  2:{ rewrite !forallb_app. cbn [forallb].
      rewrite (plain_no_sign pre ","), (plain_no_sign mid ","),
        (plain_no_sign post ",") by auto. reflexivity. }
  cbn [operands_env shape].
  (* the axes before the first bond axis *)
  rewrite (operand_env_app pre _ dpre _ [] Lpre).
  rewrite (operand_env_fresh pre dpre [] Lpre Npre) by reflexivity.
  cbn [bind]. rewrite app_nil_r.
  (* the first bond axis and the axes up to the second *)
  rewrite (operand_env_app ("l"%char :: mid) ("l"%char :: post) (dx :: dmid)
             (dy :: dpost) _ ltac:(cbn; now rewrite Lmid)).
  cbn [operand_env].
  rewrite (lookup_combine_None "l" pre dpre (plain_not_bond pre Ppre)).
  rewrite (operand_env_fresh mid dmid _ Lmid Nmid).
  2:{ intros c Hc. cbn [lookup].
      destruct (Ascii.eqb c "l") eqn:E.
      - apply Ascii.eqb_eq in E. subst. now apply plain_not_bond in Pmid.
      - apply lookup_combine_None. intros Hin.
        apply (Dpre c Hin). apply in_or_app. now left. }
  cbn [bind].
  (* the second bond axis *)
  rewrite lookup_app, (lookup_combine_None "l" mid dmid (plain_not_bond mid Pmid)).
  cbn [lookup]. rewrite Ascii.eqb_refl.
  destruct (dy =? dx); [| reflexivity].
  (* the axes after it *)
  rewrite (operand_env_fresh post dpost _ Lpost Npost).
  2:{ intros c Hc. rewrite lookup_app.
      rewrite lookup_combine_None by (intros Hin; exact (Dmid c Hin Hc)).
      cbn [lookup].
      destruct (Ascii.eqb c "l") eqn:E.
      - apply Ascii.eqb_eq in E. subst. now apply plain_not_bond in Ppost.
      - apply lookup_combine_None. intros Hin.
        apply (Dpre c Hin). apply in_or_app. now right. }
  cbn [bind].
  (* the environment of the one operand is the environment of the equation *)
  match goal with
  | |- context [merge_env ?loc []] =>
      assert (Hkeys : map fst loc = rev post ++ rev mid ++ "l"%char :: rev pre)
  end.
  { rewrite !map_app. cbn [map fst]. rewrite !map_rev.
    now rewrite !map_fst_combine by assumption. }
  rewrite merge_env_fresh; [| | reflexivity].
  2:{ rewrite Hkeys.
      replace (rev post ++ rev mid ++ "l"%char :: rev pre)
        with (rev (pre ++ "l"%char :: mid ++ post))
        by (rewrite rev_app_distr; cbn [rev];
            now rewrite rev_app_distr, <- !app_assoc).
      apply NoDup_rev.
      apply NoDup_app; [exact Npre | | ].
      - constructor.
        + intros Hin. apply in_app_or in Hin as [Hin | Hin];
            [now apply plain_not_bond in Pmid | now apply plain_not_bond in Ppost].
        + exact Nrest.
      - intros a Hin [<- | Hin2]; [now apply plain_not_bond in Ppre |].
        exact (Dpre a Hin Hin2). }
  cbn [bind]. rewrite app_nil_r.
  rewrite (output_shape_lookup _ _ (dpre ++ dmid ++ dpost) Hnd);
    [reflexivity | now rewrite !length_app, Lpre, Lmid, Lpost |].
  intros i c d Hc Hd.
  assert (Hcl : Ascii.eqb c "l" = false).
  { destruct (Ascii.eqb c "l") eqn:E; [| reflexivity].
    apply Ascii.eqb_eq in E. subst. apply nth_error_In in Hc.
    now apply plain_not_bond in Hall. }
  rewrite !rev_app_distr. cbn [rev]. rewrite !rev_involutive.
  rewrite <- !app_assoc. cbn [app].
  assert (Hsame : lookup c (List.combine pre dpre ++ ("l"%char, dx)
                           :: List.combine mid dmid ++ List.combine post dpost)
                  = lookup c (List.combine (pre ++ mid ++ post)
                                           (dpre ++ dmid ++ dpost))).
  { rewrite !combine_app by (symmetry; assumption).
    rewrite !lookup_app. cbn [lookup]. rewrite Hcl, ?lookup_app. reflexivity. }
  rewrite Hsame. eapply lookup_combine_nth; eassumption.
Qed.

Lemma trace_bonds_pair (pre mid post : list ascii) (x y : ascii)
  (dpre dmid dpost : list nat) (dx dy : nat) :
  bond_pair x y ->
  forallb plain_label (pre ++ mid ++ post) = true ->
  NoDup (pre ++ mid ++ post) ->
  length dpre = length pre -> length dmid = length mid ->
  length dpost = length post ->
  trace_bonds
    (mkContractable (mkTensor (dpre ++ dx :: dmid ++ dy :: dpost))
                    (string_of_list_ascii (pre ++ x :: mid ++ y :: post)))
  = if dx =? dy then Ok (mkTensor (dpre ++ dmid ++ dpost)) else Raise RuntimeError.
Proof.
  intros Hxy Hplain Hnd Lpre Lmid Lpost.
  unfold trace_bonds, trace_ein_str. cbn [c_bond_str c_tensor].
  rewrite chars_of_list.
  assert (Hall := Hplain).
  rewrite !forallb_app in Hplain.
  apply andb_true_iff in Hplain as [Ppre Hplain].
  apply andb_true_iff in Hplain as [Pmid Ppost].
  assert (Hbonds : in_lin_bonds x = true /\ in_lin_bonds y = true /\
                   existsb (Ascii.eqb "l") (pre ++ x :: mid ++ y :: post)
                   && existsb (Ascii.eqb "r") (pre ++ x :: mid ++ y :: post)
                   = true).
  { destruct Hxy as [[-> ->] | [-> ->]]; repeat split; try reflexivity.
    all: rewrite !existsb_app; cbn [existsb]; rewrite !existsb_app;
      cbn [existsb]; cbn [Ascii.eqb Bool.eqb]; cbn;
      rewrite ?orb_true_r; reflexivity. }
  destruct Hbonds as (Hx & Hy & ->).
  rewrite !trace_in_str_app, !trace_out_str_app. cbn [trace_in_str trace_out_str].
  rewrite !trace_in_str_app, !trace_out_str_app. cbn [trace_in_str trace_out_str].
  rewrite Hx, Hy.
  destruct (trace_str_plain pre Ppre) as [-> ->].
  destruct (trace_str_plain mid Pmid) as [-> ->].
  destruct (trace_str_plain post Ppost) as [-> ->].
  rewrite Nat.eqb_sym.
  exact (einsum_trace pre mid post dpre dmid dpost dx dy Hall Hnd Lpre Lmid Lpost).
Qed.

Section PeriodicFacts.

Variables SingleMat MatRegion OutputCore : Tensor -> result Contractable.
Variable EdgeVec : Tensor -> bool -> result Contractable.
Variable reduce : list Contractable -> bool -> result Contractable.

Lemma feed_length (module_list : list Module) (input_data : Tensor) :
  forall ind contractable_list,
    feed SingleMat MatRegion OutputCore module_list input_data ind
    = Ok contractable_list ->
    length contractable_list = length module_list.
Proof.
  induction module_list as [|m rest IH]; intros ind cl H.
  - cbn in H. apply Ok_inj in H. now subst.
  - cbn [feed] in H.
    destruct (mod_len m) as [n|]; cbn [bind] in H; [| discriminate H].
    match type of H with
    | bind ?x _ = _ => destruct x as [mod_input|]
    end; cbn [bind] in H; [| discriminate H].
    destruct (mod_forward _ _ _ m mod_input) as [c|]; cbn [bind] in H;
      [| discriminate H].
    destruct (feed _ _ _ rest input_data (ind + n)) as [cs|] eqn:E;
      cbn [bind] in H; [| discriminate H].
    apply Ok_inj in H. subst cl. cbn. f_equal. exact (IH _ _ E).
Qed.

(** C8: a forward call on a chain with periodic boundary makes no boundary
    vector: the list that is reduced holds one contractable for each core,
    whatever [EdgeVec] would do.  When the reduced tensor has the two bond
    axes [x] and [y], of the sizes [dx] and [dy], among axes with other
    labels, the call raises the shape error of the trace when [dx] and [dy]
    differ, and returns the tensor of the other axes, the two bond axes
    being summed over their diagonal, when they are equal. *)
Theorem periodic_forward_traces (module_list : list Module)
  (parallel_eval : bool) (input_data : Tensor) (n : nat)
  (contractable_list : list Contractable) (pre mid post : list ascii)
  (x y : ascii) (dpre dmid dpost : list nat) (dx dy : nat) :
  ndim input_data = 3 -> size input_data 1 = Ok n ->
  chain_len module_list = Ok n ->
  feed SingleMat MatRegion OutputCore module_list input_data 0
  = Ok contractable_list ->
  reduce contractable_list true
  = Ok (mkContractable (mkTensor (dpre ++ dx :: dmid ++ dy :: dpost))
                       (string_of_list_ascii (pre ++ x :: mid ++ y :: post))) ->
  bond_pair x y ->
  forallb plain_label (pre ++ mid ++ post) = true ->
  NoDup (pre ++ mid ++ post) ->
  length dpre = length pre -> length dmid = length mid ->
  length dpost = length post ->
  length contractable_list = length module_list /\
  LinearRegion_forward SingleMat MatRegion OutputCore EdgeVec reduce module_list
                       true parallel_eval input_data
  = if dx =? dy then Ok (mkTensor (dpre ++ dmid ++ dpost)) else Raise RuntimeError.
Proof.
  intros Hdim Hsize Hlen Hfeed Hred Hxy Hplain Hnd Lpre Lmid Lpost.
  split; [exact (feed_length _ _ _ _ Hfeed) |].
  unfold LinearRegion_forward. rewrite Hdim. cbn [Nat.eqb].
  rewrite Hsize. cbn [bind]. rewrite Hlen. cbn [bind]. rewrite Nat.eqb_refl.
  rewrite Hfeed. cbn [bind]. unfold forward_periodic. rewrite Hred. cbn [bind].
  now apply trace_bonds_pair.
Qed.

End PeriodicFacts.

Lemma periodic_forward_traces_witness :
  let input_data := mkTensor [4; 4; 2] in
  let contractable_list :=
    [mkContractable (mkTensor [4; 2; 3; 3]) "bslr";
     mkContractable (mkTensor [10; 3; 3]) "olr";
     mkContractable (mkTensor [4; 2; 3; 3]) "bslr"] in
  length contractable_list = length ring_modules /\
  LinearRegion_forward ShapeModel.SingleMat ShapeModel.MatRegion
                       ShapeModel.OutputCore ShapeModel.EdgeVec ShapeModel.reduce
                       ring_modules true false input_data
  = if 3 =? 3 then Ok (mkTensor ([4; 10] ++ [] ++ [])) else Raise RuntimeError.
Proof.
  cbv zeta.
  apply (periodic_forward_traces ShapeModel.SingleMat ShapeModel.MatRegion
           ShapeModel.OutputCore ShapeModel.EdgeVec ShapeModel.reduce
           ring_modules false (mkTensor [4; 4; 2]) 4
           [mkContractable (mkTensor [4; 2; 3; 3]) "bslr";
            mkContractable (mkTensor [10; 3; 3]) "olr";
            mkContractable (mkTensor [4; 2; 3; 3]) "bslr"]
           (chars "bo") [] [] "l"%char "r"%char [4; 10] [] [] 3 3).
  - reflexivity.
  - reflexivity.
  - reflexivity.
  - vm_compute. reflexivity.
  - vm_compute. reflexivity.
  - left. split; reflexivity.
  - reflexivity.
  - repeat constructor; cbn; intuition discriminate.
  - reflexivity.
  - reflexivity.
  - reflexivity.
Defined.

Example periodic_unequal_bonds :
  LinearRegion_forward ShapeModel.SingleMat ShapeModel.MatRegion
                       ShapeModel.OutputCore ShapeModel.EdgeVec ShapeModel.reduce
                       [Some (InputSite (mkTensor [3; 4; 2]))] true false
                       (mkTensor [5; 1; 2])
  = Raise RuntimeError.
Proof. vm_compute. reflexivity. Qed.

(** ** The fuel of the loops is enough *)

Lemma fueled_Ok {A : Type} (a : A) : fueled (Ok a).
Proof. discriminate. Qed.

Lemma fueled_bind {A B : Type} (m : result A) (k : A -> result B) :
  fueled m -> (forall a, m = Ok a -> fueled (k a)) -> fueled (bind m k).
Proof.
  intros Hm Hk. destruct m as [a | e]; cbn; [now apply Hk |].
  intros H. apply Hm. inversion H. reflexivity.
Qed.

Ltac fuel_step :=
  match goal with
  | |- fueled (Ok _) => apply fueled_Ok
  | |- fueled (Raise ?e) => discriminate
  | |- fueled (bind _ _) => apply fueled_bind; [| intros ? ?]
  | |- fueled (if ?b then _ else _) => destruct b eqn:?
  | |- fueled (match ?x with _ => _ end) => destruct x eqn:?
  | |- fueled (let '(_, _) := ?x in _) => destruct x eqn:?
  end.

Ltac fuel := repeat fuel_step; auto.

Lemma size_fueled t d : fueled (size t d).
Proof. unfold size. fuel. Qed.

Lemma operand_env_fueled subs : forall dims e, fueled (operand_env subs dims e).
Proof.
  induction subs as [|c subs IH]; intros [|d dims] e; cbn; fuel.
Qed.

Lemma broadcast_fueled a b : fueled (broadcast a b).
Proof. unfold broadcast. fuel. Qed.

Lemma merge_env_fueled loc : forall glob, fueled (merge_env loc glob).
Proof.
  induction loc as [|[c d] loc IH]; intros glob; cbn; fuel.
  apply broadcast_fueled.
Qed.

Lemma operands_env_fueled subs : forall ops e, fueled (operands_env subs ops e).
Proof.
  induction subs as [|s subs IH]; intros [|t ops] e; cbn; fuel.
  - apply operand_env_fueled.
  - apply merge_env_fueled.
Qed.

Lemma output_shape_fueled out e : fueled (output_shape out e).
Proof. induction out as [|c out IH]; cbn; fuel. Qed.

Lemma einsum_fueled eq ops : fueled (einsum eq ops).
Proof.
  unfold einsum. fuel.
  - apply operands_env_fueled.
  - apply output_shape_fueled.
Qed.

Lemma combine_fueled l r merging : fueled (combine l r merging).
Proof.
  unfold combine, mod_tensor, new_MergedOutput, cat0. fuel;
    apply einsum_fueled.
Qed.

Lemma mod_core_len_fueled m : fueled (mod_core_len m).
Proof.
  destruct m as [[t|t|t|t|t lo]|]; cbn; fuel; apply size_fueled.
Qed.

Lemma merge_scan_tail_fueled offset (n : nat) :
  forall rest site_num,
    length rest <= n -> fueled (merge_scan_tail offset rest site_num).
Proof.
  induction n as [|n IH]; intros rest site_num Hlen.
  - destruct rest; [cbn; fuel | simpl in Hlen; lia].
  - destruct rest as [|left_core [|right_core after]]; [cbn; fuel | cbn; fuel |].
    unfold merge_scan_tail. rewrite merge_scan_eq.
    apply fueled_bind; [apply combine_fueled | intros new_core _].
    assert (Hl : fueled (mod_core_len left_core)) by apply mod_core_len_fueled.
    assert (Hr : fueled (mod_core_len right_core)) by apply mod_core_len_fueled.
    assert (H1 : forall k, fueled (merge_scan_tail offset (right_core :: after) k)).
    { intros k. apply IH. simpl in Hlen |- *. lia. }
    assert (H2 : forall k, fueled (merge_scan_tail offset after k)).
    { intros k. apply IH. simpl in Hlen. lia. }
    destruct new_core as [c|].
    + destruct (offset =? site_num mod 2).
      * apply fueled_bind; [destruct c; cbn; fuel; apply size_fueled | intros ? _].
        apply fueled_bind; [exact Hl | intros ? _].
        apply fueled_bind; [exact Hr | intros ? _].
        fuel.
      * apply fueled_bind; [exact Hl | intros ? _]. fuel.
    + apply fueled_bind; [exact Hl | intros ? _]. fuel.
Qed.

Lemma merge_scan_fueled offset rest site_num :
  fueled (merge_scan offset rest site_num).
Proof.
  destruct (le_lt_dec 2 (length rest)) as [H | H].
  - rewrite merge_scan_as_tail by exact H.
    now apply (merge_scan_tail_fueled offset (length rest)).
  - rewrite merge_scan_short by exact H. apply fueled_Ok.
Qed.

Lemma merge_scan_length offset rest site_num out :
  merge_scan offset rest site_num = Ok out -> length out <= length rest.
Proof.
  intros H. destruct (le_lt_dec 2 (length rest)) as [Hlen | Hlen].
  - rewrite merge_scan_as_tail in H by exact Hlen.
    now destruct (merge_scan_tail_spec offset _ _ _ _ (le_n _) H).
  - rewrite merge_scan_short in H by exact Hlen.
    apply Ok_inj in H. subst. cbn. lia.
Qed.

(** the passes of [merge] never use up a fuel above the length of the list:
    a pass that goes on has made the list shorter *)
Lemma merge_passes_fueled offset (fuel : nat) :
  forall merged_list,
    length merged_list < fuel -> fueled (merge_passes fuel offset merged_list).
Proof.
  induction fuel as [|fuel IH]; intros merged_list Hlen; [lia |].
  cbn [merge_passes].
  apply fueled_bind; [apply merge_scan_fueled | intros combined Hscan].
  destruct (length combined =? length merged_list) eqn:E; [apply fueled_Ok |].
  apply IH. apply Nat.eqb_neq in E.
  pose proof (merge_scan_length _ _ _ _ Hscan). lia.
Qed.

Lemma unmerge_scan_eq left_core right_core after :
  unmerge_scan (left_core :: right_core :: after) =
  (new_core <- combine left_core right_core false ;;
   match new_core with
   | None =>
       tail <- unmerge_scan_tail (right_core :: after) ;;
       Ok (left_core :: tail)
   | Some c =>
       tail <- unmerge_scan_tail after ;;
       Ok (Some c :: tail)
   end).
Proof. reflexivity. Qed.

Lemma unmerge_scan_tail_spec (n : nat) :
  forall rest,
    length rest <= n ->
    fueled (unmerge_scan_tail rest) /\
    forall out, unmerge_scan_tail rest = Ok out -> length out <= length rest.
Proof.
  induction n as [|n IH]; intros rest Hlen.
  - destruct rest; [| simpl in Hlen; lia].
    split; [cbn; fuel |]. intros out H. apply Ok_inj in H. subst. cbn. lia.
  - destruct rest as [|left_core [|right_core after]].
    + split; [cbn; fuel |]. intros out H. apply Ok_inj in H. subst. cbn. lia.
    + split; [cbn; fuel |]. intros out H. apply Ok_inj in H. subst. cbn. lia.
    + unfold unmerge_scan_tail. rewrite unmerge_scan_eq.
      destruct (IH (right_core :: after) ltac:(simpl in Hlen |- *; lia)) as [F1 L1].
      destruct (IH after ltac:(simpl in Hlen; lia)) as [F2 L2].
      split.
      * apply fueled_bind; [apply combine_fueled | intros new_core _].
        destruct new_core; fuel.
      * intros out H.
        destruct (combine left_core right_core false) as [[c|]|];
          cbn [bind] in H; [| | discriminate H].
        -- destruct (unmerge_scan_tail after) as [tail|]; cbn [bind] in H;
             [| discriminate H].
           apply Ok_inj in H. subst. specialize (L2 _ eq_refl). simpl. lia.
        -- destruct (unmerge_scan_tail (right_core :: after)) as [tail|];
             cbn [bind] in H; [| discriminate H].
           apply Ok_inj in H. subst. specialize (L1 _ eq_refl). simpl in *. lia.
Qed.

Lemma unmerge_scan_spec rest :
  fueled (unmerge_scan rest) /\
  forall out, unmerge_scan rest = Ok out -> length out <= length rest.
Proof.
  destruct rest as [|a [|b rest]].
  - split; [cbn; fuel |]. intros out H. apply Ok_inj in H. subst. cbn. lia.
  - split; [cbn; fuel |]. intros out H. apply Ok_inj in H. subst. cbn. lia.
  - exact (unmerge_scan_tail_spec _ (a :: b :: rest) (le_n _)).
Qed.

Lemma unmerge_passes_fueled (fuel : nat) :
  forall unmerged_list,
    length unmerged_list < fuel -> fueled (unmerge_passes fuel unmerged_list).
Proof.
  induction fuel as [|fuel IH]; intros unmerged_list Hlen; [lia |].
  cbn [unmerge_passes].
  destruct (unmerge_scan_spec unmerged_list) as [Hf Hl].
  apply fueled_bind; [exact Hf | intros combined Hscan].
  destruct (length combined =? length unmerged_list) eqn:E; [apply fueled_Ok |].
  apply IH. apply Nat.eqb_neq in E. specialize (Hl _ Hscan). lia.
Qed.

Lemma slice_fueled axis t start stop step : fueled (slice axis t start stop step).
Proof.
  unfold slice. apply fueled_bind; [| intros; apply fueled_Ok].
  generalize (shape t). intros dims. revert axis.
  induction dims as [|n dims IH]; intros [|axis]; cbn; fuel.
Qed.

Lemma select_fueled axis t i : fueled (select axis t i).
Proof.
  unfold select. apply fueled_bind; [| intros; apply fueled_Ok].
  generalize (shape t). intros dims. revert axis.
  induction dims as [|n dims IH]; intros [|axis]; cbn; fuel.
Qed.

Lemma getitem_fueled t i : fueled (InputRegion_getitem t i).
Proof.
  unfold InputRegion_getitem. apply fueled_bind;
    [apply select_fueled | intros; apply fueled_Ok].
Qed.

Lemma new_MergedInput_fueled t : fueled (new_MergedInput t).
Proof. unfold new_MergedInput. fuel. Qed.

Lemma head_item_fueled l : fueled (head_item l).
Proof. unfold head_item. fuel. Qed.

Lemma InputRegion_merge_even_fueled f w m :
  size w 0 = Ok m -> m mod 2 = 0 -> fueled (InputRegion_merge_rec (S f) w 0).
Proof.
  intros Hsize Hpar.
  cbn -[Nat.modulo Nat.div slice einsum]. rewrite Hsize.
  cbn -[Nat.modulo Nat.div slice einsum]. rewrite Hpar.
  destruct (m =? 0); [apply fueled_Ok |].
  cbn -[Nat.modulo Nat.div slice einsum].
  apply fueled_bind; [| intros; apply fueled_Ok].
  apply fueled_bind; [apply slice_fueled | intros ? _].
  apply fueled_bind; [apply slice_fueled | intros ? _].
  apply fueled_bind; [apply size_fueled | intros ? _].
  apply fueled_bind; [apply size_fueled | intros ? _].
  match goal with
  | |- fueled (if ?b then _ else _) => destruct b; [| intros Hnf; discriminate Hnf]
  end.
  apply fueled_bind; [apply einsum_fueled | intros ? _].
  apply fueled_bind; [apply new_MergedInput_fueled | intros; apply fueled_Ok].
Qed.

Lemma InputRegion_merge_rec_fueled f t offset :
  (forall w m, size w 0 = Ok m -> m mod 2 = 0 ->
               fueled (InputRegion_merge_rec f w 0)) ->
  fueled (InputRegion_merge_rec (S f) t offset).
Proof.
  intros Hinner.
  cbn -[Nat.modulo Nat.div slice einsum InputRegion_getitem InputRegion_getslice
         not_None].
  destruct ((offset =? 0) || (offset =? 1)); [| intros Hnf; discriminate Hnf].
  apply fueled_bind; [apply size_fueled | intros n Hsize].
  destruct (n =? 0) eqn:En; [apply fueled_Ok |].
  apply Nat.eqb_neq in En.
  apply fueled_bind; [| intros; apply fueled_Ok].
  assert (Hodd : n mod 2 = 1 -> (n - 1) mod 2 = 0).
  { intros H. pose proof (Nat.div_mod_eq n 2). pose proof (Nat.div_mod_eq (n - 1) 2).
    pose proof (Nat.mod_upper_bound (n - 1) 2). lia. }
  assert (Heven : n mod 2 = 0 -> (n - 2) mod 2 = 0).
  { intros H. pose proof (Nat.div_mod_eq n 2). pose proof (Nat.div_mod_eq (n - 2) 2).
    pose proof (Nat.mod_upper_bound (n - 2) 2). lia. }
  destruct ((offset =? 1) && (n mod 2 =? 1)) eqn:B1.
  { apply andb_true_iff in B1 as [_ Hp]. apply Nat.eqb_eq in Hp.
    apply fueled_bind; [apply getitem_fueled | intros ? _].
    destruct (getslice_size t n (Some 1%Z) None Hsize) as (w & Hw & Hws).
    rewrite Hw. cbn [bind]. rewrite slice_len_tail in Hws.
    apply fueled_bind; [exact (Hinner w _ Hws (Hodd Hp)) | intros ? _].
    apply fueled_bind; [apply head_item_fueled | intros; apply fueled_Ok]. }
  destruct ((offset =? 1) && (n mod 2 =? 0)) eqn:B2.
  { apply andb_true_iff in B2 as [_ Hp]. apply Nat.eqb_eq in Hp.
    apply fueled_bind; [apply getitem_fueled | intros ? _].
    destruct (getslice_size t n (Some 1%Z) (Some (-1)%Z) Hsize) as (w & Hw & Hws).
    rewrite Hw. cbn [bind]. rewrite slice_len_mid in Hws.
    apply fueled_bind; [exact (Hinner w _ Hws (Heven Hp)) | intros ? _].
    apply fueled_bind; [apply head_item_fueled | intros ? _].
    apply fueled_bind; [apply getitem_fueled | intros; apply fueled_Ok]. }
  destruct ((offset =? 0) && (n mod 2 =? 1)) eqn:B3.
  { apply andb_true_iff in B3 as [_ Hp]. apply Nat.eqb_eq in Hp.
    destruct (getslice_size t n None (Some (-1)%Z) Hsize) as (w & Hw & Hws).
    rewrite Hw. cbn [bind]. rewrite slice_len_init in Hws.
    apply fueled_bind; [exact (Hinner w _ Hws (Hodd Hp)) | intros ? _].
    apply fueled_bind; [apply head_item_fueled | intros ? _].
    apply fueled_bind; [apply getitem_fueled | intros; apply fueled_Ok]. }
  apply fueled_bind; [apply slice_fueled | intros ? _].
  apply fueled_bind; [apply slice_fueled | intros ? _].
  apply fueled_bind; [apply size_fueled | intros ? _].
  apply fueled_bind; [apply size_fueled | intros ? _].
  match goal with
  | |- fueled (if ?b then _ else _) => destruct b; [| intros Hnf; discriminate Hnf]
  end.
  apply fueled_bind; [apply einsum_fueled | intros ? _].
  apply fueled_bind; [apply new_MergedInput_fueled | intros; apply fueled_Ok].
Qed.

(** the internal merge never uses up its fuel: it calls itself on an even
    number of sites only, where it answers at once *)
Lemma InputRegion_merge_fueled t offset : fueled (InputRegion_merge t offset).
Proof.
  apply InputRegion_merge_rec_fueled.
  intros w m. apply InputRegion_merge_even_fueled.
Qed.

(** the calls of the source: [merge] and [unmerge] run their passes with one
    unit of fuel more than the length of the list *)
Lemma merge_loop_fueled offset merged_list :
  fueled (merge_passes (S (length merged_list)) offset merged_list).
Proof. apply merge_passes_fueled. lia. Qed.

Lemma unmerge_loop_fueled unmerged_list :
  fueled (unmerge_passes (S (length unmerged_list)) unmerged_list).
Proof. apply unmerge_passes_fueled. lia. Qed.

(** ** The rescaling step, on values *)

Module RescaleFacts.
Import Rescale.

Section Arithmetic.

Variable F : Type.
Variable zero : F.
Variable sign : F -> comparison.
Variable neg_fin : F -> F.
Variables add_fin mul_fin : F -> F -> fval F.
Variables log_fin exp_fin : F -> fval F.
Variable div_fin : F -> nat -> fval F.
Variable norm : list (fval F) -> fval F.

Local Abbreviation flog := (flog log_fin).
Local Abbreviation fexp := (fexp zero exp_fin).
Local Abbreviation fadd := (fadd add_fin).
Local Abbreviation fsub := (fsub neg_fin add_fin).
Local Abbreviation fmul := (fmul sign mul_fin).
Local Abbreviation fdiv := (fdiv div_fin).
Local Abbreviation fsum := (fsum zero add_fin).
Local Abbreviation get_norm := (get_norm norm).
Local Abbreviation scale_core := (scale_core sign mul_fin).
Local Abbreviation rescale_all := (rescale_all sign mul_fin).
Local Abbreviation log_norms := (log_norms log_fin norm).
Local Abbreviation norm_count := (norm_count log_fin norm).
Local Abbreviation log_scale :=
  (log_scale zero add_fin log_fin div_fin norm).
Local Abbreviation factor := (factor zero neg_fin add_fin log_fin exp_fin).
Local Abbreviation rescale :=
  (rescale zero sign neg_fin add_fin mul_fin log_fin exp_fin div_fin norm).
Local Abbreviation norms := (norms norm).
Local Abbreviation rescaled :=
  (rescaled zero sign neg_fin add_fin mul_fin log_fin exp_fin norm).
Local Abbreviation all_zero := (all_zero zero).

Lemma rescale_all_scales (f : fval F -> fval F) (chain : list (VCore F)) :
  rescale_all (List.combine chain (map (map f) (log_norms chain)))
  = Ok (map (fun c =>
               match c with
               | Stacked cores =>
                   Stacked (map (fun core => scale_core core (f (flog (norm core))))
                                cores)
               | Single entries =>
                   Single (scale_core entries (f (flog (norm entries))))
               end) chain).
Proof.
  unfold Rescale.log_norms.
  induction chain as [|c chain IH]; [reflexivity |].
  cbn [map List.combine Rescale.rescale_all]. rewrite IH.
  destruct c as [cores | entries];
    cbn [Rescale.rescale_norm Rescale.get_norm map length].
  - rewrite !length_map, Nat.eqb_refl. cbn [bind]. do 3 f_equal.
    clear. induction cores as [|core cores IH]; [reflexivity |].
    cbn. now rewrite IH.
  - reflexivity.
Qed.

(** the step, when there is a norm at all, raises nothing *)
Lemma rescale_returns (chain : list (VCore F)) :
  0 < norm_count chain ->
  rescale chain = Ok (map (rescaled (log_scale chain)) chain).
Proof.
  intros Hcount. unfold Rescale.rescale.
  destruct (norm_count chain =? 0) eqn:E; [apply Nat.eqb_eq in E; lia |].
  cbv zeta. rewrite rescale_all_scales. reflexivity.
Qed.

(** a sum that has met [-inf] is [-inf] or NaN, whatever else it meets *)
Lemma fadd_sunk_l (a b : fval F) : sunk a -> sunk (fadd a b).
Proof.
  intros [-> | ->]; destruct b; cbn; unfold sunk; auto.
Qed.

Lemma fadd_sunk_r (a b : fval F) : sunk b -> sunk (fadd a b).
Proof.
  intros [-> | ->]; destruct a; cbn; unfold sunk; auto.
Qed.

Lemma fold_sunk (l : list (fval F)) :
  forall acc, sunk acc \/ Exists (@sunk F) l -> sunk (fold_left fadd l acc).
Proof.
  induction l as [|v l IH]; intros acc H; cbn [fold_left].
  - destruct H as [H | H]; [exact H | inversion H].
  - apply IH. destruct H as [H | H].
    + left. now apply fadd_sunk_l.
    + inversion H as [? ? Hv | ? ? Hl]; subst.
      * left. now apply fadd_sunk_r.
      * now right.
Qed.

Lemma fsum_sunk (l : list (fval F)) : Exists (@sunk F) l -> sunk (fsum l).
Proof. intros H. apply fold_sunk. now right. Qed.


(** the mean of the logarithms is [-inf] or NaN as soon as one norm is 0 *)
Lemma log_scale_sunk (chain : list (VCore F)) :
  log_fin zero = NegInf ->
  In (Fin zero) (norms chain) -> sunk (log_scale chain).
Proof.
  intros Hlog Hin. unfold Rescale.log_scale.
  assert (Hsum : sunk (fsum (map fsum (log_norms chain)))).
  { apply fsum_sunk. unfold Rescale.norms in Hin.
    apply in_concat in Hin as (ns & Hns & Hin).
    apply in_map_iff in Hns as (c & <- & Hc).
    apply Exists_exists. exists (fsum (map flog (get_norm c))). split.
    - unfold Rescale.log_norms. rewrite map_map.
      apply in_map_iff. exists c. split; [reflexivity | exact Hc].
    - apply fsum_sunk. apply Exists_exists. exists NegInf. split.
      + apply in_map_iff. exists (Fin zero). split; [exact Hlog | exact Hin].
      + now left. }
  destruct Hsum as [-> | ->]; cbn; unfold sunk; auto.
Qed.


Lemma factor_degenerate (ls : fval F) :
  log_fin zero = NegInf -> sunk ls -> factor ls (Fin zero) = NaN.
Proof.
  intros Hlog [-> | ->]; unfold Rescale.factor, Rescale.fsub; cbn [Rescale.flog];
    rewrite Hlog; reflexivity.
Qed.



End Arithmetic.

(** the laws of the value 0 hold of the real numbers *)
Lemma ideal_zero_laws : zero_laws 0%R Ideal.log_fin Ideal.norm.
Proof.
  split.
  - unfold Ideal.log_fin.
    destruct (Rlt_dec 0 0) as [H | _]; [lra |].
    destruct (Req_dec_T 0 0) as [_ | H]; [reflexivity | lra].
  - intros entries Hz. unfold Ideal.norm, fsum.
    assert (Hfold : forall acc, acc = 0%R ->
              fold_left (fadd Ideal.add_fin)
                        (map (fun x => fmul Ideal.sign Ideal.mul_fin x x) entries)
                        (Fin acc) = Fin 0%R).
    { induction Hz as [|x l -> _ IH]; intros acc ->; [reflexivity |].
      cbn [map fold_left fmul fadd]. unfold Ideal.mul_fin, Ideal.add_fin.
      apply IH. ring. }
    rewrite (Hfold 0%R eq_refl). cbn [Ideal.fsqrt].
    destruct (Rle_dec 0 0) as [_ | H]; [now rewrite sqrt_0 | lra].
Qed.


Example zero_core_becomes_nan :
  Ideal.rescale [Single [Fin 0%R; Fin 0%R]] = Ok [Single [NaN; NaN]].
Proof.
  unfold Ideal.rescale. rewrite rescale_returns by (cbn; lia).
  destruct ideal_zero_laws as [Hlog Hnorm].
  assert (Hn : Ideal.norm [Fin 0%R; Fin 0%R] = Fin 0%R)
    by (apply Hnorm; repeat constructor).
  cbn [map rescaled]. rewrite Hn, factor_degenerate; [reflexivity | exact Hlog |].
  apply (log_scale_sunk _ _ _ _ _ _ _ Hlog). cbn. now left.
Qed.


End RescaleFacts.

(** * Further properties of the code *)

(** ** [InputRegion.merge] *)

Lemma einsum_pairs (k D f : nat) :
  einsum "slui,surj->slrij" [mkTensor [k; D; D; f]; mkTensor [k; D; D; f]]
  = Ok (mkTensor [k; D; D; f; f]).
Proof.
  cbv -[Nat.eqb]. rewrite !Nat.eqb_refl. reflexivity.
Qed.

Lemma merge_rec_even fuel (m D f : nat) :
  0 < m -> m mod 2 = 0 ->
  InputRegion_merge_rec (S fuel) (mkTensor [m; D; D; f]) 0
  = Ok [Some (MergedInput (mkTensor [m / 2; D; D; f; f]))].
Proof.
  intros Hm Hpar.
  cbn -[Nat.modulo Nat.div slice einsum new_MergedInput].
  rewrite Hpar. destruct (m =? 0) eqn:E; [apply Nat.eqb_eq in E; lia |].
  cbn -[Nat.modulo Nat.div slice_len einsum new_MergedInput].
  rewrite slice_len_even0, slice_len_even1 by assumption.
  cbn -[Nat.modulo Nat.div einsum new_MergedInput].
  rewrite Nat.eqb_refl. rewrite einsum_pairs.
  cbn -[Nat.modulo Nat.div]. rewrite !Nat.eqb_refl. reflexivity.
Qed.

Lemma merge_rec_inner fuel (m D f : nat) :
  m mod 2 = 0 ->
  InputRegion_merge_rec (S fuel) (mkTensor [m; D; D; f]) 0
  = Ok [if m =? 0 then None
        else Some (MergedInput (mkTensor [m / 2; D; D; f; f]))].
Proof.
  intros Hpar. destruct (m =? 0) eqn:E.
  - apply Nat.eqb_eq in E. subst m. reflexivity.
  - apply Nat.eqb_neq in E. apply merge_rec_even; [lia | exact Hpar].
Qed.

Lemma getitem_site (n D f : nat) (i : Z) :
  0 < n -> (i = 0 \/ i = -1)%Z ->
  InputRegion_getitem (mkTensor [n; D; D; f]) i
  = Ok (InputSite (mkTensor [D; D; f])).
Proof.
  intros Hn Hi. unfold InputRegion_getitem, select. cbn [shape select_dims].
  assert (E : exists j, norm_index n i = Some j).
  { unfold norm_index. destruct Hi as [-> | ->]; cbn [Z.ltb Z.compare].
    - replace ((0 <=? 0)%Z && (0 <? Z.of_nat n)%Z) with true; [eauto |].
      symmetry. apply andb_true_iff. split; [reflexivity | apply Z.ltb_lt; lia].
    - replace ((0 <=? -1 + Z.of_nat n)%Z && (-1 + Z.of_nat n <? Z.of_nat n)%Z)
        with true; [eauto |].
      symmetry. apply andb_true_iff.
      split; [apply Z.leb_le; lia | apply Z.ltb_lt; lia]. }
  destruct E as [j ->]. reflexivity.
Qed.

Lemma getslice_region (n D f : nat) (start stop : option Z) :
  InputRegion_getslice (mkTensor [n; D; D; f]) start stop
  = Ok (mkTensor [slice_len n start stop 1; D; D; f]).
Proof. reflexivity. Qed.

Lemma odd_pred_even n : n mod 2 = 1 -> (n - 1) mod 2 = 0 /\ (n - 1) / 2 = n / 2.
Proof.
  intros H. pose proof (Nat.div_mod_eq n 2). pose proof (Nat.div_mod_eq (n - 1) 2).
  pose proof (Nat.mod_upper_bound (n - 1) 2). lia.
Qed.

Lemma even_pred2_even n :
  n mod 2 = 0 -> (n - 2) mod 2 = 0 /\ (n - 2) / 2 = n / 2 - 1.
Proof.
  intros H. pose proof (Nat.div_mod_eq n 2). pose proof (Nat.div_mod_eq (n - 2) 2).
  pose proof (Nat.mod_upper_bound (n - 2) 2). lia.
Qed.

Lemma merge_rec_layout g (n D f offset : nat) :
  (forall m, m mod 2 = 0 ->
     InputRegion_merge_rec g (mkTensor [m; D; D; f]) 0
     = Ok [if m =? 0 then None
           else Some (MergedInput (mkTensor [m / 2; D; D; f; f]))]) ->
  0 < n -> offset < 2 ->
  InputRegion_merge_rec (S g) (mkTensor [n; D; D; f]) offset
  = Ok (merge_layout n D f offset).
Proof.
  intros Hinner Hn Hoff.
  pose proof (Nat.div_mod_eq n 2) as Hdm.
  destruct (mod2_cases n) as [Hpar | Hpar].
  - (* even *)
    destruct offset as [|[|]]; [| | lia].
    + rewrite merge_rec_even by assumption.
      unfold merge_layout, site_core, pair_core; rewrite ?Hpar; reflexivity.
    + destruct (even_pred2_even n Hpar) as [Hp Hd].
      cbn -[Nat.modulo Nat.div InputRegion_getitem InputRegion_getslice
             slice einsum new_MergedInput not_None].
      destruct (n =? 0) eqn:E0; [apply Nat.eqb_eq in E0; lia |].
      rewrite Hpar.
      cbn -[Nat.modulo Nat.div InputRegion_getitem InputRegion_getslice
             slice einsum new_MergedInput not_None].
      rewrite !getitem_site by (auto; lia).
      rewrite getslice_region, slice_len_mid.
      cbn -[Nat.modulo Nat.div not_None].
      rewrite Hinner by exact Hp.
      cbn -[Nat.modulo Nat.div].
      unfold merge_layout, site_core, pair_core; rewrite ?Hpar; cbn [Nat.eqb].
      destruct (n =? 2) eqn:E2.
      * apply Nat.eqb_eq in E2. subst n. reflexivity.
      * apply Nat.eqb_neq in E2.
        destruct (n - 2 =? 0) eqn:E3; [apply Nat.eqb_eq in E3; lia |].
        rewrite Hd. reflexivity.
  - (* odd *)
    destruct (odd_pred_even n Hpar) as [Hp Hd].
    destruct offset as [|[|]]; [| | lia].
    + cbn -[Nat.modulo Nat.div InputRegion_getitem InputRegion_getslice
             slice einsum new_MergedInput not_None].
      destruct (n =? 0) eqn:E0; [apply Nat.eqb_eq in E0; lia |].
      rewrite Hpar.
      cbn -[Nat.modulo Nat.div InputRegion_getitem InputRegion_getslice
             slice einsum new_MergedInput not_None].
      rewrite !getitem_site by (auto; lia).
      rewrite getslice_region, slice_len_init.
      cbn -[Nat.modulo Nat.div not_None].
      rewrite Hinner by exact Hp.
      cbn -[Nat.modulo Nat.div].
      unfold merge_layout, site_core, pair_core; rewrite ?Hpar; cbn [Nat.eqb].
      destruct (n =? 1) eqn:E1.
      * apply Nat.eqb_eq in E1. subst n. reflexivity.
      * apply Nat.eqb_neq in E1.
        destruct (n - 1 =? 0) eqn:E3; [apply Nat.eqb_eq in E3; lia |].
        rewrite Hd. reflexivity.
    + cbn -[Nat.modulo Nat.div InputRegion_getitem InputRegion_getslice
             slice einsum new_MergedInput not_None].
      destruct (n =? 0) eqn:E0; [apply Nat.eqb_eq in E0; lia |].
      rewrite Hpar.
      cbn -[Nat.modulo Nat.div InputRegion_getitem InputRegion_getslice
             slice einsum new_MergedInput not_None].
      rewrite !getitem_site by (auto; lia).
      rewrite getslice_region, slice_len_tail.
      cbn -[Nat.modulo Nat.div not_None].
      rewrite Hinner by exact Hp.
      cbn -[Nat.modulo Nat.div].
      unfold merge_layout, site_core, pair_core; rewrite ?Hpar; cbn [Nat.eqb].
      destruct (n =? 1) eqn:E1.
      * apply Nat.eqb_eq in E1. subst n. reflexivity.
      * apply Nat.eqb_neq in E1.
        destruct (n - 1 =? 0) eqn:E3; [apply Nat.eqb_eq in E3; lia |].
        rewrite Hd. reflexivity.
Qed.

(** X1: a region of [n] sites, [n] positive, whose cores have square matrices
    is merged from the site [offset] on into one merged-input core of the
    pairs, with a single-input core at each end where a site is left over:
    the list has one, two or three entries, and no pair at all when the
    region has one site, or two sites and the offset 1. *)
Theorem InputRegion_merge_layout (n D f offset : nat) :
  0 < n -> offset < 2 ->
  InputRegion_merge (mkTensor [n; D; D; f]) offset = Ok (merge_layout n D f offset).
Proof.
  intros Hn Hoff. apply merge_rec_layout; [| exact Hn | exact Hoff].
  intros m. apply merge_rec_inner.
Qed.

Lemma InputRegion_merge_layout_witness :
  (0 < 6 /\ 1 < 2) /\
  InputRegion_merge (mkTensor [6; 3; 3; 2]) 1
  = Ok [Some (InputSite (mkTensor [3; 3; 2]));
        Some (MergedInput (mkTensor [2; 3; 3; 2; 2]));
        Some (InputSite (mkTensor [3; 3; 2]))].
Proof.
  split; [lia |]. apply (InputRegion_merge_layout 6 3 2 1); lia.
Defined.

(** ** The passes of [merge] and of [unmerge] *)

Lemma merge_passes_fuel (offset : nat) (f1 : nat) :
  forall f2 merged_list,
    length merged_list < f1 -> length merged_list < f2 ->
    merge_passes f1 offset merged_list = merge_passes f2 offset merged_list.
Proof.
  induction f1 as [|f1 IH]; intros f2 merged_list H1 H2; [lia |].
  destruct f2 as [|f2]; [lia |].
  cbn [merge_passes].
  destruct (merge_scan offset merged_list 0) as [combined|e] eqn:Hscan;
    [| reflexivity].
  cbn [bind].
  destruct (length combined =? length merged_list) eqn:E; [reflexivity |].
  apply Nat.eqb_neq in E.
  pose proof (merge_scan_length _ _ _ _ Hscan).
  apply IH; lia.
Qed.

Lemma unmerge_passes_fuel (f1 : nat) :
  forall f2 unmerged_list,
    length unmerged_list < f1 -> length unmerged_list < f2 ->
    unmerge_passes f1 unmerged_list = unmerge_passes f2 unmerged_list.
Proof.
  induction f1 as [|f1 IH]; intros f2 unmerged_list H1 H2; [lia |].
  destruct f2 as [|f2]; [lia |].
  cbn [unmerge_passes].
  destruct (unmerge_scan unmerged_list) as [combined|e] eqn:Hscan;
    [| reflexivity].
  cbn [bind].
  destruct (length combined =? length unmerged_list) eqn:E; [reflexivity |].
  apply Nat.eqb_neq in E.
  destruct (unmerge_scan_spec unmerged_list) as [_ Hl].
  specialize (Hl _ Hscan).
  apply IH; lia.
Qed.

(** X2: the loops of [merge] and of [unmerge] that repeat the passes stop:
    a pass that does not end the loop leaves a shorter list, so that one pass
    more than the list has entries is enough, and a larger bound on the
    number of passes changes nothing. *)
Theorem pass_loops_terminate (offset fuel : nat) (l : list Module) :
  length l < fuel ->
  (merge_passes fuel offset l = merge_passes (S (length l)) offset l /\
   merge_passes fuel offset l <> Raise OutOfFuel) /\
  (unmerge_passes fuel l = unmerge_passes (S (length l)) l /\
   unmerge_passes fuel l <> Raise OutOfFuel).
Proof.
  intros Hlen. split; split.
  - apply merge_passes_fuel; lia.
  - now apply merge_passes_fueled.
  - apply unmerge_passes_fuel; lia.
  - now apply unmerge_passes_fueled.
Qed.

Lemma pass_loops_terminate_witness :
  let l := [Some (InputSite (mkTensor [3; 3; 2]));
            Some (OutputSite (mkTensor [10; 3; 3]));
            Some (InputSite (mkTensor [3; 3; 2]))] in
  length l < 7 /\
  (merge_passes 7 0 l = merge_passes (S (length l)) 0 l /\
   merge_passes 7 0 l <> Raise OutOfFuel) /\
  (unmerge_passes 7 l = unmerge_passes (S (length l)) l /\
   unmerge_passes 7 l <> Raise OutOfFuel).
Proof.
  cbv zeta. split; [cbn; lia |].
  apply (pass_loops_terminate 0 7); cbn; lia.
Defined.

Lemma unmerge_passes_nil fuel l : unmerge_passes fuel [] = Ok l -> l = [].
Proof.
  destruct fuel as [|fuel]; [discriminate |].
  cbn. intros H. apply Ok_inj in H. now subst.
Qed.

(** X3: the loop of [merge] never ends with a list of one core.  A list of
    one core, and a list whose cores a pass fuses into one, is emptied by
    the next pass, which does not enter the window and compares the empty
    list it has built with the list of one core. *)
Theorem merge_passes_never_single (fuel offset : nat) :
  forall merged_list l,
    merge_passes fuel offset merged_list = Ok l ->
    length l <> 1 /\ (length merged_list = 1 -> l = []).
Proof.
  induction fuel as [|fuel IH]; intros merged_list l H; [discriminate H |].
  cbn [merge_passes] in H.
  apply bind_Ok in H as (combined & Hscan & H).
  destruct (le_lt_dec 2 (length merged_list)) as [Hlen | Hlen].
  - destruct (length combined =? length merged_list) eqn:E.
    + apply Ok_inj in H. subst l. split; lia.
    + split; [exact (proj1 (IH _ _ H)) | lia].
  - rewrite merge_scan_short in Hscan by exact Hlen.
    apply Ok_inj in Hscan. subst combined. cbn [length] in H.
    destruct merged_list as [|m [|m' rest]]; [| | cbn in Hlen; lia].
    + cbn in H. apply Ok_inj in H. subst l. split; [cbn; lia | reflexivity].
    + cbn [length Nat.eqb] in H. apply merge_passes_nil in H. subst l.
      split; [cbn; lia | reflexivity].
Qed.

Lemma merge_passes_never_single_witness :
  let merged_list := [Some (OutputSite (mkTensor [10; 3; 3]));
                      Some (InputSite (mkTensor [3; 3; 2]))] in
  merge_passes 3 0 merged_list = Ok [] /\
  length (@nil Module) <> 1 /\ (length merged_list = 1 -> @nil Module = []).
Proof.
  cbv zeta. split; [reflexivity |].
  apply (merge_passes_never_single 3 0
           [Some (OutputSite (mkTensor [10; 3; 3]));
            Some (InputSite (mkTensor [3; 3; 2]))] []).
  reflexivity.
Defined.

Lemma unmerge_passes_never_single (fuel : nat) :
  forall unmerged_list l,
    unmerge_passes fuel unmerged_list = Ok l ->
    length l <> 1 /\ (length unmerged_list = 1 -> l = []).
Proof.
  induction fuel as [|fuel IH]; intros unmerged_list l H; [discriminate H |].
  cbn [unmerge_passes] in H.
  apply bind_Ok in H as (combined & Hscan & H).
  destruct unmerged_list as [|m [|m' rest]].
  - cbn in Hscan. apply Ok_inj in Hscan. subst combined. cbn in H.
    apply Ok_inj in H. subst l. split; [cbn; lia | reflexivity].
  - cbn in Hscan. apply Ok_inj in Hscan. subst combined.
    cbn [length Nat.eqb] in H. apply unmerge_passes_nil in H. subst l.
    split; [cbn; lia | reflexivity].
  - destruct (length combined =? length (m :: m' :: rest)) eqn:E.
    + apply Ok_inj in H. subst l. split; cbn; lia.
    + split; [exact (proj1 (IH _ _ H)) | cbn; lia].
Qed.

(** ** What [combine] keeps *)

Lemma cat0_size (a b t : Tensor) :
  cat0 a b = Ok t ->
  exists n m, size a 0 = Ok n /\ size b 0 = Ok m /\ size t 0 = Ok (n + m).
Proof.
  unfold cat0, size. destruct (shape a) as [|n ra]; [intros H; discriminate H |].
  destruct (shape b) as [|m rb]; [intros H; discriminate H |].
  destruct (list_eqb ra rb); [| intros H; discriminate H].
  intros H. apply Ok_inj in H. subst t. cbn. eauto.
Qed.

Lemma combine_counts (left_core right_core : Module) (merging : bool) (c : Core) :
  combine left_core right_core merging = Ok (Some c) ->
  exists a b a' b',
    mod_core_len left_core = Ok a /\ mod_core_len right_core = Ok b /\
    core_len c = Ok (a + b) /\
    mod_len left_core = Ok a' /\ mod_len right_core = Ok b' /\
    len c = Ok (a' + b') /\
    count_outputs [Some c] = count_outputs [left_core; right_core].
Proof.
  destruct merging.
  - intros H. pose proof (combine_merging_core_len _ _ _ H) as (Hc & Hl & Hr).
    revert H Hc Hl Hr. unfold combine. cbn [andb negb].
    destruct left_core as [[tl|tl|tl|tl|tl lo]|];
      destruct right_core as [[tr|tr|tr|tr|tr ro]|]; cbn -[einsum];
      try (intros H; discriminate H).
    + destruct (einsum "lui,our->olri" [tl; tr]) as [t|]; cbn;
        [| intros H; discriminate H].
      unfold new_MergedOutput. destruct (length (shape t) =? 4); cbn;
        [| intros H; discriminate H].
      intros H. apply Ok_inj in H. inversion H; subst. intros _ _ _.
      exists 1, 1, 1, 0. repeat split; reflexivity.
    + destruct (einsum "olu,uri->olri" [tl; tr]) as [t|]; cbn;
        [| intros H; discriminate H].
      unfold new_MergedOutput. destruct (length (shape t) =? 4); cbn;
        [| intros H; discriminate H].
      intros H. apply Ok_inj in H. inversion H; subst. intros _ _ _.
      exists 1, 1, 0, 1. repeat split; reflexivity.
  - unfold combine. cbn [andb negb].
    destruct left_core as [[tl|tl|tl|tl|tl lo]|];
      destruct right_core as [[tr|tr|tr|tr|tr ro]|]; cbn -[cat0 list_eqb];
      try (intros H; discriminate H).
    + destruct (list_eqb _ _); [| intros H; discriminate H].
      destruct (cat0 tl (unsqueeze0 tr)) as [t|] eqn:Ecat; cbn [bind];
        [| intros H; discriminate H].
      intros H. apply Ok_inj in H. inversion H; subst.
      destruct (cat0_size _ _ _ Ecat) as (n & m & Hn & Hm & Ht).
      cbn in Hm. apply Ok_inj in Hm. subst m.
      exists n, 1, n, 1. cbn. rewrite Hn, Ht. repeat split; reflexivity.
    + destruct (list_eqb _ _); [| intros H; discriminate H].
      destruct (cat0 (unsqueeze0 tl) tr) as [t|] eqn:Ecat; cbn [bind];
        [| intros H; discriminate H].
      intros H. apply Ok_inj in H. inversion H; subst.
      destruct (cat0_size _ _ _ Ecat) as (n & m & Hn & Hm & Ht).
      cbn in Hn. apply Ok_inj in Hn. subst n.
      exists 1, m, 1, m. cbn. rewrite Hm, Ht. repeat split; reflexivity.
Qed.

(** X4: whenever [combine] returns a new core, the core counts for as many
    cores and as many input sites as the two cores it is made of, and it
    carries the output axis exactly when one of them does: the assertion on
    the core count in [merge] cannot fail. *)
Theorem combine_adds (left_core right_core : Module) (merging : bool) (c : Core) :
  combine left_core right_core merging = Ok (Some c) ->
  exists a b a' b',
    mod_core_len left_core = Ok a /\ mod_core_len right_core = Ok b /\
    core_len c = Ok (a + b) /\
    mod_len left_core = Ok a' /\ mod_len right_core = Ok b' /\
    len c = Ok (a' + b') /\
    count_outputs [Some c] = count_outputs [left_core; right_core].
Proof. apply combine_counts. Qed.

Lemma combine_adds_witness :
  let left_core := Some (InputRegion (mkTensor [4; 3; 3; 2])) in
  let right_core := Some (InputSite (mkTensor [3; 3; 2])) in
  let c := InputRegion (mkTensor [5; 3; 3; 2]) in
  combine left_core right_core false = Ok (Some c) /\
  exists a b a' b',
    mod_core_len left_core = Ok a /\ mod_core_len right_core = Ok b /\
    core_len c = Ok (a + b) /\
    mod_len left_core = Ok a' /\ mod_len right_core = Ok b' /\
    len c = Ok (a' + b') /\
    count_outputs [Some c] = count_outputs [left_core; right_core].
Proof.
  cbv zeta. split; [reflexivity |].
  apply (combine_adds (Some (InputRegion (mkTensor [4; 3; 3; 2])))
                      (Some (InputSite (mkTensor [3; 3; 2]))) false).
  reflexivity.
Defined.

(** ** A pass fuses neighbours and keeps the rest *)

Lemma merge_scan_tail_fused offset (n : nat) :
  forall rest site_num out,
    length rest <= n ->
    merge_scan_tail offset rest site_num = Ok out -> fused true rest out.
Proof.
  induction n as [|n IH]; intros rest site_num out Hlen H.
  - destruct rest; [| simpl in Hlen; lia].
    cbn in H. apply Ok_inj in H. subst out. constructor.
  - destruct rest as [|left_core [|right_core after]].
    + cbn in H. apply Ok_inj in H. subst out. constructor.
    + cbn in H. apply Ok_inj in H. subst out. repeat constructor.
    + unfold merge_scan_tail in H. rewrite merge_scan_eq in H.
      destruct (combine left_core right_core true) as [[c|]|] eqn:Ecomb;
        cbn [bind] in H; [| | discriminate H].
      * destruct (offset =? site_num mod 2).
        -- inv_bind H. apply Ok_inj in H. subst out.
           apply fused_pair; [exact Ecomb |].
           eapply IH; [| eassumption]. simpl in Hlen. lia.
        -- inv_bind H. apply Ok_inj in H. subst out.
           apply fused_keep.
           eapply IH; [| eassumption]. simpl in Hlen |- *. lia.
      * inv_bind H. apply Ok_inj in H. subst out.
        apply fused_keep.
        eapply IH; [| eassumption]. simpl in Hlen |- *. lia.
Qed.

Lemma unmerge_scan_tail_fused (n : nat) :
  forall rest out,
    length rest <= n ->
    unmerge_scan_tail rest = Ok out -> fused false rest out.
Proof.
  induction n as [|n IH]; intros rest out Hlen H.
  - destruct rest; [| simpl in Hlen; lia].
    cbn in H. apply Ok_inj in H. subst out. constructor.
  - destruct rest as [|left_core [|right_core after]].
    + cbn in H. apply Ok_inj in H. subst out. constructor.
    + cbn in H. apply Ok_inj in H. subst out. repeat constructor.
    + unfold unmerge_scan_tail in H. rewrite unmerge_scan_eq in H.
      destruct (combine left_core right_core false) as [[c|]|] eqn:Ecomb;
        cbn [bind] in H; [| | discriminate H].
      * inv_bind H. apply Ok_inj in H. subst out.
        apply fused_pair; [exact Ecomb |].
        eapply IH; [| eassumption]. simpl in Hlen. lia.
      * inv_bind H. apply Ok_inj in H. subst out.
        apply fused_keep.
        eapply IH; [| eassumption]. simpl in Hlen |- *. lia.
Qed.

(** X5: a pass of the sliding window over a list of two cores or more
    returns the list in which some pairs of neighbours are replaced by what
    [combine] makes of them, all the other cores being kept in their order:
    no core is dropped, repeated or moved. *)
Theorem pass_fuses_neighbours (offset site_num : nat) (l out : list Module) :
  2 <= length l ->
  (merge_scan offset l site_num = Ok out -> fused true l out) /\
  (unmerge_scan l = Ok out -> fused false l out).
Proof.
  intros Hlen. split; intros H.
  - rewrite merge_scan_as_tail in H by exact Hlen.
    exact (merge_scan_tail_fused offset (length l) l site_num out (le_n _) H).
  - apply (unmerge_scan_tail_fused (length l) l out (le_n _)).
    destruct l as [|a [|b l]]; [cbn in Hlen; lia | cbn in Hlen; lia | exact H].
Qed.

Lemma pass_fuses_neighbours_witness :
  let l := [Some (InputSite (mkTensor [3; 3; 2]));
            Some (OutputSite (mkTensor [10; 3; 3]));
            Some (InputSite (mkTensor [3; 3; 2]))] in
  let out := [Some (MergedOutput (mkTensor [10; 3; 3; 2]) false);
              Some (InputSite (mkTensor [3; 3; 2]))] in
  (2 <= length l /\ merge_scan 0 l 0 = Ok out) /\ fused true l out.
Proof.
  cbv zeta. split; [split; [cbn; lia | reflexivity] |].
  refine (proj1 (pass_fuses_neighbours 0 0 _ _ _) _); [cbn; lia | reflexivity].
Defined.

(** ** The counts of a chain under a pass *)

Lemma chain_len_cons m l :
  chain_len (m :: l) = (a <- mod_len m ;; b <- chain_len l ;; Ok (a + b)).
Proof.
  unfold chain_len. cbn [mapM].
  destruct (mod_len m) as [a|]; cbn [bind]; [| reflexivity].
  destruct (mapM mod_len l) as [ls|]; cbn [bind]; reflexivity.
Qed.

Lemma chain_len_app l1 l2 :
  chain_len (l1 ++ l2) = (a <- chain_len l1 ;; b <- chain_len l2 ;; Ok (a + b)).
Proof.
  induction l1 as [|m l1 IH]; cbn [app].
  - cbn. destruct (chain_len l2); reflexivity.
  - rewrite !chain_len_cons, IH.
    destruct (mod_len m) as [a|]; cbn [bind]; [| reflexivity].
    destruct (chain_len l1) as [b|]; cbn [bind]; [| reflexivity].
    destruct (chain_len l2) as [c|]; cbn [bind]; [| reflexivity].
    f_equal. lia.
Qed.

Lemma count_outputs_cons m l :
  count_outputs (m :: l) = count_outputs [m] + count_outputs l.
Proof. unfold count_outputs. cbn. destruct (bears_output m); reflexivity. Qed.

Lemma count_outputs_app l1 l2 :
  count_outputs (l1 ++ l2) = count_outputs l1 + count_outputs l2.
Proof. unfold count_outputs. now rewrite filter_app, length_app. Qed.

Lemma fused_core_len merging l l' :
  fused merging l l' ->
  forall c, chain_core_len l = Ok c -> chain_core_len l' = Ok c.
Proof.
  induction 1 as [|m l l' _ IH|a b c l l' Hcomb _ IH]; intros n Hn.
  - exact Hn.
  - rewrite chain_core_len_cons in Hn |- *.
    destruct (mod_core_len m) as [x|]; cbn [bind] in Hn |- *; [| discriminate Hn].
    destruct (chain_core_len l) as [y|]; cbn [bind] in Hn; [| discriminate Hn].
    now rewrite (IH _ eq_refl).
  - destruct (combine_counts _ _ _ _ Hcomb) as (x & y & _ & _ & Hx & Hy & Hc & _).
    rewrite !chain_core_len_cons, Hx, Hy in Hn. cbn [bind] in Hn.
    destruct (chain_core_len l) as [z|]; cbn [bind] in Hn; [| discriminate Hn].
    apply Ok_inj in Hn. subst n.
    rewrite chain_core_len_cons. cbn [mod_core_len]. rewrite Hc. cbn [bind].
    rewrite (IH _ eq_refl). cbn [bind]. f_equal. lia.
Qed.

Lemma fused_len merging l l' :
  fused merging l l' ->
  forall n, chain_len l = Ok n -> chain_len l' = Ok n.
Proof.
  induction 1 as [|m l l' _ IH|a b c l l' Hcomb _ IH]; intros n Hn.
  - exact Hn.
  - rewrite chain_len_cons in Hn |- *.
    destruct (mod_len m) as [x|]; cbn [bind] in Hn |- *; [| discriminate Hn].
    destruct (chain_len l) as [y|]; cbn [bind] in Hn; [| discriminate Hn].
    now rewrite (IH _ eq_refl).
  - destruct (combine_counts _ _ _ _ Hcomb)
      as (_ & _ & x & y & _ & _ & _ & Hx & Hy & Hc & _).
    rewrite !chain_len_cons, Hx, Hy in Hn. cbn [bind] in Hn.
    destruct (chain_len l) as [z|]; cbn [bind] in Hn; [| discriminate Hn].
    apply Ok_inj in Hn. subst n.
    rewrite chain_len_cons. cbn [mod_len]. rewrite Hc. cbn [bind].
    rewrite (IH _ eq_refl). cbn [bind]. f_equal. lia.
Qed.

Lemma merge_passes_invariant (P : list Module -> Prop) :
  (forall l l', fused true l l' -> P l -> P l') ->
  forall fuel offset merged_list l,
    merge_passes fuel offset merged_list = Ok l -> P merged_list ->
    l = [] \/ P l.
Proof.
  intros Hstep. induction fuel as [|fuel IH]; intros offset merged_list l H HP;
    [discriminate H |].
  cbn [merge_passes] in H.
  apply bind_Ok in H as (combined & Hscan & H).
  destruct (length combined =? length merged_list) eqn:E.
  - apply Ok_inj in H. subst l. now right.
  - destruct (le_lt_dec 2 (length merged_list)) as [Hlen | Hlen].
    + rewrite merge_scan_as_tail in Hscan by exact Hlen.
      apply (IH _ _ _ H). apply (Hstep merged_list); [| exact HP].
      exact (merge_scan_tail_fused _ _ _ _ _ (le_n _) Hscan).
    + rewrite merge_scan_short in Hscan by exact Hlen.
      apply Ok_inj in Hscan. subst combined.
      left. exact (merge_passes_nil _ _ _ H).
Qed.

Lemma unmerge_passes_invariant (P : list Module -> Prop) :
  (forall l l', fused false l l' -> P l -> P l') ->
  forall fuel unmerged_list l,
    unmerge_passes fuel unmerged_list = Ok l -> P unmerged_list ->
    l = [] \/ P l.
Proof.
  intros Hstep. induction fuel as [|fuel IH]; intros unmerged_list l H HP;
    [discriminate H |].
  cbn [unmerge_passes] in H.
  apply bind_Ok in H as (combined & Hscan & H).
  destruct (length combined =? length unmerged_list) eqn:E.
  - apply Ok_inj in H. subst l. now right.
  - destruct unmerged_list as [|a [|b rest]].
    + cbn in Hscan. apply Ok_inj in Hscan. subst combined. discriminate E.
    + cbn in Hscan. apply Ok_inj in Hscan. subst combined.
      left. exact (unmerge_passes_nil _ _ H).
    + apply (IH _ _ H). apply (Hstep (a :: b :: rest)); [| exact HP].
      exact (unmerge_scan_tail_fused _ (a :: b :: rest) _ (le_n _) Hscan).
Qed.

(** ** What [merge] makes of the cores *)

Lemma head_item_kind (P : Module -> bool) (l : list Module) (m : Module) :
  forallb P l = true -> head_item l = Ok m -> P m = true.
Proof.
  destruct l as [|x l]; cbn; [intros _ H; discriminate H |].
  intros HP H. apply Ok_inj in H. subst. now apply andb_true_iff in HP.
Qed.

Lemma getitem_kind (t : Tensor) (i : Z) (c : Core) :
  InputRegion_getitem t i = Ok c -> exists u, c = InputSite u.
Proof.
  unfold InputRegion_getitem. intros H. inv_bind H.
  apply Ok_inj in H. eauto.
Qed.

Lemma not_None_kind (l : list Module) :
  forallb merged_input_kind l = true ->
  forallb merged_input_kind (not_None l) = true /\
  forallb (fun m => match m with Some _ => true | None => false end) (not_None l)
  = true.
Proof.
  unfold not_None.
  induction l as [|m l IH]; cbn; [auto |].
  intros H. apply andb_true_iff in H as [Hm Hl].
  destruct (IH Hl) as [H1 H2].
  destruct m as [c|]; cbn; [| auto].
  rewrite H1, H2. cbn in Hm. rewrite Hm. auto.
Qed.

Lemma InputRegion_merge_rec_kinds (fuel : nat) :
  forall t offset l,
    InputRegion_merge_rec fuel t offset = Ok l ->
    forallb merged_input_kind l = true /\
    (forall n, size t 0 = Ok n -> 0 < n -> forallb merged_kind l = true).
Proof.
  induction fuel as [|fuel IH]; intros t offset l H; [discriminate H |].
  cbn -[Nat.modulo Nat.div slice einsum InputRegion_getitem InputRegion_getslice
         not_None new_MergedInput] in H.
  destruct ((offset =? 0) || (offset =? 1)); [| discriminate H].
  apply bind_Ok in H as (n & Hsize & H).
  destruct (n =? 0) eqn:En.
  { apply Ok_inj in H. subst l. split; [reflexivity |].
    intros n' Hn' Hpos. rewrite Hsize in Hn'. apply Ok_inj in Hn'.
    apply Nat.eqb_eq in En. lia. }
  apply bind_Ok in H as (out_list & Hout & H).
  apply Ok_inj in H. subst l.
  enough (Hk : forallb merged_input_kind out_list = true).
  { destruct (not_None_kind _ Hk) as [H1 H2]. split; [exact H1 |].
    intros _ _ _. clear - H1 H2. induction (not_None out_list) as [|m l IHl];
      [reflexivity |].
    cbn in H1, H2 |- *. apply andb_true_iff in H1 as [Hm Hl].
    apply andb_true_iff in H2 as [Hs Hl2]. rewrite (IHl Hl Hl2).
    destruct m as [[| | | |]|]; try discriminate; reflexivity. }
  assert (IH' : forall w inner, InputRegion_merge_rec fuel w 0 = Ok inner ->
                                forallb merged_input_kind inner = true)
    by (intros w inner Hi; exact (proj1 (IH _ _ _ Hi))).
  clear IH. rename IH' into IH.
  destruct ((offset =? 1) && (n mod 2 =? 1)).
  { inv_bind Hout. apply Ok_inj in Hout. subst out_list.
    destruct (getitem_kind _ _ _ Hx) as [u ->].
    cbn. rewrite (head_item_kind _ _ _ (IH _ _ Hx1) Hx2). reflexivity. }
  destruct ((offset =? 1) && (n mod 2 =? 0)).
  { inv_bind Hout. apply Ok_inj in Hout. subst out_list.
    destruct (getitem_kind _ _ _ Hx) as [u ->].
    destruct (getitem_kind _ _ _ Hx3) as [v ->].
    cbn. rewrite (head_item_kind _ _ _ (IH _ _ Hx1) Hx2). reflexivity. }
  destruct ((offset =? 0) && (n mod 2 =? 1)).
  { inv_bind Hout. apply Ok_inj in Hout. subst out_list.
    destruct (getitem_kind _ _ _ Hx2) as [v ->].
    cbn. rewrite (head_item_kind _ _ _ (IH _ _ Hx0) Hx1). reflexivity. }
  inv_bind Hout. apply Ok_inj in Hout. subst out_list.
  unfold new_MergedInput in Hx4. inv_bind Hx4. apply Ok_inj in Hx4. subst.
  reflexivity.
Qed.

Lemma kind_no_output (l : list Module) :
  forallb merged_input_kind l = true -> count_outputs l = 0.
Proof.
  induction l as [|m l IH]; [reflexivity |]. cbn [forallb].
  intros H. apply andb_true_iff in H as [Hm Hl].
  rewrite count_outputs_cons, (IH Hl).
  destruct m as [[| | | |]|]; try discriminate Hm; reflexivity.
Qed.

(** the site count of a chain whose core count is defined *)
Lemma chain_len_of_core_len (l : list Module) :
  forall c, chain_core_len l = Ok c ->
            chain_len l = Ok (c - count_outputs l) /\ count_outputs l <= c.
Proof.
  induction l as [|m l IH]; intros c Hc.
  - cbn in Hc. apply Ok_inj in Hc. subst. split; reflexivity.
  - rewrite chain_core_len_cons in Hc.
    destruct (mod_core_len m) as [a|] eqn:Ea; cbn [bind] in Hc; [| discriminate Hc].
    destruct (chain_core_len l) as [b|]; cbn [bind] in Hc; [| discriminate Hc].
    apply Ok_inj in Hc. subst c.
    destruct (IH _ eq_refl) as [Hl Hle].
    rewrite chain_len_cons, Hl, count_outputs_cons.
    destruct m as [[t|t|t|t|t lo]|]; cbn in Ea |- *.
    + rewrite Ea. cbn. split; [f_equal |]; lia.
    + destruct (size t 0); cbn in Ea |- *; [| discriminate Ea].
      apply Ok_inj in Ea. subst a. split; [f_equal |]; lia.
    + apply Ok_inj in Ea. subst a. split; [f_equal |]; lia.
    + apply Ok_inj in Ea. subst a. split; [f_equal |]; lia.
    + apply Ok_inj in Ea. subst a. split; [f_equal |]; lia.
    + discriminate Ea.
Qed.

Lemma merge_cores_outputs :
  forall unmerged_list site_num merged_list,
    merge_cores unmerged_list site_num = Ok merged_list ->
    count_outputs merged_list = count_outputs unmerged_list.
Proof.
  induction unmerged_list as [|core rest IH]; intros site_num merged_list H.
  - cbn in H. apply Ok_inj in H. now subst.
  - cbn [merge_cores] in H.
    destruct (negb (is_MergedInput core)); [| discriminate H].
    destruct (negb (is_MergedOutput core)); [| discriminate H].
    apply bind_Ok in H as (new_cores & Hnew & H).
    apply bind_Ok in H as (n & Hn & H).
    apply bind_Ok in H as (tail & Htail & H).
    apply Ok_inj in H. subst merged_list.
    rewrite count_outputs_app, count_outputs_cons, (IH _ _ Htail).
    f_equal.
    destruct core as [[t|t|t|t|t lo]|]; try (apply Ok_inj in Hnew; now subst).
    unfold InputRegion_merge in Hnew.
    now rewrite (kind_no_output _ (proj1 (InputRegion_merge_rec_kinds _ _ _ _ Hnew))).
Qed.

Lemma combine_merging_kind left_core right_core c :
  combine left_core right_core true = Ok (Some c) ->
  exists t b, c = MergedOutput t b.
Proof.
  unfold combine. cbn [andb negb].
  destruct left_core as [[tl|tl|tl|tl|tl lo]|];
    destruct right_core as [[tr|tr|tr|tr|tr ro]|]; cbn -[einsum];
    try (intros H; discriminate H);
    intros H; inv_bind H; unfold new_MergedOutput in *;
    match goal with
    | Hn : (if ?b then _ else _) = Ok _ |- _ => destruct b; [| discriminate Hn];
                                                 apply Ok_inj in Hn
    end; apply Ok_inj in H; inversion H; subst; eauto.
Qed.

Lemma fused_merged_kind l l' :
  fused true l l' -> forallb merged_kind l = true -> forallb merged_kind l' = true.
Proof.
  induction 1 as [|m l l' _ IH|a b c l l' Hcomb _ IH]; intros H.
  - reflexivity.
  - cbn in H |- *. apply andb_true_iff in H as [Hm Hl]. now rewrite Hm, IH.
  - destruct (combine_merging_kind _ _ _ Hcomb) as (t & lo & ->).
    cbn in H |- *. apply andb_true_iff in H as [_ H].
    apply andb_true_iff in H as [_ H]. now apply IH.
Qed.

Lemma merge_cores_kinds :
  forall unmerged_list site_num merged_list,
    forallb region_has_sites unmerged_list = true ->
    merge_cores unmerged_list site_num = Ok merged_list ->
    forallb merged_kind merged_list = true.
Proof.
  induction unmerged_list as [|core rest IH]; intros site_num merged_list Hs H.
  - cbn in H. apply Ok_inj in H. now subst.
  - cbn [forallb] in Hs. apply andb_true_iff in Hs as [Hcore Hrest].
    cbn [merge_cores] in H.
    destruct (negb (is_MergedInput core)); [| discriminate H].
    destruct (negb (is_MergedOutput core)); [| discriminate H].
    apply bind_Ok in H as (new_cores & Hnew & H).
    apply bind_Ok in H as (n & Hn & H).
    apply bind_Ok in H as (tail & Htail & H).
    apply Ok_inj in H. subst merged_list.
    rewrite forallb_app, (IH _ _ Hrest Htail), andb_true_r.
    destruct core as [[t|t|t|t|t lo]|]; try (apply Ok_inj in Hnew; now subst).
    unfold InputRegion_merge in Hnew.
    cbn in Hcore. destruct (shape t) as [|m sh] eqn:Esh; [discriminate Hcore |].
    assert (Hm : 0 < m) by (destruct m; [discriminate Hcore | lia]).
    apply (proj2 (InputRegion_merge_rec_kinds _ _ _ _ Hnew) m); [| exact Hm].
    unfold size. now rewrite Esh.
Qed.

(** under merging, [combine] fuses the pairs of [combine_rule] only *)
Lemma combine_rule_merging (left_core right_core : Module) :
  match combine left_core right_core true with
  | Ok (Some _) => combine_rule left_core right_core true = true
  | Ok None => combine_rule left_core right_core true = false
  | Raise _ => True
  end.
Proof.
  unfold combine, combine_rule. cbn [andb negb orb].
  destruct ((is_OutputSite left_core && is_InputSite right_core)
            || (is_InputSite left_core && is_OutputSite right_core)).
  - cbn [orb].
    destruct (mod_tensor left_core); cbn [bind]; [| exact I].
    destruct (mod_tensor right_core); cbn [bind]; [| exact I].
    match goal with
    | |- context [bind ?m _] => destruct m; cbn [bind]; [| exact I]
    end.
    match goal with
    | |- context [bind ?m _] => destruct m; cbn [bind]; [| exact I]
    end.
    reflexivity.
  - reflexivity.
Qed.

(** a pass shortens a list to half its length at most, and a list that it
    has shortened holds a merged input+output core *)
Lemma fused_shape (l l' : list Module) :
  fused true l l' ->
  length l' <= length l /\ length l <= 2 * length l' /\
  (length l' < length l -> Exists (fun m => is_MergedOutput m = true) l').
Proof.
  induction 1 as [|m l l' _ (IH0 & IH1 & IH2)|a b c l l' Hcomb _ (IH0 & IH1 & IH2)].
  - cbn. repeat split; lia.
  - cbn [length]. split; [lia | split; [lia |]]. intros Hlt.
    apply Exists_cons_tl. apply IH2. lia.
  - cbn [length]. split; [lia | split; [lia |]]. intros _.
    destruct (combine_merging_kind _ _ _ Hcomb) as (t & lo & ->).
    now apply Exists_cons_hd.
Qed.

Lemma merged_output_alone (offset : nat) (l : list Module) :
  2 <= length l -> Exists (fun m => is_MergedOutput m = true) l ->
  fuses_to_one offset l = false.
Proof.
  intros Hlen Hex.
  destruct l as [|x [|y [|z l]]]; [cbn in Hlen; lia | cbn in Hlen; lia | |
                                   reflexivity].
  cbn [fuses_to_one]. apply andb_false_iff. right.
  unfold combine_rule. cbn [andb negb orb].
  inversion Hex as [? ? Hx | ? ? Hy]; subst.
  - destruct x as [[| | | |]|]; try discriminate Hx. reflexivity.
  - inversion Hy as [? ? Hy' | ? ? Hn]; subst; [| inversion Hn].
    destruct y as [[| | | |]|]; try discriminate Hy'.
    cbn. now rewrite !andb_false_r.
Qed.

(** the pass loop of [merge] leaves the empty list for the lists of
    [fuses_to_one], and two cores at least for every other list *)
Lemma merge_passes_emptied (offset : nat) :
  forall fuel merged_list l,
    merge_passes fuel offset merged_list = Ok l ->
    if fuses_to_one offset merged_list then l = [] else 2 <= length l.
Proof.
  induction fuel as [|fuel IH]; intros merged_list l H; [discriminate H |].
  cbn [merge_passes] in H.
  apply bind_Ok in H as (combined & Hscan & H).
  destruct merged_list as [|a [|b [|c rest]]].
  - cbn in Hscan. apply Ok_inj in Hscan. subst combined.
    cbn in H. apply Ok_inj in H. now subst l.
  - cbn in Hscan. apply Ok_inj in Hscan. subst combined.
    cbn [length Nat.eqb] in H. cbn [fuses_to_one].
    exact (merge_passes_nil _ _ _ H).
  - rewrite merge_scan_eq in Hscan. cbn [fuses_to_one].
    pose proof (combine_rule_merging a b) as Hrule.
    destruct (combine a b true) as [[core|]|e]; cbn [bind] in Hscan;
      [| | discriminate Hscan].
    + rewrite Hrule, andb_true_r. cbn [Nat.modulo Nat.divmod fst snd Nat.sub]
        in Hscan.
      change (0 mod 2) with 0 in Hscan.
      destruct (offset =? 0) eqn:Eoff.
      * inv_bind Hscan. apply Ok_inj in Hscan. subst combined.
        match goal with
        | Ht : merge_scan_tail _ [] _ = Ok ?t |- _ =>
            cbn in Ht; apply Ok_inj in Ht; subst t
        end.
        cbn [length Nat.eqb] in H.
        exact (IH [Some core] l H).
      * inv_bind Hscan. apply Ok_inj in Hscan. subst combined.
        match goal with
        | Ht : merge_scan_tail _ [b] _ = Ok ?t |- _ =>
            cbn in Ht; apply Ok_inj in Ht; subst t
        end.
        cbn [length Nat.eqb] in H. apply Ok_inj in H. subst l. cbn. lia.
    + rewrite Hrule, andb_false_r.
      inv_bind Hscan. apply Ok_inj in Hscan. subst combined.
      match goal with
      | Ht : merge_scan_tail _ [b] _ = Ok ?t |- _ =>
          cbn in Ht; apply Ok_inj in Ht; subst t
      end.
      cbn [length Nat.eqb] in H. apply Ok_inj in H. subst l. cbn. lia.
  - cbn [fuses_to_one].
    rewrite merge_scan_as_tail in Hscan by (cbn; lia).
    pose proof (merge_scan_tail_fused _ _ _ _ _ (le_n _) Hscan) as Hf.
    destruct (fused_shape _ _ Hf) as (Hle & Hhalf & Hmo).
    destruct (length combined =? length (a :: b :: c :: rest)) eqn:E.
    + apply Ok_inj in H. subst l. cbn. lia.
    + apply Nat.eqb_neq in E.
      assert (Hlt : length combined < length (a :: b :: c :: rest)) by lia.
      cbn [length] in Hhalf.
      specialize (IH combined l H).
      rewrite (merged_output_alone offset combined) in IH;
        [exact IH | lia | now apply Hmo].
Qed.

Section MergeFacts.

Variable Float : Type.

Lemma merge_fresh_counts (self self' : MergedLinearRegion Float) (k : nat)
  (ul : list Module) (c : nat) :
  merged_attr self k = None -> get_module_list self = Ok ul ->
  forallb region_has_sites ul = true -> chain_core_len ul = Ok c ->
  merge self k = Ok self' ->
  exists ml l,
    merge_cores ul k = Ok ml /\
    merge_passes (S (length ml)) k ml = Ok l /\
    self' = set_merged_attr self k l /\ merged_attr self' k = Some l /\
    (l = [] \/
     (chain_core_len l = Ok c /\ chain_len l = chain_len ul /\
      forallb merged_kind l = true)).
Proof.
  intros Hattr Hget Hsites Hc H. unfold merge in H.
  destruct ((k =? 0) || (k =? 1)) eqn:Hk; [| discriminate H].
  rewrite Hget in H. cbn [bind] in H.
  apply bind_Ok in H as (ml & Hml & H).
  apply bind_Ok in H as (l & Hl & H).
  rewrite Hattr in H. apply Ok_inj in H. subst self'.
  exists ml, l. split; [exact Hml |]. split; [exact Hl |].
  split; [reflexivity |]. split.
  { apply orb_true_iff in Hk as [Hk | Hk]; apply Nat.eqb_eq in Hk; subst k;
      reflexivity. }
  destruct (merge_cores_core_len _ _ _ Hsites Hml) as (c' & Hc' & Hmlc).
  rewrite Hc in Hc'. apply Ok_inj in Hc'. subst c'.
  pose proof (merge_cores_outputs _ _ _ Hml) as Hout.
  pose proof (merge_cores_kinds _ _ _ Hsites Hml) as Hkind.
  destruct (chain_len_of_core_len _ _ Hc) as [Hlen_ul _].
  destruct (chain_len_of_core_len _ _ Hmlc) as [Hlen_ml _].
  rewrite Hout, <- Hlen_ul in Hlen_ml.
  refine (merge_passes_invariant
            (fun l => chain_core_len l = Ok c /\ chain_len l = chain_len ul /\
                      forallb merged_kind l = true) _ _ _ _ _ Hl _).
  - intros l1 l2 Hf (H1 & H2 & H3). split; [| split].
    + exact (fused_core_len _ _ _ Hf _ H1).
    + rewrite Hlen_ul in H2 |- *. exact (fused_len _ _ _ Hf _ H2).
    + exact (fused_merged_kind _ _ Hf H3).
  - auto.
Qed.

(** X6: a call of [merge] that builds a merged list (the attribute is not
    set yet) from a chain all of whose input regions have a site.  The first
    loop makes a list [ml] of the chain.  When [ml] has one core at most,
    or, at the offset 0, is an output site beside a single-input core, the
    call stores the empty list.  For every other chain it stores a list of
    two cores at least that counts as many cores and as many input sites as
    the chain and holds no input region, so that the second loop of a later
    [unmerge] finds no core it refuses. *)
Theorem merge_keeps_counts (self self' : MergedLinearRegion Float) (k : nat)
  (ul : list Module) (c : nat) :
  merged_attr self k = None -> get_module_list self = Ok ul ->
  forallb region_has_sites ul = true -> chain_core_len ul = Ok c ->
  merge self k = Ok self' ->
  exists ml l,
    merge_cores ul k = Ok ml /\
    merged_attr self' k = Some l /\
    if fuses_to_one k ml then l = []
    else 2 <= length l /\
         chain_core_len l = Ok c /\ chain_len l = chain_len ul /\
         forallb merged_kind l = true.
Proof.
  intros Hattr Hget Hsites Hc H.
  destruct (merge_fresh_counts self self' k ul c Hattr Hget Hsites Hc H)
    as (ml & l & Hml & Hpass & _ & Hl & Hcounts).
  exists ml, l. split; [exact Hml |]. split; [exact Hl |].
  pose proof (merge_passes_emptied k _ _ _ Hpass) as Hlen.
  destruct (fuses_to_one k ml); [exact Hlen |].
  split; [exact Hlen |].
  destruct Hcounts as [-> | Hcounts]; [cbn in Hlen; lia | exact Hcounts].
Qed.

End MergeFacts.

Lemma merge_keeps_counts_witness :
  let ul := mps_module_list 5 10 3 2 2 in
  let self := mkMLR (Own ul) None None false false 0 0%Z 10%Z
                    ShapeModel.default_cutoff in
  (merged_attr self 1 = None /\ get_module_list self = Ok ul /\
   forallb region_has_sites ul = true /\ chain_core_len ul = Ok 6 /\
   merge self 1 = Ok (set_merged_attr self 1 merged_1)) /\
  exists ml l,
    merge_cores ul 1 = Ok ml /\
    merged_attr (set_merged_attr self 1 merged_1) 1 = Some l /\
    if fuses_to_one 1 ml then l = []
    else 2 <= length l /\
         chain_core_len l = Ok 6 /\ chain_len l = chain_len ul /\
         forallb merged_kind l = true.
Proof.
  cbv zeta. split; [repeat split; reflexivity |].
  apply (merge_keeps_counts ShapeModel.Float
           (mkMLR (Own (mps_module_list 5 10 3 2 2)) None None false false 0 0%Z
                  10%Z ShapeModel.default_cutoff)
           _ 1 (mps_module_list 5 10 3 2 2) 6); reflexivity.
Defined.

(** a chain of one output site and one input site: at the offset 0 the two
    cores are fused and the list is left empty, at the offset 1 they are
    kept *)
Example merge_two_cores :
  let ul := [Some (OutputSite (mkTensor [10; 3; 3]));
             Some (InputSite (mkTensor [3; 3; 2]))] in
  let self := mkMLR (Own ul) None None false false 0 0%Z 10%Z
                    ShapeModel.default_cutoff in
  fuses_to_one 0 ul = true /\
  merge self 0 = Ok (set_merged_attr self 0 []) /\
  fuses_to_one 1 ul = false /\
  merge self 1 = Ok (set_merged_attr self 1 ul).
Proof. cbv zeta. repeat split; reflexivity. Qed.

(** ** What [unmerge] makes of the cores *)

Lemma stack_size (ts : list Tensor) (t : Tensor) :
  stack ts = Ok t -> size t 0 = Ok (length ts).
Proof.
  unfold stack. destruct ts as [|u rest]; [intros H; discriminate H |].
  destruct (forallb _ rest); [| intros H; discriminate H].
  intros H. apply Ok_inj in H. subst t. reflexivity.
Qed.

Lemma rescale_nil : rescale [] = Raise ZeroDivisionError.
Proof. reflexivity. Qed.

Section UnmergeFacts.

Variable Float : Type.
Variable svd_flex :
  Tensor -> string -> nat -> Float -> result (Tensor * Tensor * Z).

Lemma split_cores_cores (merged_cores : list Tensor) (max_D : nat) (cut : Float) :
  forall cs bs ss,
    split_cores svd_flex merged_cores max_D cut = Ok (cs, bs, ss) ->
    length cs = 2 * length merged_cores.
Proof.
  induction merged_cores as [|t rest IH]; intros cs bs ss H.
  - cbn in H. apply Ok_inj in H. inversion H; subst. reflexivity.
  - cbn [split_cores] in H.
    destruct (svd_flex t _ max_D cut) as [[[lc rc] bd]|]; cbn [bind] in H;
      [| discriminate H].
    destruct (split_cores svd_flex rest max_D cut) as [[[cs' bs'] ss']|];
      cbn [bind] in H; [| discriminate H].
    apply Ok_inj in H. inversion H; subst.
    pose proof (IH _ _ _ eq_refl). cbn [length]. lia.
Qed.

(** what the unmerging of one core leaves: as many cores, and an output
    core exactly when the core carried the output axis *)
Lemma unmerge_core_counts (core : Module) (cut : Float) (rest : list Module)
  (ul : list Module) (bl : list Z) (sl : list SvEntry) (n : nat) :
  unmerge_cores svd_flex [core] cut = Ok (ul, bl, sl) ->
  mod_core_len core = Ok n ->
  chain_core_len ul = Ok n /\ count_outputs ul = count_outputs [core].
Proof.
  intros H Hn. cbn [unmerge_cores] in H.
  destruct core as [[t|t|t|t|t lo]|]; cbn in Hn.
  - discriminate H.
  - unfold MergedInput_unmerge in H.
    destruct (size t 1) as [max_D|]; cbn [bind] in H; [| discriminate H].
    destruct (iter0 t) as [mcs|] eqn:Eit; cbn [bind] in H; [| discriminate H].
    destruct (split_cores svd_flex mcs max_D cut) as [[[cs bs] ss]|] eqn:Esp;
      cbn [bind] in H; [| discriminate H].
    destruct (stack cs) as [t'|] eqn:Est; cbn [bind] in H; [| discriminate H].
    apply Ok_inj in H. inversion H; subst. clear H.
    destruct (size t 0) as [m|] eqn:Em; cbn [bind] in Hn; [| discriminate Hn].
    apply Ok_inj in Hn. subst n.
    pose proof (split_cores_cores _ _ _ _ _ _ Esp) as Hcs.
    rewrite (iter0_length _ _ _ Eit Em) in Hcs.
    apply stack_size in Est. rewrite Hcs in Est.
    split; [| reflexivity].
    cbn [app]. rewrite chain_core_len_cons. cbn [mod_core_len core_len len].
    rewrite Est. cbn. f_equal. lia.
  - apply Ok_inj in H, Hn. inversion H; subst. split; reflexivity.
  - apply Ok_inj in H, Hn. inversion H; subst. split; reflexivity.
  - apply Ok_inj in Hn. subst n. unfold MergedOutput_unmerge in H.
    destruct lo.
    + destruct (size t 2) as [max_D|]; cbn [bind] in H; [| discriminate H].
      destruct (svd_flex t _ max_D cut) as [[[oc ic] bd]|]; cbn [bind] in H;
        [| discriminate H].
      apply Ok_inj in H. inversion H; subst. split; reflexivity.
    + destruct (size t 1) as [max_D|]; cbn [bind] in H; [| discriminate H].
      destruct (svd_flex t _ max_D cut) as [[[oc ic] bd]|]; cbn [bind] in H;
        [| discriminate H].
      apply Ok_inj in H. inversion H; subst. split; reflexivity.
  - discriminate Hn.
Qed.

Lemma unmerge_cores_cons (core : Module) (rest : list Module) (cut : Float) :
  unmerge_cores svd_flex (core :: rest) cut =
  ('(new_cores, new_bonds, new_svs) <- unmerge_cores svd_flex [core] cut ;;
   '(unmerged_list, bond_list, sv_list) <- unmerge_cores svd_flex rest cut ;;
   Ok (new_cores ++ unmerged_list, new_bonds ++ bond_list, new_svs ++ sv_list)).
Proof.
  cbn [unmerge_cores].
  match goal with
  | |- bind ?m _ = _ => destruct m as [[[ncs nbs] nss]|]
  end; cbn [bind]; [| reflexivity].
  rewrite !app_nil_r. reflexivity.
Qed.

Lemma unmerge_cores_counts (merged_list : list Module) (cut : Float) :
  forall ul bl sl c,
    unmerge_cores svd_flex merged_list cut = Ok (ul, bl, sl) ->
    chain_core_len merged_list = Ok c ->
    chain_core_len ul = Ok c /\ count_outputs ul = count_outputs merged_list.
Proof.
  induction merged_list as [|core rest IH]; intros ul bl sl c H Hc.
  - cbn in H. apply Ok_inj in H. inversion H; subst. split; [exact Hc | reflexivity].
  - rewrite unmerge_cores_cons in H.
    destruct (unmerge_cores svd_flex [core] cut) as [[[ncs nbs] nss]|] eqn:Enew;
      cbn [bind] in H; [| discriminate H].
    destruct (unmerge_cores svd_flex rest cut) as [[[ul' bl'] sl']|] eqn:Erest;
      cbn [bind] in H; [| discriminate H].
    apply Ok_inj in H. inversion H; subst. clear H.
    rewrite chain_core_len_cons in Hc.
    destruct (mod_core_len core) as [n|] eqn:En; cbn [bind] in Hc;
      [| discriminate Hc].
    destruct (chain_core_len rest) as [c'|] eqn:Ec'; cbn [bind] in Hc;
      [| discriminate Hc].
    apply Ok_inj in Hc. subst c.
    destruct (IH _ _ _ _ eq_refl eq_refl) as [H1 H2].
    destruct (unmerge_core_counts core cut rest _ _ _ _ Enew En) as [H3 H4].
    rewrite chain_core_len_app, H3, H1. cbn [bind].
    rewrite count_outputs_app, H4, H2, (count_outputs_cons core rest).
    split; reflexivity.
Qed.

Lemma unmerge_counts (self self' : MergedLinearRegion Float) (cut : Float)
  (bl : list Z) (sl : list SvEntry) (ml : list Module) (c : nat) :
  merged_attr self (offset self) = Some ml -> chain_core_len ml = Ok c ->
  unmerge svd_flex self cut = Ok (self', bl, sl) ->
  exists ul,
    self' = set_module_list self (Own ul) /\ 2 <= length ul /\
    chain_core_len ul = Ok c /\ chain_len ul = chain_len ml.
Proof.
  intros Hattr Hc H. unfold unmerge in H. rewrite Hattr in H. cbn [bind] in H.
  destruct (unmerge_cores svd_flex ml cut) as [[[ul0 bl0] sl0]|] eqn:Ecores;
    cbn [bind] in H; [| discriminate H].
  destruct (unmerge_passes (S (length ul0)) ul0) as [ul|] eqn:Epass;
    cbn [bind] in H; [| discriminate H].
  destruct (rescale ul) as [[]|] eqn:Eres; cbn [bind] in H; [| discriminate H].
  apply Ok_inj in H. inversion H; subst. clear H.
  exists ul. split; [reflexivity |].
  destruct (unmerge_cores_counts _ _ _ _ _ _ Ecores Hc) as [Hc0 Hout].
  destruct (chain_len_of_core_len _ _ Hc) as [Hlen_ml _].
  destruct (chain_len_of_core_len _ _ Hc0) as [Hlen_0 _].
  rewrite Hout, <- Hlen_ml in Hlen_0.
  assert (Hne : ul <> []) by (intros ->; rewrite rescale_nil in Eres; discriminate Eres).
  pose proof (proj1 (unmerge_passes_never_single _ _ _ Epass)) as Hsingle.
  split; [destruct ul as [|a [|b ul]]; cbn in *; try lia; congruence |].
  destruct (unmerge_passes_invariant
              (fun l => chain_core_len l = Ok c /\ chain_len l = chain_len ml))
    with (fuel := S (length ul0)) (unmerged_list := ul0) (l := ul)
    as [Hnil | Hcounts]; auto.
  - intros l1 l2 Hf (H1 & H2). split.
    + exact (fused_core_len _ _ _ Hf _ H1).
    + rewrite Hlen_ml in H2 |- *. exact (fused_len _ _ _ Hf _ H2).
  - contradiction.
Qed.

(** X7: a call of [unmerge] that returns leaves the chain with a list of its
    own that has two cores at least and counts as many cores and as many
    input sites as the merged list it was made of.  A merged list that
    unmerges into one core only, such as a single merged-input core, is
    emptied by the passes, and the division by the number of norms, which is
    0, raises. *)
Theorem unmerge_keeps_counts (self self' : MergedLinearRegion Float) (cut : Float)
  (bl : list Z) (sl : list SvEntry) (ml : list Module) (c : nat) :
  merged_attr self (offset self) = Some ml -> chain_core_len ml = Ok c ->
  unmerge svd_flex self cut = Ok (self', bl, sl) ->
  exists ul,
    module_list self' = Own ul /\ 2 <= length ul /\
    chain_core_len ul = Ok c /\ chain_len ul = chain_len ml.
Proof.
  intros Hattr Hc H.
  destruct (unmerge_counts self self' cut bl sl ml c Hattr Hc H)
    as (ul & -> & Hrest).
  exists ul. split; [reflexivity | exact Hrest].
Qed.

End UnmergeFacts.

Lemma unmerge_keeps_counts_witness :
  let self := eager_chain in
  let res := unmerge ShapeModel.svd_flex self ShapeModel.default_cutoff in
  (merged_attr self (offset self) = Some merged_0 /\
   chain_core_len merged_0 = Ok 6 /\
   exists self' bl sl, res = Ok (self', bl, sl) /\
     exists ul,
       module_list self' = Own ul /\ 2 <= length ul /\
       chain_core_len ul = Ok 6 /\ chain_len ul = chain_len merged_0).
Proof.
  cbv zeta. split; [reflexivity | split; [reflexivity |]].
  destruct (unmerge ShapeModel.svd_flex eager_chain ShapeModel.default_cutoff)
    as [[[self' bl] sl]|e] eqn:E; [| vm_compute in E; discriminate E].
  exists self', bl, sl. split; [reflexivity |].
  apply (unmerge_keeps_counts ShapeModel.Float ShapeModel.svd_flex eager_chain
           self' ShapeModel.default_cutoff bl sl merged_0 6);
    [reflexivity | reflexivity | exact E].
Defined.

Example unmerge_single_core :
  unmerge ShapeModel.svd_flex
          (mkMLR (Alias 0) (Some [Some (MergedInput (mkTensor [2; 3; 3; 2; 2]))])
                 None false false 0 0%Z 0%Z ShapeModel.default_cutoff)
          ShapeModel.default_cutoff
  = Raise ZeroDivisionError.
Proof. vm_compute. reflexivity. Qed.

(** ** The lists that a structural cycle returns *)

Lemma aligned_vectors (bl : list Z) (sl : list SvEntry) :
  Forall2 aligned bl sl ->
  forall i b, nth_error bl i = Some b -> b <> (-1)%Z ->
              exists sv_vec, nth_error sl i = Some (SvVec sv_vec).
Proof.
  induction 1 as [|b s bl sl Hbs _ IH]; intros i b' Hi Hne.
  - destruct i; discriminate Hi.
  - destruct i as [|i]; cbn in Hi |- *.
    + inversion Hi; subst. destruct s as [|v]; [| eauto].
      exfalso. apply Hne. now apply Hbs.
    + exact (IH _ _ Hi Hne).
Qed.

Section ListFacts.

Variable Float : Type.
Variable svd_flex :
  Tensor -> string -> nat -> Float -> result (Tensor * Tensor * Z).
Variables SingleMat MatRegion OutputCore : Tensor -> result Contractable.
Variable EdgeVec : Tensor -> bool -> result Contractable.
Variable reduce : list Contractable -> bool -> result Contractable.

Local Abbreviation fwd :=
  (forward svd_flex SingleMat MatRegion OutputCore EdgeVec reduce).
Local Abbreviation MPS_fwd :=
  (MPS_forward svd_flex SingleMat MatRegion OutputCore EdgeVec reduce).

Lemma aligned_unset : aligned (-1)%Z SvUnset.
Proof. intros _. reflexivity. Qed.

Lemma aligned_vec (b : Z) (v : Tensor) : aligned b (SvVec v).
Proof. intros H. discriminate H. Qed.

Lemma split_cores_aligned (merged_cores : list Tensor) (max_D : nat) (cut : Float) :
  forall cs bs ss,
    split_cores svd_flex merged_cores max_D cut = Ok (cs, bs, ss) ->
    Forall2 aligned bs ss.
Proof.
  induction merged_cores as [|t rest IH]; intros cs bs ss H.
  - cbn in H. apply Ok_inj in H. inversion H; subst. constructor.
  - cbn [split_cores] in H.
    destruct (svd_flex t _ max_D cut) as [[[lc rc] bd]|]; cbn [bind] in H;
      [| discriminate H].
    destruct (split_cores svd_flex rest max_D cut) as [[[cs' bs'] ss']|];
      cbn [bind] in H; [| discriminate H].
    apply Ok_inj in H. inversion H; subst.
    constructor; [apply aligned_vec |].
    constructor; [apply aligned_unset |]. now apply (IH _ _ _ eq_refl).
Qed.

Lemma unmerge_cores_aligned (merged_list : list Module) (cut : Float) :
  forall ul bl sl,
    unmerge_cores svd_flex merged_list cut = Ok (ul, bl, sl) ->
    Forall2 aligned bl sl.
Proof.
  induction merged_list as [|core rest IH]; intros ul bl sl H.
  - cbn in H. apply Ok_inj in H. inversion H; subst. constructor.
  - cbn [unmerge_cores] in H.
    match type of H with
    | bind ?m _ = _ => destruct m as [[[ncs nbs] nss]|] eqn:Enew
    end; cbn [bind] in H; [| discriminate H].
    destruct (unmerge_cores svd_flex rest cut) as [[[ul' bl'] sl']|] eqn:Erest;
      cbn [bind] in H; [| discriminate H].
    apply Ok_inj in H. inversion H; subst. clear H.
    apply Forall2_app; [| now apply (IH _ _ _ eq_refl)].
    destruct core as [[t|t|t|t|t lo]|].
    + discriminate Enew.
    + unfold MergedInput_unmerge in Enew.
      destruct (size t 1) as [max_D|]; cbn [bind] in Enew; [| discriminate Enew].
      destruct (iter0 t) as [mcs|]; cbn [bind] in Enew; [| discriminate Enew].
      destruct (split_cores svd_flex mcs max_D cut) as [[[cs bs] ss]|] eqn:Esp;
        cbn [bind] in Enew; [| discriminate Enew].
      destruct (stack cs); cbn [bind] in Enew; [| discriminate Enew].
      apply Ok_inj in Enew. inversion Enew; subst. cbn [tl].
      exact (split_cores_aligned _ _ _ _ _ _ Esp).
    + apply Ok_inj in Enew. inversion Enew; subst.
      constructor; [apply aligned_unset | constructor].
    + apply Ok_inj in Enew. inversion Enew; subst.
      constructor; [apply aligned_unset | constructor].
    + unfold MergedOutput_unmerge in Enew. destruct lo.
      * destruct (size t 2) as [max_D|]; cbn [bind] in Enew; [| discriminate Enew].
        destruct (svd_flex t _ max_D cut) as [[[oc ic] bd]|]; cbn [bind] in Enew;
          [| discriminate Enew].
        apply Ok_inj in Enew. inversion Enew; subst. cbn [tl].
        constructor; [apply aligned_vec |].
        constructor; [apply aligned_unset | constructor].
      * destruct (size t 1) as [max_D|]; cbn [bind] in Enew; [| discriminate Enew].
        destruct (svd_flex t _ max_D cut) as [[[oc ic] bd]|]; cbn [bind] in Enew;
          [| discriminate Enew].
        apply Ok_inj in Enew. inversion Enew; subst. cbn [tl].
        constructor; [apply aligned_vec |].
        constructor; [apply aligned_unset | constructor].
    + apply Ok_inj in Enew. inversion Enew; subst.
      constructor; [apply aligned_unset | constructor].
Qed.

Lemma unmerge_aligned (self self' : MergedLinearRegion Float) (cut : Float)
  (bl : list Z) (sl : list SvEntry) :
  unmerge svd_flex self cut = Ok (self', bl, sl) ->
  Forall2 aligned bl sl /\
  nth_error bl 0 = Some (-1)%Z /\ nth_error sl 0 = Some SvUnset.
Proof.
  intros H. unfold unmerge in H.
  destruct (merged_attr self (offset self)) as [l|]; cbn [bind] in H;
    [| discriminate H].
  destruct (unmerge_cores svd_flex l cut) as [[[ul bl'] sl']|] eqn:Ecores;
    cbn [bind] in H; [| discriminate H].
  destruct (unmerge_passes (S (length ul)) ul) as [ul'|]; cbn [bind] in H;
    [| discriminate H].
  destruct (rescale ul'); cbn [bind] in H; [| discriminate H].
  apply Ok_inj in H. inversion H; subst. clear H.
  split; [| split; reflexivity].
  constructor; [apply aligned_unset |].
  exact (unmerge_cores_aligned _ _ _ _ _ Ecores).
Qed.

(** a triple that a forward call returns holds the lists of [unmerge] *)
Lemma forward_triple_unmerge (self self' : MergedLinearRegion Float) (x : Tensor)
  (o : Tensor) (bl : list Z) (sl : list SvEntry) :
  fwd self x = (self', Ok (OutTriple o bl sl)) ->
  exists s1, unmerge svd_flex self (cutoff self) = Ok (s1, bl, sl).
Proof.
  intros H. unfold forward in H.
  destruct (threshold_hit self).
  - destruct (unmerge svd_flex self (cutoff self)) as [[[s1 bl1] sl1]|] eqn:Eun;
      [| inversion H].
    match type of H with
    | match merge ?s ?k with _ => _ end = _ => destruct (merge s k) as [s3|]
    end; [| inversion H].
    apply contract_returns in H as (b & o' & _ & _ & Hout).
    cbn [truthy] in Hout. destruct bl1 as [|b1 bl1]; [discriminate Hout |].
    inversion Hout; subst. eauto.
  - apply contract_returns in H as (b & o' & _ & _ & Hout).
    cbn [truthy] in Hout. discriminate Hout.
Qed.

(** X8: the two lists that a forward call of the adaptive chain returns
    after a structural cycle have the same length, begin with the sentinel,
    and hold a vector of singular values wherever the bond dimension is not
    the sentinel -1. *)
Theorem forward_lists_aligned (self self' : MergedLinearRegion Float) (x : Tensor)
  (o : Tensor) (bl : list Z) (sl : list SvEntry) :
  fwd self x = (self', Ok (OutTriple o bl sl)) ->
  length bl = length sl /\
  nth_error bl 0 = Some (-1)%Z /\ nth_error sl 0 = Some SvUnset /\
  forall i b, nth_error bl i = Some b -> b <> (-1)%Z ->
              exists sv_vec, nth_error sl i = Some (SvVec sv_vec).
Proof.
  intros H. destruct (forward_triple_unmerge _ _ _ _ _ _ H) as [s1 Hun].
  destruct (unmerge_aligned _ _ _ _ _ Hun) as (Hal & Hb0 & Hs0).
  split; [exact (Forall2_length Hal) |]. split; [exact Hb0 |].
  split; [exact Hs0 |].
  exact (aligned_vectors _ _ Hal).
Qed.

End ListFacts.

Lemma forward_lists_aligned_witness :
  let bl := [-1; 3; -1; 3; -1; 3; -1]%Z in
  let sl := [SvUnset; SvVec (mkTensor [3]); SvUnset; SvVec (mkTensor [3]);
             SvUnset; SvVec (mkTensor [3]); SvUnset] in
  ShapeModel.forward eager_chain batch_of_4
  = (fst (ShapeModel.forward eager_chain batch_of_4),
     Ok (OutTriple (mkTensor [4; 10]) bl sl)) /\
  length bl = length sl /\
  nth_error bl 0 = Some (-1)%Z /\ nth_error sl 0 = Some SvUnset /\
  forall i b, nth_error bl i = Some b -> b <> (-1)%Z ->
              exists sv_vec, nth_error sl i = Some (SvVec sv_vec).
Proof.
  cbv zeta.
  assert (Hfwd : ShapeModel.forward eager_chain batch_of_4
                 = (fst (ShapeModel.forward eager_chain batch_of_4),
                    Ok (OutTriple (mkTensor [4; 10]) [-1; 3; -1; 3; -1; 3; -1]%Z
                          [SvUnset; SvVec (mkTensor [3]); SvUnset;
                           SvVec (mkTensor [3]); SvUnset; SvVec (mkTensor [3]);
                           SvUnset])))
    by (vm_compute; reflexivity).
  split; [exact Hfwd |].
  exact (forward_lists_aligned ShapeModel.Float ShapeModel.svd_flex
           ShapeModel.SingleMat ShapeModel.MatRegion ShapeModel.OutputCore
           ShapeModel.EdgeVec ShapeModel.reduce eager_chain _ batch_of_4 _ _ _ Hfwd).
Defined.

(** ** The bookkeeping of a model over its life *)

Lemma update_lists_lengths (new_bonds : list Z) :
  forall (i : nat) (new_svs : list SvEntry) (D : nat) (bl : list Z)
         (sl : list SvEntry) bl' sl' r,
    update_lists i new_bonds new_svs D bl sl = (bl', sl', r) ->
    length bl' = length bl /\ length sl' = length sl.
Proof.
  induction new_bonds as [|b new_bonds IH]; intros i new_svs D bl sl bl' sl' r H.
  - cbn in H. inversion H; subst. split; reflexivity.
  - cbn [update_lists] in H.
    destruct (negb (b =? -1)%Z); [| exact (IH _ _ _ _ _ _ _ _ H)].
    destruct (nth_error new_svs i) as [[|v]|];
      try (inversion H; subst; split; reflexivity).
    destruct (negb (i <? length bl));
      [inversion H; subst; split; reflexivity |].
    destruct (negb (i <? length (sl)));
      [inversion H; subst; split; [apply list_set_length | reflexivity] |].
    destruct (negb (fits_row v D));
      [inversion H; subst; split; [apply list_set_length | reflexivity] |].
    destruct (IH _ _ _ _ _ _ _ _ H) as [H1 H2].
    rewrite H1, H2, !list_set_length. split; reflexivity.
Qed.

(** with a vector wherever the bond dimension is set, and lists that are
    long enough, the loop ends or stops at a row that does not fit *)
Lemma update_lists_outcome (new_bonds : list Z) :
  forall (i : nat) (new_svs : list SvEntry) (D : nat) (bl : list Z)
         (sl : list SvEntry) bl' sl' r,
    (forall j b, nth_error new_bonds j = Some b -> b <> (-1)%Z ->
                 exists v, nth_error new_svs (i + j) = Some (SvVec v)) ->
    i + length new_bonds <= length bl -> i + length new_bonds <= length sl ->
    update_lists i new_bonds new_svs D bl sl = (bl', sl', r) ->
    r = Ok tt \/ r = Raise RuntimeError.
Proof.
  induction new_bonds as [|b new_bonds IH];
    intros i new_svs D bl sl bl' sl' r Hvec Hbl Hsl H.
  - cbn in H. inversion H; subst. now left.
  - cbn [update_lists] in H. cbn [length] in Hbl, Hsl.
    assert (Hvec' : forall j b0, nth_error new_bonds j = Some b0 -> b0 <> (-1)%Z ->
                      exists v, nth_error new_svs (S i + j) = Some (SvVec v)).
    { intros j b0 Hj Hne. destruct (Hvec (S j) b0 Hj Hne) as [v Hv].
      exists v. now replace (S i + j) with (i + S j) by lia. }
    destruct (b =? -1)%Z eqn:Eb; cbn [negb] in H.
    + refine (IH _ _ _ _ _ _ _ _ Hvec' _ _ H); lia.
    + apply Z.eqb_neq in Eb.
      destruct (Hvec 0 b eq_refl Eb) as [v Hv]. rewrite Nat.add_0_r in Hv.
      rewrite Hv in H.
      assert (E1 : (i <? length bl) = true) by (apply Nat.ltb_lt; lia).
      assert (E2 : (i <? length sl) = true) by (apply Nat.ltb_lt; lia).
      rewrite E1, E2 in H. cbn [negb] in H.
      destruct (fits_row v D); cbn [negb] in H;
        [| inversion H; subst; now right].
      refine (IH _ _ _ _ _ _ _ _ Hvec' _ _ H); rewrite list_set_length; lia.
Qed.

Section ModelFacts.

Variable Float : Type.
Variable svd_flex :
  Tensor -> string -> nat -> Float -> result (Tensor * Tensor * Z).
Variables SingleMat MatRegion OutputCore : Tensor -> result Contractable.
Variable EdgeVec : Tensor -> bool -> result Contractable.
Variable reduce : list Contractable -> bool -> result Contractable.

Local Abbreviation fwd :=
  (forward svd_flex SingleMat MatRegion OutputCore EdgeVec reduce).
Local Abbreviation MPS_fwd :=
  (MPS_forward svd_flex SingleMat MatRegion OutputCore EdgeVec reduce).
Local Abbreviation chain :=
  (adaptive_chain svd_flex SingleMat MatRegion OutputCore EdgeVec reduce).
Local Abbreviation state :=
  (model_state svd_flex SingleMat MatRegion OutputCore EdgeVec reduce).

(** what every state of a model keeps *)
Let kept (self : MPS Float) : Prop :=
  length (bond_list self) = input_dim self + 2 /\
  length (sv_list self) = input_dim self + 2 /\
  forall r, linear_region self = Adaptive r -> chain (input_dim self) r.

Lemma new_MPS_kept (N o D f : nat) (adaptive p q : bool) (ls : option Z)
  (pth : option (list Z)) (cut : Float) (thr : Z) (self : MPS Float) :
  new_MPS N o D f adaptive p q ls pth cut thr = Ok self -> kept self.
Proof.
  intros H. unfold new_MPS in H.
  match type of H with
  | (if ?b then _ else _) = _ => destruct b eqn:Hls; [| discriminate H]
  end.
  apply bind_Ok in H as (region & Hreg & H).
  apply bind_Ok in H as (n & Hn & H).
  destruct (n =? N); [| discriminate H].
  match type of H with
  | (if ?b then _ else _) = _ => destruct b; [| discriminate H]
  end.
  apply Ok_inj in H. subst self. unfold kept. cbn [bond_list sv_list input_dim
                                                    linear_region].
  split; [| split].
  - destruct p; [now rewrite repeat_length |].
    cbn [length]. rewrite length_app, repeat_length. cbn. lia.
  - now rewrite repeat_length.
  - intros r Hr. subst region.
    destruct adaptive.
    + apply bind_Ok in Hreg as (r' & Hr' & Hreg). apply Ok_inj in Hreg.
      inversion Hreg; subst r'.
      apply andb_true_iff in Hls as [Hlo Hhi].
      apply Z.leb_le in Hlo, Hhi.
      eapply chain_built; [| exact Hr']. lia.
    + apply bind_Ok in Hreg as (r' & _ & Hreg). apply Ok_inj in Hreg.
      discriminate Hreg.
Qed.

Lemma MPS_forward_kept (self : MPS Float) (input_data : Tensor) :
  kept self -> kept (fst (MPS_fwd self input_data)).
Proof.
  intros (Hbl & Hsl & Hchain). unfold MPS_forward.
  destruct (prepare_input self input_data) as [x|];
    [| cbn [fst]; repeat split; assumption].
  destruct (linear_region self) as [r|r] eqn:Hreg.
  - cbn [fst]. unfold kept. rewrite Hreg. repeat split; try assumption;
      intros r0 Hr0; discriminate Hr0.
  - destruct (fwd r x) as [r' out] eqn:Hfwd.
    assert (Hr' : chain (input_dim self) r').
    { replace r' with (fst (fwd r x)) by now rewrite Hfwd.
      apply chain_used. now apply Hchain. }
    assert (Hset : kept (set_region self (Adaptive r'))).
    { unfold kept. cbn. repeat split; try assumption.
      intros r0 Hr0. inversion Hr0; subst. exact Hr'. }
    destruct out as [[o|o nb ns]|e]; cbn [fst]; try exact Hset.
    destruct (negb (length nb =? length (bond_list (set_region self (Adaptive r')))));
      [exact Hset |].
    destruct (negb (length nb =? length ns)); [exact Hset |].
    destruct (update_lists 0 nb ns _ _ _) as [[bl' sl'] res] eqn:Eup.
    cbn [fst]. destruct (update_lists_lengths _ _ _ _ _ _ _ _ _ Eup) as [H1 H2].
    unfold kept. cbn in H1, H2 |- *. rewrite H1, H2.
    repeat split; try assumption.
    intros r0 Hr0. inversion Hr0; subst. exact Hr'.
Qed.

Lemma model_state_kept (self : MPS Float) : state self -> kept self.
Proof.
  induction 1 as [N o D f a p q ls pth cut thr self H | self x _ IH
                 | self self' fm _ IH Hreg].
  - exact (new_MPS_kept _ _ _ _ _ _ _ _ _ _ _ _ H).
  - now apply MPS_forward_kept.
  - unfold register_feature_map in Hreg.
    assert (Hs : self' = set_feature_map self fm).
    { destruct fm as [g|]; [| now apply Ok_inj in Hreg].
      apply bind_Ok in Hreg as (out & _ & Hreg).
      destruct (negb _); [discriminate Hreg | now apply Ok_inj in Hreg]. }
    subst self'. exact IH.
Qed.

(** X9: in every state of a model, from its construction on and through
    forward calls that return or raise and registrations of feature maps,
    the list of bond dimensions and the list of singular values have
    [input_dim + 2] entries. *)
Theorem model_lists_length (self : MPS Float) :
  state self ->
  length (bond_list self) = input_dim self + 2 /\
  length (sv_list self) = input_dim self + 2.
Proof.
  intros Hs. destruct (model_state_kept self Hs) as (H1 & H2 & _).
  split; assumption.
Qed.

(** X10: when the adaptive chain of a model returns its output with the two
    lists, the lists have [input_dim + 2] entries, the assertions of
    [MPS.forward] on them hold, and the loop that copies them ends, or stops
    where a vector of singular values does not fit its row: the call returns
    the output of the chain or raises a runtime error, and nothing else. *)
Theorem model_bookkeeping (self : MPS Float) (input_data x : Tensor)
  (r r' : MergedLinearRegion Float) (output : Tensor) (new_bonds : list Z)
  (new_svs : list SvEntry) :
  state self ->
  linear_region self = Adaptive r ->
  prepare_input self input_data = Ok x ->
  fwd r x = (r', Ok (OutTriple output new_bonds new_svs)) ->
  length new_bonds = input_dim self + 2 /\
  length new_svs = input_dim self + 2 /\
  (snd (MPS_fwd self input_data) = Ok output \/
   snd (MPS_fwd self input_data) = Raise RuntimeError).
Proof.
  intros Hs Hreg Hprep Hfwd.
  destruct (model_state_kept self Hs) as (Hbl & Hsl & Hchain).
  specialize (Hchain r Hreg).
  destruct (adaptive_chain_lists _ _ _ _ _ _ _ _ _ Hchain)
    as (l0 & l1 & E0 & E1 & C0 & C1 & Hoff).
  assert (Hhit : threshold_hit r = true).
  { destruct (threshold_hit r) eqn:E; [reflexivity |].
    rewrite (forward_miss _ _ _ _ _ _ _ _ _ E) in Hfwd.
    apply contract_returns in Hfwd as (b & o & _ & _ & Hout).
    discriminate Hout. }
  destruct (forward_hit_returns _ _ _ _ _ _ _ _ _ _ _ _ _ E0 E1 Hhit Hfwd)
    as (b & o & bl & sl & l & _ & Hout & Hl & Hne & Hlen & _).
  inversion Hout; subst o bl sl. clear Hout.
  assert (Hc : chain_core_len l = Ok (input_dim self + 1)).
  { destruct (offset r) as [|[|k]]; [| | lia]; cbn in Hl.
    - rewrite E0 in Hl. inversion Hl; subst. now destruct C0.
    - rewrite E1 in Hl. inversion Hl; subst. now destruct C1. }
  destruct (Hlen _ Hc) as [Hnb Hns].
  split; [lia |]. split; [lia |].
  destruct (forward_triple_unmerge _ _ _ _ _ _ _ _ _ _ _ _ _ Hfwd) as [s1 Hun].
  destruct (unmerge_aligned _ _ _ _ _ _ _ Hun) as (Hal & _).
  unfold MPS_forward. rewrite Hprep, Hreg, Hfwd.
  cbn [set_region bond_list sv_list bond_dim].
  replace (length new_bonds =? length (bond_list self)) with true
    by (symmetry; apply Nat.eqb_eq; lia).
  replace (length new_bonds =? length new_svs) with true
    by (symmetry; apply Nat.eqb_eq; lia).
  cbn [negb].
  destruct (update_lists 0 new_bonds new_svs (bond_dim self) (bond_list self)
                         (sv_list self)) as [[bl' sl'] res] eqn:Eup.
  cbn [snd].
  assert (Hvec : forall j b0, nth_error new_bonds j = Some b0 -> b0 <> (-1)%Z ->
                   exists v, nth_error new_svs (0 + j) = Some (SvVec v))
    by exact (aligned_vectors _ _ Hal).
  assert (Hout : res = Ok tt \/ res = Raise RuntimeError).
  { refine (update_lists_outcome _ _ _ _ _ _ _ _ _ Hvec _ _ Eup); cbn; lia. }
  destruct Hout as [-> | ->]; [left | right]; reflexivity.
Qed.

End ModelFacts.

Lemma eager_mps_state :
  model_state ShapeModel.svd_flex ShapeModel.SingleMat ShapeModel.MatRegion
              ShapeModel.OutputCore ShapeModel.EdgeVec ShapeModel.reduce eager_mps.
Proof.
  apply model_built
    with (input_dim := 5) (output_dim := 10) (bond_dim := 3) (feature_dim := 2)
         (adaptive_mode := true) (periodic_bc := false) (parallel_eval := false)
         (label_site := None) (path := None)
         (cutoff := ShapeModel.default_cutoff) (merge_threshold := 0%Z).
  vm_compute. reflexivity.
Defined.

Lemma model_lists_length_witness :
  let self := fst (ShapeModel.MPS_forward eager_mps (mkTensor [4; 5])) in
  model_state ShapeModel.svd_flex ShapeModel.SingleMat ShapeModel.MatRegion
              ShapeModel.OutputCore ShapeModel.EdgeVec ShapeModel.reduce self /\
  length (bond_list self) = input_dim self + 2 /\
  length (sv_list self) = input_dim self + 2.
Proof.
  cbv zeta.
  assert (Hs : model_state ShapeModel.svd_flex ShapeModel.SingleMat
                 ShapeModel.MatRegion ShapeModel.OutputCore ShapeModel.EdgeVec
                 ShapeModel.reduce
                 (fst (ShapeModel.MPS_forward eager_mps (mkTensor [4; 5]))))
    by (apply model_used; exact eager_mps_state).
  split; [exact Hs |].
  exact (model_lists_length ShapeModel.Float ShapeModel.svd_flex
           ShapeModel.SingleMat ShapeModel.MatRegion ShapeModel.OutputCore
           ShapeModel.EdgeVec ShapeModel.reduce _ Hs).
Defined.

Lemma model_bookkeeping_witness :
  let new_bonds := [-1; 3; -1; 3; -1; 3; -1]%Z in
  let new_svs := [SvUnset; SvVec (mkTensor [3]); SvUnset; SvVec (mkTensor [3]);
                  SvUnset; SvVec (mkTensor [3]); SvUnset] in
  (model_state ShapeModel.svd_flex ShapeModel.SingleMat ShapeModel.MatRegion
               ShapeModel.OutputCore ShapeModel.EdgeVec ShapeModel.reduce
               eager_mps /\
   linear_region eager_mps = Adaptive eager_chain /\
   prepare_input eager_mps (mkTensor [4; 5]) = Ok batch_of_4 /\
   ShapeModel.forward eager_chain batch_of_4
   = (fst (ShapeModel.forward eager_chain batch_of_4),
      Ok (OutTriple (mkTensor [4; 10]) new_bonds new_svs))) /\
  length new_bonds = input_dim eager_mps + 2 /\
  length new_svs = input_dim eager_mps + 2 /\
  (snd (ShapeModel.MPS_forward eager_mps (mkTensor [4; 5])) = Ok (mkTensor [4; 10]) \/
   snd (ShapeModel.MPS_forward eager_mps (mkTensor [4; 5])) = Raise RuntimeError).
Proof.
  cbv zeta.
  assert (Hfwd : ShapeModel.forward eager_chain batch_of_4
                 = (fst (ShapeModel.forward eager_chain batch_of_4),
                    Ok (OutTriple (mkTensor [4; 10]) [-1; 3; -1; 3; -1; 3; -1]%Z
                          [SvUnset; SvVec (mkTensor [3]); SvUnset;
                           SvVec (mkTensor [3]); SvUnset; SvVec (mkTensor [3]);
                           SvUnset])))
    by (vm_compute; reflexivity).
  assert (Hprep : prepare_input eager_mps (mkTensor [4; 5]) = Ok batch_of_4)
    by reflexivity.
  split; [split; [exact eager_mps_state | split; [reflexivity |
          split; [exact Hprep | exact Hfwd]]] |].
  exact (model_bookkeeping ShapeModel.Float ShapeModel.svd_flex
           ShapeModel.SingleMat ShapeModel.MatRegion ShapeModel.OutputCore
           ShapeModel.EdgeVec ShapeModel.reduce eager_mps (mkTensor [4; 5])
           batch_of_4 eager_chain _ _ _ _ eager_mps_state eq_refl Hprep Hfwd).
Defined.

(** ** An input region of one site *)

Lemma select_dims_length (dims : list nat) :
  forall axis i r, select_dims dims axis i = Ok r -> S (length r) = length dims.
Proof.
  induction dims as [|n dims IH]; intros [|axis] i r H; cbn in H;
    try discriminate H.
  - destruct (norm_index n i); [| discriminate H].
    apply Ok_inj in H. now subst.
  - apply bind_Ok in H as (r' & Hr' & H). apply Ok_inj in H. subst r.
    cbn. f_equal. exact (IH _ _ _ Hr').
Qed.

Section OneSite.

Variable Float : Type.
Variable svd_flex :
  Tensor -> string -> nat -> Float -> result (Tensor * Tensor * Z).
Variables SingleMat MatRegion OutputCore : Tensor -> result Contractable.
Variable EdgeVec : Tensor -> bool -> result Contractable.
Variable reduce : list Contractable -> bool -> result Contractable.

Local Abbreviation feed_cores := (feed SingleMat MatRegion OutputCore).
Local Abbreviation LR_forward :=
  (LinearRegion_forward SingleMat MatRegion OutputCore EdgeVec reduce).
Local Abbreviation MPS_fwd :=
  (MPS_forward svd_flex SingleMat MatRegion OutputCore EdgeVec reduce).

Lemma feed_one_site (module_list : list Module) (t : Tensor) :
  forall x ind,
    ndim x = 3 -> In (Some (InputRegion t)) module_list -> size t 0 = Ok 1 ->
    exists e, feed_cores module_list x ind = Raise e.
Proof.
  induction module_list as [|module rest IH]; intros x ind Hx Hin Ht;
    [destruct Hin |].
  cbn [feed].
  destruct (mod_len module) as [n|e] eqn:En; cbn [bind]; [| eauto].
  match goal with
  | |- exists e, bind ?m _ = _ => destruct m as [mod_input|e] eqn:Einput
  end; cbn [bind]; [| eauto].
  destruct Hin as [-> | Hin].
  - cbn in En. rewrite Ht in En. apply Ok_inj in En. subst n.
    cbn [Nat.eqb] in Einput. unfold select in Einput.
    apply bind_Ok in Einput as (sh & Hsh & Einput).
    apply Ok_inj in Einput. subst mod_input.
    apply select_dims_length in Hsh. unfold ndim in Hx. rewrite Hx in Hsh.
    cbn [mod_forward Core_forward]. unfold ndim at 1. cbn [shape].
    replace (length sh) with 2 by lia. cbn. eauto.
  - destruct (mod_forward _ _ _ module mod_input) as [c|e]; cbn [bind]; [| eauto].
    destruct (IH x (ind + n) Hx Hin Ht) as [e He]. rewrite He. cbn. eauto.
Qed.

Lemma LinearRegion_forward_one_site (module_list : list Module) (t : Tensor)
  (p q : bool) (x : Tensor) :
  In (Some (InputRegion t)) module_list -> size t 0 = Ok 1 ->
  exists e, LR_forward module_list p q x = Raise e.
Proof.
  intros Hin Ht. unfold LinearRegion_forward.
  destruct (ndim x =? 3) eqn:Hx; [| eauto].
  apply Nat.eqb_eq in Hx.
  destruct (size x 1) as [n1|]; cbn [bind]; [| eauto].
  destruct (chain_len module_list) as [n|]; cbn [bind]; [| eauto].
  destruct (n1 =? n); [| eauto].
  destruct (feed_one_site module_list t x 0 Hx Hin Ht) as [e He].
  rewrite He. cbn. eauto.
Qed.

(** X11: a chain that holds an input region of one site cannot be
    evaluated.  The forward call of the chain hands a core that takes one
    site the column [input_data[:, ind]], which has two axes, and the
    forward call of an input region asserts that its input has three: every
    forward call of such a chain raises. *)
Theorem one_site_region_raises (module_list : list Module) (t : Tensor)
  (periodic_bc parallel_eval : bool) (input_data : Tensor) :
  In (Some (InputRegion t)) module_list -> size t 0 = Ok 1 ->
  exists e, LR_forward module_list periodic_bc parallel_eval input_data = Raise e.
Proof. intros Hin Ht. now apply LinearRegion_forward_one_site with (t := t). Qed.

(** X12: once a model that does not adapt and whose label site leaves one
    input site on one of its sides is built (the default label site of a
    model over two or three sites does so), every forward call of it
    raises. *)
Theorem one_site_model_raises (N o D f : nat) (p q : bool) (ls : option Z)
  (pth : option (list Z)) (cut : Float) (thr : Z) (self : MPS Float)
  (input_data : Tensor) :
  let label_site :=
    Z.to_nat (match ls with Some l => l | None => Z.of_nat (N / 2) end) in
  label_site = 1 \/ N - label_site = 1 ->
  new_MPS N o D f false p q ls pth cut thr = Ok self ->
  exists e, snd (MPS_fwd self input_data) = Raise e.
Proof.
  intros label_site Hone H. unfold new_MPS in H.
  match type of H with
  | (if ?b then _ else _) = _ => destruct b eqn:Hls; [| discriminate H]
  end.
  apply bind_Ok in H as (region & Hreg & H).
  apply bind_Ok in H as (n & Hn & H).
  destruct (n =? N); [| discriminate H].
  match type of H with
  | (if ?b then _ else _) = _ => destruct b; [| discriminate H]
  end.
  apply Ok_inj in H. subst self.
  apply bind_Ok in Hreg as (r & Hr & Hreg). apply Ok_inj in Hreg. subst region.
  unfold new_LinearRegion in Hr. apply bind_Ok in Hr as (u & _ & Hr).
  apply Ok_inj in Hr. subst r.
  unfold MPS_forward.
  match goal with
  | |- exists e, snd (match ?m with _ => _ end) = _ => destruct m as [x|e]
  end; [| cbn; eauto].
  cbn [linear_region lr_module_list lr_periodic_bc lr_parallel_eval snd].
  fold label_site.
  apply LinearRegion_forward_one_site with (t := init_tensor [1; D; D; f]);
    [| reflexivity].
  unfold mps_module_list.
  destruct Hone as [H1 | H1].
  - rewrite H1. cbn [Nat.ltb Nat.leb app]. now left.
  - apply in_or_app. right. apply in_or_app. right.
    replace (label_site <? N) with true by (symmetry; apply Nat.ltb_lt; lia).
    rewrite H1. now left.
Qed.

End OneSite.

Lemma one_site_region_raises_witness :
  let module_list := mps_module_list 3 10 3 2 1 in
  (In (Some (InputRegion (mkTensor [1; 3; 3; 2]))) module_list /\
   size (mkTensor [1; 3; 3; 2]) 0 = Ok 1) /\
  exists e,
    LinearRegion_forward ShapeModel.SingleMat ShapeModel.MatRegion
                         ShapeModel.OutputCore ShapeModel.EdgeVec ShapeModel.reduce
                         module_list false false (mkTensor [4; 3; 2]) = Raise e.
Proof.
  cbv zeta. split; [split; [now left | reflexivity] |].
  apply (one_site_region_raises ShapeModel.SingleMat ShapeModel.MatRegion
           ShapeModel.OutputCore ShapeModel.EdgeVec ShapeModel.reduce
           _ (mkTensor [1; 3; 3; 2])); [now left | reflexivity].
Defined.

Lemma one_site_model_raises_witness :
  (Z.to_nat (Z.of_nat (3 / 2)) = 1 \/ 3 - Z.to_nat (Z.of_nat (3 / 2)) = 1) /\
  ShapeModel.new_MPS 3 10 3 2 false false false None None
                     ShapeModel.default_cutoff 2000%Z = Ok plain_mps /\
  exists e, snd (ShapeModel.MPS_forward plain_mps (mkTensor [4; 3])) = Raise e.
Proof.
  split; [now left |]. split; [reflexivity |].
  apply (one_site_model_raises ShapeModel.Float ShapeModel.svd_flex
           ShapeModel.SingleMat ShapeModel.MatRegion ShapeModel.OutputCore
           ShapeModel.EdgeVec ShapeModel.reduce 3 10 3 2 false false None None
           ShapeModel.default_cutoff 2000%Z plain_mps (mkTensor [4; 3]));
    [now left | reflexivity].
Defined.

(** ** The embedding of the input *)

Lemma ndim_3_shape (x : Tensor) :
  ndim x = 3 -> exists b n f, shape x = [b; n; f].
Proof.
  unfold ndim. destruct (shape x) as [|b [|n [|f [|]]]]; try discriminate. eauto.
Qed.

Lemma ndim_2_shape (x : Tensor) : ndim x = 2 -> exists b n, shape x = [b; n].
Proof.
  unfold ndim. destruct (shape x) as [|b [|n [|]]]; try discriminate. eauto.
Qed.

Lemma list_eqb_eq (l1 l2 : list nat) : list_eqb l1 l2 = true <-> l1 = l2.
Proof.
  unfold list_eqb. destruct (list_eq_dec Nat.eq_dec l1 l2); split; auto.
  discriminate.
Qed.

(** X13: whatever [embed_input] returns has the shape [batch, input_dim,
    feature_dim], where [batch] is the first size of the input: for an input
    that is embedded already, for the linear embedding and for a feature map
    that has been registered. *)
Theorem embed_input_shape (Float : Type) (self : MPS Float) (x t : Tensor) :
  embed_input self x = Ok t ->
  exists b, size x 0 = Ok b /\ shape t = [b; input_dim self; feature_dim self].
Proof.
  intros H. unfold embed_input in H.
  destruct ((ndim x =? 2) || (ndim x =? 3)) eqn:Hnd; [| discriminate H].
  apply bind_Ok in H as (n1 & Hn1 & H).
  destruct (n1 =? input_dim self) eqn:En1; [| discriminate H].
  apply Nat.eqb_eq in En1. subst n1.
  destruct (ndim x =? 3) eqn:H3.
  - apply Nat.eqb_eq in H3. destruct (ndim_3_shape x H3) as (b & n & f & Hsh).
    apply bind_Ok in H as (n2 & Hn2 & H).
    destruct (n2 =? feature_dim self) eqn:En2; [| discriminate H].
    apply Nat.eqb_eq in En2. cbn [negb] in H. apply Ok_inj in H. subst t.
    unfold size in *. rewrite Hsh in *. cbn in *.
    apply Ok_inj in Hn1, Hn2. subst. eauto.
  - rewrite orb_false_r in Hnd. apply Nat.eqb_eq in Hnd.
    destruct (ndim_2_shape x Hnd) as (b & n & Hsh).
    destruct (feature_map self) as [f_map|].
    + apply bind_Ok in H as (batches & _ & H).
      apply bind_Ok in H as (embedded & _ & H).
      apply bind_Ok in H as (embedded_data & _ & H).
      apply bind_Ok in H as (n0 & Hn0 & H).
      destruct (list_eqb _ _) eqn:Eeq; [| discriminate H].
      apply Ok_inj in H. subst t. apply list_eqb_eq in Eeq. eauto.
    + destruct (feature_dim self =? 2) eqn:Ef; [| discriminate H].
      apply Nat.eqb_eq in Ef. cbn [negb] in H. apply Ok_inj in H. subst t.
      unfold size in *. rewrite Hsh in *. cbn in *.
      apply Ok_inj in Hn1. subst. eauto.
Qed.

Lemma embed_input_shape_witness :
  embed_input plain_mps (mkTensor [4; 3]) = Ok (mkTensor [4; 3; 2]) /\
  exists b, size (mkTensor [4; 3]) 0 = Ok b /\
            shape (mkTensor [4; 3; 2])
            = [b; input_dim plain_mps; feature_dim plain_mps].
Proof.
  split; [reflexivity |].
  apply (embed_input_shape ShapeModel.Float plain_mps (mkTensor [4; 3])).
  reflexivity.
Defined.

(** X14: without a feature map, an input with the two axes [b, n] is
    embedded into the shape [b, n, 2] when [n] is the input size of the
    model and its feature size is 2; with another feature size a runtime
    error is raised, and with another [n] the assertion fails first.  An
    input with another number of axes than two or three fails the first
    assertion. *)
Theorem embed_input_linear (Float : Type) (self : MPS Float) (b n : nat)
  (x : Tensor) :
  (feature_map self = None ->
   embed_input self (mkTensor [b; n]) =
   if n =? input_dim self then
     if feature_dim self =? 2 then Ok (mkTensor [b; n; 2]) else Raise RuntimeError
   else Raise AssertionError) /\
  (ndim x <> 2 -> ndim x <> 3 -> embed_input self x = Raise AssertionError).
Proof.
  split.
  - intros Hmap. unfold embed_input. cbn -[Nat.eqb]. cbn [Nat.eqb orb].
    destruct (n =? input_dim self); [| reflexivity].
    rewrite Hmap. destruct (feature_dim self =? 2) eqn:Ef; [| reflexivity].
    apply Nat.eqb_eq in Ef. rewrite Ef. reflexivity.
  - intros H2 H3. unfold embed_input.
    apply Nat.eqb_neq in H2, H3. now rewrite H2, H3.
Qed.

Lemma embed_input_linear_witness :
  (feature_map plain_mps = None /\ ndim (mkTensor [4]) <> 2 /\
   ndim (mkTensor [4]) <> 3) /\
  embed_input plain_mps (mkTensor [4; 3]) = Ok (mkTensor [4; 3; 2]) /\
  embed_input plain_mps (mkTensor [4]) = Raise AssertionError.
Proof.
  split; [repeat split; cbn; lia |].
  destruct (embed_input_linear ShapeModel.Float plain_mps 4 3 (mkTensor [4]))
    as [H1 H2].
  split; [exact (H1 eq_refl) | apply H2; cbn; lia].
Defined.

(** ** The registration of a feature map *)

Lemma mapM_repeat {A B : Type} (f : A -> result B) (a : A) (b : B) (n : nat) :
  f a = Ok b -> mapM f (repeat a n) = Ok (repeat b n).
Proof.
  intros H. induction n as [|n IH]; cbn; [reflexivity |].
  now rewrite H, IH.
Qed.

Lemma forallb_repeat {A : Type} (P : A -> bool) (a : A) (n : nat) :
  P a = true -> forallb P (repeat a n) = true.
Proof. intros H. induction n as [|n IH]; cbn; [reflexivity | now rewrite H]. Qed.

Lemma list_eqb_refl (l : list nat) : list_eqb l l = true.
Proof. now apply list_eqb_eq. Qed.

Lemma stack_repeat (t : Tensor) (n : nat) :
  stack (repeat t (S n)) = Ok (mkTensor (S n :: shape t)).
Proof.
  cbn [repeat stack]. rewrite forallb_repeat by apply list_eqb_refl.
  cbn [length]. now rewrite repeat_length.
Qed.

(** X15: a feature map is registered when what it returns for a scalar has
    the one axis of the size [feature_dim], and refused with a value error,
    the model being left as it is, when it has another shape.  Once it is
    registered, a batch of [b] inputs over the [input_dim] sites, both
    positive, is embedded into the shape [b, input_dim, feature_dim]; a batch
    without inputs raises a runtime error, since no tensor is there to be
    stacked. *)
Theorem register_feature_map_embeds (Float : Type) (self : MPS Float)
  (f_map : Tensor -> result Tensor) (out : Tensor) (b : nat) :
  f_map (mkTensor []) = Ok out ->
  (shape out <> [feature_dim self] ->
   register_feature_map self (Some f_map) = Raise ValueError) /\
  (shape out = [feature_dim self] ->
   exists self',
     register_feature_map self (Some f_map) = Ok self' /\
     self' = set_feature_map self (Some f_map) /\
     (0 < input_dim self ->
      embed_input self' (mkTensor [S b; input_dim self])
      = Ok (mkTensor [S b; input_dim self; feature_dim self]) /\
      embed_input self' (mkTensor [0; input_dim self]) = Raise RuntimeError)).
Proof.
  intros Hout. split.
  - intros Hne. unfold register_feature_map. rewrite Hout. cbn [bind].
    destruct (list_eqb _ _) eqn:E; [| reflexivity].
    apply list_eqb_eq in E. contradiction.
  - intros Hsh. exists (set_feature_map self (Some f_map)).
    split; [| split; [reflexivity |]].
    + unfold register_feature_map. rewrite Hout. cbn [bind].
      now rewrite Hsh, list_eqb_refl.
    + intros Hpos. destruct (input_dim self) as [|n] eqn:En; [lia |].
      assert (Hrow : (xs <- iter0 (mkTensor [S n]) ;;
                      fs <- mapM f_map xs ;; stack fs)
                     = Ok (mkTensor [S n; feature_dim self])).
      { cbn [iter0 shape bind].
        rewrite (mapM_repeat f_map (mkTensor []) out (S n) Hout). cbn [bind].
        now rewrite stack_repeat, Hsh. }
      unfold embed_input.
      cbn [feature_map set_feature_map input_dim feature_dim].
      rewrite En. split.
      * cbn [ndim shape length Nat.eqb orb size nth_error bind].
        rewrite Nat.eqb_refl.
        cbn [iter0 shape bind].
        rewrite (mapM_repeat _ (mkTensor [S n])
                   (mkTensor [S n; feature_dim self]) (S b) Hrow).
        cbn [bind]. rewrite stack_repeat. cbn [bind shape].
        now rewrite list_eqb_refl.
      * cbn [ndim shape length Nat.eqb orb size nth_error bind].
        rewrite Nat.eqb_refl. reflexivity.
Qed.

Lemma register_feature_map_embeds_witness :
  let f_map := fun _ : Tensor => Ok (mkTensor [2]) in
  f_map (mkTensor []) = Ok (mkTensor [2]) /\
  (shape (mkTensor [2]) <> [feature_dim plain_mps] ->
   register_feature_map plain_mps (Some f_map) = Raise ValueError) /\
  (shape (mkTensor [2]) = [feature_dim plain_mps] ->
   exists self',
     register_feature_map plain_mps (Some f_map) = Ok self' /\
     self' = set_feature_map plain_mps (Some f_map) /\
     (0 < input_dim plain_mps ->
      embed_input self' (mkTensor [4; input_dim plain_mps])
      = Ok (mkTensor [4; input_dim plain_mps; feature_dim plain_mps]) /\
      embed_input self' (mkTensor [0; input_dim plain_mps])
      = Raise RuntimeError)).
Proof.
  cbv zeta. split; [reflexivity |].
  apply (register_feature_map_embeds ShapeModel.Float plain_mps
           (fun _ : Tensor => Ok (mkTensor [2])) (mkTensor [2]) 3).
  reflexivity.
Defined.

(** ** The path of a model *)

Lemma norm_index_in_range (m : nat) (i : Z) :
  in_range m i = true <-> exists j, norm_index m i = Some j.
Proof.
  unfold in_range, norm_index.
  destruct (i <? 0)%Z eqn:Ei.
  - apply Z.ltb_lt in Ei.
    destruct ((0 <=? i + Z.of_nat m)%Z && (i + Z.of_nat m <? Z.of_nat m)%Z) eqn:E.
    + apply andb_true_iff in E as [E1 E2]. apply Z.leb_le in E1.
      split; [eauto |]. intros _. apply andb_true_iff.
      split; [apply Z.leb_le | apply Z.ltb_lt]; lia.
    + split; [| intros [j Hj]; discriminate Hj].
      intros H. apply andb_true_iff in H as [H1 H2].
      apply Z.leb_le in H1. apply Z.ltb_lt in H2.
      apply andb_false_iff in E as [E | E];
        [apply Z.leb_gt in E | apply Z.ltb_ge in E]; lia.
  - apply Z.ltb_ge in Ei.
    destruct ((0 <=? i)%Z && (i <? Z.of_nat m)%Z) eqn:E.
    + apply andb_true_iff in E as [E1 E2]. apply Z.ltb_lt in E2.
      split; [eauto |]. intros _. apply andb_true_iff.
      split; [apply Z.leb_le | apply Z.ltb_lt]; lia.
    + split; [| intros [j Hj]; discriminate Hj].
      intros H. apply andb_true_iff in H as [H1 H2].
      apply Z.leb_le in H1. apply Z.ltb_lt in H2.
      apply andb_false_iff in E as [E | E];
        [apply Z.leb_gt in E | apply Z.ltb_ge in E]; lia.
Qed.

Lemma select_column (b m : nat) (i : Z) :
  select 1 (mkTensor [b; m]) i
  = if in_range m i then Ok (mkTensor [b]) else Raise IndexError.
Proof.
  unfold select. cbn [shape select_dims].
  destruct (in_range m i) eqn:E.
  - apply norm_index_in_range in E as [j ->]. reflexivity.
  - destruct (norm_index m i) as [j|] eqn:Ej; [| reflexivity].
    assert (in_range m i = true) by (apply norm_index_in_range; eauto).
    congruence.
Qed.

Lemma mapM_select_columns (b m : nat) (p : list Z) :
  mapM (select 1 (mkTensor [b; m])) p
  = if forallb (in_range m) p then Ok (repeat (mkTensor [b]) (length p))
    else Raise IndexError.
Proof.
  induction p as [|i p IH]; [reflexivity |].
  cbn [mapM forallb length repeat]. rewrite select_column.
  destruct (in_range m i); cbn [bind andb]; [| reflexivity].
  rewrite IH. destruct (forallb (in_range m) p); reflexivity.
Qed.

(** X16: a model with a path takes an input whose second size is not the
    input size of the model: of an input with the axes [b, m] it takes the
    columns that the path names, in the order of the path, which gives the
    shape [b, input_dim] that is embedded then.  An index of the path that
    is no index of a column, counted from the front or, when negative, from
    the back, raises an index error. *)
Theorem prepare_input_path (Float : Type) (self : MPS Float) (p : list Z)
  (b m : nat) :
  path self = Some p -> p <> [] -> length p = input_dim self ->
  feature_map self = None -> feature_dim self = 2 ->
  prepare_input self (mkTensor [b; m])
  = if forallb (in_range m) p then Ok (mkTensor [b; input_dim self; 2])
    else Raise IndexError.
Proof.
  intros Hp Hne Hlen Hmap Hf. unfold prepare_input. rewrite Hp.
  destruct p as [|i p]; [congruence |].
  lazy iota beta. rewrite (mapM_select_columns b m (i :: p)).
  destruct (forallb (in_range m) (i :: p)); [| reflexivity].
  cbn [bind]. rewrite <- Hlen. cbn [length repeat stack1 shape].
  rewrite forallb_repeat by apply list_eqb_refl.
  cbn [bind length]. rewrite repeat_length.
  unfold embed_input. cbn [ndim shape length Nat.eqb orb size nth_error bind].
  rewrite <- Hlen. cbn [length]. rewrite Nat.eqb_refl, Hmap, Hf. reflexivity.
Qed.

Lemma prepare_input_path_witness :
  let self := mkMPS (linear_region plain_mps) 3 10 3 2 (Some [4; 0; -1]%Z) None
                    (bond_list plain_mps) (sv_list plain_mps) in
  (path self = Some [4; 0; -1]%Z /\ [4; 0; -1]%Z <> [] /\
   length [4; 0; -1]%Z = input_dim self /\ feature_map self = None /\
   feature_dim self = 2) /\
  prepare_input self (mkTensor [7; 5]) = Ok (mkTensor [7; 3; 2]).
Proof.
  cbv zeta. split; [repeat split; discriminate |].
  apply (prepare_input_path ShapeModel.Float
           (mkMPS (linear_region plain_mps) 3 10 3 2 (Some [4; 0; -1]%Z) None
                  (bond_list plain_mps) (sv_list plain_mps))
           [4; 0; -1]%Z 7 5); try reflexivity.
  discriminate.
Defined.

(** ** The construction of a model *)

Lemma mps_module_list_len (N o D f l : nat) :
  l <= N -> chain_len (mps_module_list N o D f l) = Ok N.
Proof.
  intros Hl.
  pose proof (mps_module_list_core_len N o D f l Hl) as Hc.
  destruct (chain_len_of_core_len _ _ Hc) as [Hlen _].
  rewrite Hlen. f_equal.
  assert (Hout : count_outputs (mps_module_list N o D f l) = 1).
  { unfold mps_module_list.
    destruct (0 <? l); destruct (l <? N); reflexivity. }
  rewrite Hout. lia.
Qed.

Lemma mps_module_list_checked (N o D f l : nat) :
  check_modules (mps_module_list N o D f l) = Ok tt.
Proof.
  unfold mps_module_list, check_modules.
  destruct (0 <? l); destruct (l <? N); reflexivity.
Qed.

(** X17: the constructor of a model that does not adapt succeeds exactly
    when the label site lies between 0 and [input_dim] and the path, if one
    is given that is not empty, has [input_dim] entries; it fails on an
    assertion otherwise.  The chain of the model then has the input region
    of the first [label_site] sites, the output site and the input region of
    the other sites, the regions without a site being left out; it counts
    [input_dim] sites, which is the length of the model, and [input_dim + 1]
    cores. *)
Theorem new_MPS_plain (Float : Type) (N o D f : nat) (p q : bool)
  (ls : option Z) (pth : option (list Z)) (cut : Float) (thr : Z) :
  let label_site := label_of N ls in
  if ((0 <=? label_site)%Z && (label_site <=? Z.of_nat N)%Z) && path_ok N pth
  then exists self,
         new_MPS N o D f false p q ls pth cut thr = Ok self /\
         linear_region self
         = Plain Float (mkLR (mps_module_list N o D f (Z.to_nat label_site)) p q) /\
         MPS_len self = N /\
         region_len (linear_region self) = Ok (MPS_len self) /\
         MPS_core_len self = Ok (N + 1)
  else new_MPS N o D f false p q ls pth cut thr = Raise AssertionError.
Proof.
  intros label_site. unfold new_MPS. fold (label_of N ls). fold label_site.
  destruct ((0 <=? label_site)%Z && (label_site <=? Z.of_nat N)%Z) eqn:Hls;
    [| reflexivity].
  assert (Hl : Z.to_nat label_site <= N).
  { apply andb_true_iff in Hls as [H1 H2]. apply Z.leb_le in H1, H2. lia. }
  unfold new_LinearRegion. rewrite mps_module_list_checked.
  cbn [bind region_len lr_module_list].
  rewrite (mps_module_list_len N o D f _ Hl). cbn [bind].
  rewrite Nat.eqb_refl. fold (path_ok N pth).
  cbn [andb]. destruct (path_ok N pth); [| reflexivity].
  eexists. split; [reflexivity |].
  cbn [linear_region MPS_len input_dim region_len lr_module_list].
  split; [reflexivity |]. split; [reflexivity |].
  split; [exact (mps_module_list_len N o D f _ Hl) |].
  exact (mps_module_list_core_len N o D f _ Hl).
Qed.

Example new_MPS_plain_label_out_of_range :
  ShapeModel.new_MPS 3 10 3 2 false false false (Some 4%Z) None
                     ShapeModel.default_cutoff 2000%Z = Raise AssertionError.
Proof. reflexivity. Qed.

(** X18: a model over one site that adapts cannot be built.  With the
    offset 0 the output site and the one input site are fused into one
    core, the list of one core is emptied by the next pass, and the chain,
    which takes the emptied list for its own, counts no site: the assertion
    of the constructor on the length of the chain fails, whatever the sizes
    and the valid label site are. *)
Theorem new_MPS_adaptive_one_site (Float : Type) (o D f : nat) (p q : bool)
  (ls : option Z) (pth : option (list Z)) (cut : Float) (thr : Z) :
  new_MPS 1 o D f true p q ls pth cut thr = Raise AssertionError.
Proof.
  unfold new_MPS. fold (label_of 1 ls).
  destruct ((0 <=? label_of 1 ls)%Z && (label_of 1 ls <=? Z.of_nat 1)%Z) eqn:Hls;
    [| reflexivity].
  assert (Hl : Z.to_nat (label_of 1 ls) = 0 \/ Z.to_nat (label_of 1 ls) = 1).
  { apply andb_true_iff in Hls as [H1 H2]. apply Z.leb_le in H1, H2. lia. }
  destruct Hl as [-> | ->].
  - repeat (cbn; rewrite ?Nat.eqb_refl, ?broadcast_refl). reflexivity.
  - repeat (cbn; rewrite ?Nat.eqb_refl, ?broadcast_refl). reflexivity.
Qed.

(** ** The forward call of a core *)

Lemma even_double (k : nat) : (2 * k) mod 2 = 0.
Proof.
  pose proof (Nat.div_mod_eq (2 * k) 2). pose proof (Nat.mod_upper_bound (2 * k) 2).
  lia.
Qed.

Lemma half_double (k : nat) : (2 * k) / 2 = k.
Proof.
  pose proof (Nat.div_mod_eq (2 * k) 2). pose proof (even_double k). lia.
Qed.

Section CoreForward.

Variables SingleMat MatRegion OutputCore : Tensor -> result Contractable.

Local Abbreviation core_fwd := (Core_forward SingleMat MatRegion OutputCore).

Lemma MergedInput_forward_shape (b k D f : nat) :
  core_fwd (MergedInput (mkTensor [k; D; D; f; f])) (mkTensor [b; 2 * k; f])
  = MatRegion (mkTensor [b; k; D; D]).
Proof.
  unfold Core_forward.
  cbn -[Nat.modulo Nat.div Nat.mul slice einsum].
  rewrite !Nat.eqb_refl, even_double. cbn [Nat.eqb].
  unfold slice. cbn -[Nat.modulo Nat.div Nat.mul slice_len einsum].
  rewrite slice_len_even0 by apply even_double.
  destruct k as [|k].
  - repeat (cbn; rewrite ?Nat.eqb_refl, ?broadcast_refl). reflexivity.
  - rewrite slice_len_even1 by (try apply even_double; lia).
    rewrite half_double.
    repeat (cbn -[Nat.mul]; rewrite ?Nat.eqb_refl, ?broadcast_refl). reflexivity.
Qed.

(** X21: the forward call of each kind of core takes an input of the shape
    that fits its tensor and hands the contraction over the feature axis to
    the contractable it returns: an input region of [n] sites makes a matrix
    region of the shape [b, n, l, r] of the input [b, n, f], a merged-input
    core of [k] pairs one of the shape [b, k, D, D] of the input [b, 2k, f],
    an input site a single matrix [b, l, r] of the input [b, f], a merged
    input+output core an output core [b, o, l, r] of the input [b, f], and
    an output site its own tensor, whatever the input is. *)
Theorem core_forward_shapes (b n k o l r D f : nat) (lo : bool) (x : Tensor) :
  core_fwd (InputRegion (mkTensor [n; l; r; f])) (mkTensor [b; n; f])
  = MatRegion (mkTensor [b; n; l; r]) /\
  core_fwd (MergedInput (mkTensor [k; D; D; f; f])) (mkTensor [b; 2 * k; f])
  = MatRegion (mkTensor [b; k; D; D]) /\
  core_fwd (InputSite (mkTensor [l; r; f])) (mkTensor [b; f])
  = SingleMat (mkTensor [b; l; r]) /\
  core_fwd (MergedOutput (mkTensor [o; l; r; f]) lo) (mkTensor [b; f])
  = OutputCore (mkTensor [b; o; l; r]) /\
  core_fwd (OutputSite (mkTensor [o; l; r])) x
  = OutputCore (mkTensor [o; l; r]).
Proof.
  split; [| split; [apply MergedInput_forward_shape | split; [| split]]].
  - repeat (cbn; rewrite ?Nat.eqb_refl, ?broadcast_refl). reflexivity.
  - repeat (cbn; rewrite ?Nat.eqb_refl, ?broadcast_refl). reflexivity.
  - repeat (cbn; rewrite ?Nat.eqb_refl, ?broadcast_refl). reflexivity.
  - reflexivity.
Qed.

End CoreForward.

(** ** Lists that [LinearRegion.__init__], [merge] and [unmerge] are not made for *)

Section WrongLists.

Variable Float : Type.
Variable svd_flex :
  Tensor -> string -> nat -> Float -> result (Tensor * Tensor * Z).
Variables SingleMat MatRegion OutputCore : Tensor -> result Contractable.
Variable EdgeVec : Tensor -> bool -> result Contractable.
Variable reduce : list Contractable -> bool -> result Contractable.

Local Abbreviation LR_forward :=
  (LinearRegion_forward SingleMat MatRegion OutputCore EdgeVec reduce).

(** X22: the constructor of a chain takes the empty list of modules: its
    test [module_list is []] compares the list with a new list and is never
    true.  A forward call of the empty chain with open boundary raises: an
    assertion fails unless the input has three axes and no site, and the
    first of the contractables is asked for when there is none. *)
Theorem empty_chain (p q : bool) (x : Tensor) :
  new_LinearRegion [] p q = Ok (mkLR [] p q) /\
  (LR_forward [] false q x = Raise AssertionError \/
   LR_forward [] false q x = Raise IndexError).
Proof.
  split; [reflexivity |].
  unfold LinearRegion_forward.
  destruct (ndim x =? 3) eqn:Hx; [| now left].
  apply Nat.eqb_eq in Hx. destruct (ndim_3_shape x Hx) as (b & n & f & Hsh).
  unfold size. rewrite Hsh. cbn.
  destruct (n =? 0); [now right | now left].
Qed.

Lemma merge_cores_merged (unmerged_list : list Module) :
  forall site_num,
    existsb is_merged unmerged_list = true ->
    exists e, merge_cores unmerged_list site_num = Raise e.
Proof.
  induction unmerged_list as [|core rest IH]; intros site_num H;
    [discriminate H |].
  cbn [existsb] in H. cbn [merge_cores].
  destruct (is_merged core) eqn:Hcore.
  - unfold is_merged in Hcore.
    destruct (is_MergedInput core); cbn [negb]; [eauto |].
    cbn [orb] in Hcore. rewrite Hcore. cbn [negb]. eauto.
  - cbn [orb] in H.
    destruct (negb (is_MergedInput core)); [| eauto].
    destruct (negb (is_MergedOutput core)); [| eauto].
    match goal with
    | |- exists e, bind ?m _ = _ => destruct m as [new_cores|]
    end; cbn [bind]; [| eauto].
    destruct (mod_core_len core) as [n|]; cbn [bind]; [| eauto].
    destruct (IH (site_num + n) H) as [e He]. rewrite He. cbn. eauto.
Qed.

Lemma unmerge_cores_region (merged_list : list Module) (cut : Float) :
  existsb is_InputRegion merged_list = true ->
  exists e, unmerge_cores svd_flex merged_list cut = Raise e.
Proof.
  induction merged_list as [|core rest IH]; intros H; [discriminate H |].
  cbn [existsb] in H. rewrite unmerge_cores_cons.
  destruct (is_InputRegion core) eqn:Hcore.
  - destruct core as [[t|t|t|t|t lo]|]; try discriminate Hcore.
    cbn. eauto.
  - cbn [orb] in H.
    destruct (unmerge_cores svd_flex [core] cut) as [[[a b] c]|]; cbn [bind];
      [| eauto].
    destruct (IH H) as [e He]. rewrite He. cbn. eauto.
Qed.

(** X23: [merge] does not take a chain that holds a merged core, and
    [unmerge] does not take a merged list that holds an input region: the
    first loop of each raises, so that neither can be run twice in a row on
    what it has made itself. *)
Theorem wrong_state_raises (self : MergedLinearRegion Float) (k : nat)
  (cut : Float) (l : list Module) :
  (get_module_list self = Ok l -> existsb is_merged l = true ->
   exists e, merge self k = Raise e) /\
  (merged_attr self (offset self) = Some l ->
   existsb is_InputRegion l = true ->
   exists e, unmerge svd_flex self cut = Raise e).
Proof.
  split.
  - intros Hget Hm. unfold merge.
    destruct ((k =? 0) || (k =? 1)); [| eauto].
    rewrite Hget. cbn [bind].
    destruct (merge_cores_merged l k Hm) as [e He]. rewrite He. cbn. eauto.
  - intros Hattr Hr. unfold unmerge. rewrite Hattr. cbn [bind].
    destruct (unmerge_cores_region l cut Hr) as [e He]. rewrite He. cbn. eauto.
Qed.

End WrongLists.

Lemma wrong_state_raises_witness :
  let self := mkMLR (Own merged_0) (Some (mps_module_list 5 10 3 2 2)) None
                    false false 0 0%Z 0%Z ShapeModel.default_cutoff in
  (get_module_list self = Ok merged_0 /\ existsb is_merged merged_0 = true) /\
  exists e, merge self 1 = Raise e.
Proof.
  cbv zeta. split; [split; reflexivity |].
  apply (proj1 (wrong_state_raises ShapeModel.Float ShapeModel.svd_flex
                  (mkMLR (Own merged_0) (Some (mps_module_list 5 10 3 2 2)) None
                         false false 0 0%Z 0%Z ShapeModel.default_cutoff)
                  1 ShapeModel.default_cutoff merged_0)); reflexivity.
Defined.
